(** * hugjobk/http2: the client connection pool (client_conn_pool.go)

    A shallow embedding of the connection factory, the per-destination
    connection group and the pool registry, followed by the properties the
    specification states about them.

    Conventions of the embedding:
    - a Go [int] is a [Z] kept in the two's-complement range of a 64-bit
      platform by [wrap_int]; [len(s)] is [Z.of_nat (length s)];
    - a [*http2.ClientConn] is a [positive]: only pointer identity is used
      (map key, comparison), never the pointee;
    - a [*clientConnGroup] is an index into [heap], the list of group cells
      allocated so far; a cell is never freed, so a goroutine that still
      holds a pointer to a group deleted from [groups] finds it there;
    - a runtime panic (index or slice bound out of range) is [Panic] or
      [None];
    - what the collaborators answer (the dial, [CanTakeNewRequest]) is an
      argument of the operation that asks for it, and the calls an operation
      makes are logged as a list of [effect]s. *)

From stdpp Require Import gmap strings list fin_maps.
From Stdlib Require Import ZArith Lia.

Local Open Scope Z_scope.

(** ** Machine integers and slices *)

Definition int_bits : Z := 64.
Definition max_int : Z := 2 ^ (int_bits - 1) - 1.
Definition min_int : Z := - 2 ^ (int_bits - 1).

(** Two's-complement wrap-around of Go's [int] arithmetic. *)
Definition wrap_int (z : Z) : Z :=
  (z + 2 ^ (int_bits - 1)) mod 2 ^ int_bits - 2 ^ (int_bits - 1).

(** [s[i]]: panics unless [0 <= i < len(s)]. *)
Definition go_index {A} (s : list A) (i : Z) : option A :=
  if 0 <=? i then s !! Z.to_nat i else None.

(** [s[i] = x]: panics unless [0 <= i < len(s)]. *)
Definition go_store {A} (s : list A) (i : Z) (x : A) : option (list A) :=
  if (0 <=? i) && (i <? Z.of_nat (length s))
  then Some (<[Z.to_nat i := x]> s) else None.

(** [s[:j]]: panics unless [0 <= j <= len(s)] (the groups' slices are only
    ever cut back, so the capacity never admits more than the length did). *)
Definition go_slice_to {A} (s : list A) (j : Z) : option (list A) :=
  if (0 <=? j) && (j <=? Z.of_nat (length s))
  then Some (take (Z.to_nat j) s) else None.

(** ** Errors, results and effects *)

Abbreviation ClientConn := positive.

(** An [error] value is either one a collaborator returned (the resolver,
    the TLS stack, the protocol engine), or one this package builds with
    [fmt.Errorf]: the format and its arguments. *)
Inductive error :=
| External (e : string)
| Errorf (format : string) (args : list string).

Definition NextProtoTLS : string := "h2".

Definition errUnexpectedALPN (got : string) : error :=
  Errorf "http2: unexpected ALPN protocol %q; want %q" [got; NextProtoTLS].

Definition errNoAvailableConn (addr : string) : error :=
  Errorf "no available connection to %s" [addr].

Inductive result (A : Type) :=
| Ok (a : A)
| Err (e : error)
| Panic.
Arguments Ok {A} a.
Arguments Err {A} e.
Arguments Panic {A}.

#[global] Instance error_eq_dec : EqDecision error.
Proof. solve_decision. Defined.
#[global] Instance result_eq_dec {A} `{EqDecision A} : EqDecision (result A).
Proof. solve_decision. Defined.

(** The value of [dialClientConn(t, ctx, addr)] as its caller sees it. *)
Definition of_dial {A} (d : error + A) : result A :=
  match d with inl e => Err e | inr c => Ok c end.

Inductive effect :=
| EDial (addr : string)          (* a call of the factory dialClientConn *)
| EGo (g : nat)                  (* go g.dialClientConn(req) *)
| EPrint (addr : string) (e : error).   (* fmt.Printf("error dialing ...") *)

#[global] Instance effect_eq_dec : EqDecision effect.
Proof. solve_decision. Defined.

(** ** clientConnGroup *)

Record clientConnGroup := mkGroup {
  g_addr : string;
  g_connIdx : Z;
  g_conns : list ClientConn;
  g_keys : gmap ClientConn Z;
  g_dialing : Z;
}.

Definition len (g : clientConnGroup) : Z := Z.of_nat (length (g_conns g)).

Definition set_connIdx (g : clientConnGroup) (i : Z) : clientConnGroup :=
  mkGroup (g_addr g) i (g_conns g) (g_keys g) (g_dialing g).
Definition set_conns (g : clientConnGroup) (cs : list ClientConn) : clientConnGroup :=
  mkGroup (g_addr g) (g_connIdx g) cs (g_keys g) (g_dialing g).
Definition set_keys (g : clientConnGroup) (ks : gmap ClientConn Z) : clientConnGroup :=
  mkGroup (g_addr g) (g_connIdx g) (g_conns g) ks (g_dialing g).
Definition set_dialing (g : clientConnGroup) (d : Z) : clientConnGroup :=
  mkGroup (g_addr g) (g_connIdx g) (g_conns g) (g_keys g) d.

(** [&clientConnGroup{p: p, addr: addr, keys: make(map[...]int)}] *)
Definition newGroup (addr : string) : clientConnGroup :=
  mkGroup addr 0 [] ∅ 0.

(** [addClientConn]: the group's index map and slice, and the pool's
    connection-to-destination map [g.p.keys]. *)
Definition addClientConn (g : clientConnGroup) (pkeys : gmap ClientConn string)
    (conn : ClientConn) : clientConnGroup * gmap ClientConn string :=
  let keys1 := <[conn := len g]> (g_keys g) in
  let conns1 := g_conns g ++ [conn] in
  (set_conns (set_keys g keys1) conns1, <[conn := g_addr g]> pkeys).

(** [removeClientConn]; [None] is a panic. *)
Definition removeClientConn (g : clientConnGroup) (conn : ClientConn)
    : option clientConnGroup :=
  match g_keys g !! conn with
  | None => Some g
  | Some idx =>
      if idx =? len g - 1 then
        conns1 ← go_slice_to (g_conns g) (len g - 1);
        Some (set_conns g conns1)
      else
        lastConn ← go_index (g_conns g) (len g - 1);
        conns1 ← go_store (g_conns g) idx lastConn;
        conns2 ← go_slice_to conns1 (Z.of_nat (length conns1) - 1);
        Some (set_conns (set_keys g (delete conn (<[lastConn := idx]> (g_keys g)))) conns2)
  end.

(** The selection loop of [getClientConn]:
    [for retry := 0; retry < len(g.conns); retry++], with [todo] iterations
    left; the cursor is returned with the verdict, [None] when the loop ran
    to its end. *)
Fixpoint scan (canTake : ClientConn → bool) (conns : list ClientConn)
    (todo : nat) (connIdx : Z) : Z * option (result ClientConn) :=
  match todo with
  | O => (connIdx, None)
  | S todo' =>
      let connIdx1 := wrap_int (connIdx + 1) in
      match go_index conns (Z.rem connIdx1 (Z.of_nat (length conns))) with
      | None => (connIdx1, Some Panic)
      | Some conn =>
          if canTake conn then (connIdx1, Some (Ok conn))
          else scan canTake conns todo' connIdx1
      end
  end.

(** The condition under which [getClientConn] starts a background dial. *)
Definition wantsMore (maxConnsPerHost : Z) (g : clientConnGroup) : bool :=
  (maxConnsPerHost <=? 0) || (len g <? maxConnsPerHost).

(** [g.getClientConn(req)]. [self] is the receiver's pointer, [dialed] what
    the factory returns if it is called, [canTake] what each connection
    answers to [CanTakeNewRequest] during this call. *)
Definition getClientConn (self : nat) (maxConnsPerHost : Z)
    (dialed : error + ClientConn) (canTake : ClientConn → bool)
    (g : clientConnGroup) (pkeys : gmap ClientConn string)
    : clientConnGroup * gmap ClientConn string * list effect * result ClientConn :=
  if len g =? 0 then
    match dialed with
    | inl err => (g, pkeys, [EDial (g_addr g)], Err err)
    | inr conn =>
        let '(g1, pkeys1) := addClientConn g pkeys conn in
        (g1, pkeys1, [EDial (g_addr g)], Ok conn)
    end
  else
    let effs := if wantsMore maxConnsPerHost g then [EGo self] else [] in
    match scan canTake (g_conns g) (length (g_conns g)) (g_connIdx g) with
    | (connIdx1, Some r) => (set_connIdx g connIdx1, pkeys, effs, r)
    | (connIdx1, None) =>
        (set_connIdx g connIdx1, pkeys, effs, Err (errNoAvailableConn (g_addr g)))
    end.

(** The critical sections of the background dial [g.dialClientConn(req)]. *)

(** [atomic.CompareAndSwapInt32(&g.dialing, 0, 1)]; [None] when it fails. *)
Definition cas_dialing (g : clientConnGroup) : option clientConnGroup :=
  if g_dialing g =? 0 then Some (set_dialing g 1) else None.

(** [len(g.conns) >= g.p.maxConnsPerHost] *)
Definition atCapacity (maxConnsPerHost : Z) (g : clientConnGroup) : bool :=
  maxConnsPerHost <=? len g.

(** [atomic.StoreInt32(&g.dialing, 0)] *)
Definition reset_dialing (g : clientConnGroup) : clientConnGroup :=
  set_dialing g 0.

(** ** clientConnPool *)

(** The pool with the group cells its pointers lead to. [DisableKeepAlives]
    is [p.t.DisableKeepAlives]; both it and [maxConnsPerHost] are set once,
    by [Transport.init]. *)
Record clientConnPool := mkPool {
  DisableKeepAlives : bool;
  maxConnsPerHost : Z;
  groups : gmap string nat;
  keys : gmap ClientConn string;
  heap : list clientConnGroup;
}.

Definition set_groups (p : clientConnPool) (gs : gmap string nat) : clientConnPool :=
  mkPool (DisableKeepAlives p) (maxConnsPerHost p) gs (keys p) (heap p).
Definition set_keys_p (p : clientConnPool) (ks : gmap ClientConn string) : clientConnPool :=
  mkPool (DisableKeepAlives p) (maxConnsPerHost p) (groups p) ks (heap p).
Definition set_heap (p : clientConnPool) (h : list clientConnGroup) : clientConnPool :=
  mkPool (DisableKeepAlives p) (maxConnsPerHost p) (groups p) (keys p) h.

(** The pool [Transport.init] builds. *)
Definition initPool (disableKeepAlives : bool) (maxConns : Z) : clientConnPool :=
  mkPool disableKeepAlives maxConns ∅ ∅ [].

(** [GetClientConn], first critical section: look the group up, or create
    and register it. *)
Definition lookupGroup (addr : string) (p : clientConnPool) : clientConnPool * nat :=
  match groups p !! addr with
  | Some g => (p, g)
  | None =>
      let g := length (heap p) in
      (set_groups (set_heap p (heap p ++ [newGroup addr])) (<[addr := g]> (groups p)), g)
  end.

(** [g.getClientConn(req)] on the cell [g] points to. *)
Definition getClientConn_at (g : nat) (dialed : error + ClientConn)
    (canTake : ClientConn → bool) (p : clientConnPool)
    : clientConnPool * list effect * result ClientConn :=
  match heap p !! g with
  | None => (p, [], Panic)
  | Some cell =>
      let '(cell1, keys1, effs, r) :=
        getClientConn g (maxConnsPerHost p) dialed canTake cell (keys p) in
      (set_keys_p (set_heap p (<[g := cell1]> (heap p))) keys1, effs, r)
  end.

(** [p.GetClientConn(req, addr)] *)
Definition GetClientConn (addr : string) (dialed : error + ClientConn)
    (canTake : ClientConn → bool) (p : clientConnPool)
    : clientConnPool * list effect * result ClientConn :=
  if DisableKeepAlives p then (p, [EDial addr], of_dial dialed)
  else
    let '(p1, g) := lookupGroup addr p in
    getClientConn_at g dialed canTake p1.

(** [MarkDead], first critical section (under the pool's lock): resolve the
    connection to its destination and group, dropping it from [p.keys]. *)
Definition MarkDead_lookup (conn : ClientConn) (p : clientConnPool)
    : clientConnPool * option (string * nat) :=
  match keys p !! conn with
  | None => (p, None)
  | Some addr =>
      let p1 := set_keys_p p (delete conn (keys p)) in
      match groups p1 !! addr with
      | None => (p1, None)
      | Some g => (p1, Some (addr, g))
      end
  end.

(** [MarkDead], second critical section (under the group's lock). *)
Definition MarkDead_remove (conn : ClientConn) (addr : string) (g : nat)
    (p : clientConnPool) : option clientConnPool :=
  cell ← heap p !! g;
  cell1 ← removeClientConn cell conn;
  let p1 := set_heap p (<[g := cell1]> (heap p)) in
  Some (if len cell1 =? 0 then set_groups p1 (delete addr (groups p1)) else p1).

(** [p.MarkDead(conn)]; [None] is a panic. *)
Definition MarkDead (conn : ClientConn) (p : clientConnPool) : option clientConnPool :=
  match MarkDead_lookup conn p with
  | (p1, None) => Some p1
  | (p1, Some (addr, g)) => MarkDead_remove conn addr g p1
  end.

(** The registration step of a dial: [g.addClientConn(conn)] on the cell. *)
Definition addClientConn_at (g : nat) (conn : ClientConn) (p : clientConnPool)
    : clientConnPool :=
  match heap p !! g with
  | None => p
  | Some cell =>
      let '(cell1, keys1) := addClientConn cell (keys p) conn in
      set_keys_p (set_heap p (<[g := cell1]> (heap p))) keys1
  end.

Definition update_cell (g : nat) (f : clientConnGroup → clientConnGroup)
    (p : clientConnPool) : clientConnPool :=
  match heap p !! g with
  | None => p
  | Some cell => set_heap p (<[g := f cell]> (heap p))
  end.

(** The background dial [g.dialClientConn(req)], run from its first line to
    its return without another goroutine in between. The method shares its
    name with the factory; here it is [bg_dialClientConn]. *)
Definition bg_dialClientConn (g : nat) (dialed : error + ClientConn)
    (p : clientConnPool) : clientConnPool * list effect :=
  match heap p !! g with
  | None => (p, [])
  | Some cell =>
      match cas_dialing cell with
      | None => (p, [])
      | Some cell1 =>
          let p1 := set_heap p (<[g := cell1]> (heap p)) in
          if atCapacity (maxConnsPerHost p1) cell1 then
            (update_cell g reset_dialing p1, [])
          else
            match dialed with
            | inl err =>
                (update_cell g reset_dialing p1,
                 [EDial (g_addr cell1); EPrint (g_addr cell1) err])
            | inr conn =>
                (update_cell g reset_dialing (addClientConn_at g conn p1),
                 [EDial (g_addr cell1)])
            end
      end
  end.

(** ** The connection factory *)

(** The fields of [tls.Config] the factory reads or writes. *)
Record tlsConfig := mkTLSConfig {
  NextProtos : list string;
  ServerName : string;
  InsecureSkipVerify : bool;
}.

Fixpoint strSliceContains (ss : list string) (s : string) : bool :=
  match ss with
  | [] => false
  | v :: ss' => if String.eqb v s then true else strSliceContains ss' s
  end.

Section Factory.
(** The collaborators: raw connections, the TLS stack, the resolver and
    the protocol engine. Their errors are opaque values. *)
Variables NetConn TLSConn Context : Type.
Variable tls_as_net : TLSConn → NetConn.
Variable SplitHostPort : string → string + (string * string).
Variable DialContext : tlsConfig → Context → string → string → string + TLSConn.
Variable Handshake : TLSConn → option string.
Variable VerifyHostname : TLSConn → string → option string.
Variable NegotiatedProtocol : TLSConn → string.
Variable NewClientConn : NetConn → string + ClientConn.

(** The fields of [http2.Transport] the factory reads. *)
Record Transport := mkTransport {
  DialTLS : option (string → string → tlsConfig → string + NetConn);
  TLSClientConfig : option tlsConfig;
}.

Definition newTLSConfig (t : Transport) (host : string) : tlsConfig :=
  let cfg :=
    match TLSClientConfig t with
    | Some c => c
    | None => mkTLSConfig [] "" false
    end in
  let cfg1 :=
    if strSliceContains (NextProtos cfg) NextProtoTLS then cfg
    else mkTLSConfig (NextProtoTLS :: NextProtos cfg) (ServerName cfg)
           (InsecureSkipVerify cfg) in
  if String.eqb (ServerName cfg1) "" then
    mkTLSConfig (NextProtos cfg1) host (InsecureSkipVerify cfg1)
  else cfg1.

Definition dialTLSWithContext (ctx : Context) (network addr : string)
    (cfg : tlsConfig) : string + TLSConn :=
  match DialContext cfg ctx network addr with
  | inl err => inl err
  | inr tlsConn =>
      match Handshake tlsConn with
      | Some err => inl err
      | None =>
          if InsecureSkipVerify cfg then inr tlsConn
          else
            match VerifyHostname tlsConn (ServerName cfg) with
            | Some err => inl err
            | None => inr tlsConn
            end
      end
  end.

Definition dialClientConn (t : Transport) (ctx : Context) (addr : string)
    : error + ClientConn :=
  match SplitHostPort addr with
  | inl err => inl (External err)
  | inr (host, _) =>
      match DialTLS t with
      | Some dial =>
          match dial "tcp" addr (newTLSConfig t host) with
          | inl err => inl (External err)
          | inr conn =>
              match NewClientConn conn with
              | inl err => inl (External err)
              | inr cc => inr cc
              end
          end
      | None =>
          match dialTLSWithContext ctx "tcp" addr (newTLSConfig t host) with
          | inl err => inl (External err)
          | inr tlsConn =>
              if negb (String.eqb (NegotiatedProtocol tlsConn) NextProtoTLS) then
                inl (errUnexpectedALPN (NegotiatedProtocol tlsConn))
              else
                match NewClientConn (tls_as_net tlsConn) with
                | inl err => inl (External err)
                | inr cc => inr cc
                end
          end
      end
  end.

End Factory.

Arguments DialTLS {NetConn} t.
Arguments TLSClientConfig {NetConn} t.
Arguments newTLSConfig {NetConn} t host.
Arguments dialTLSWithContext {TLSConn Context} DialContext Handshake VerifyHostname
  ctx network addr cfg.
Arguments dialClientConn {NetConn TLSConn Context} tls_as_net SplitHostPort
  DialContext Handshake VerifyHostname NegotiatedProtocol NewClientConn t ctx addr.

(** ** Goroutines: the interleaved semantics

    A step is one critical section (or one atomic operation) of one
    goroutine. [GetClientConn] is two steps (the registry lookup under the
    pool's lock, then [g.getClientConn] under the group's lock), [MarkDead]
    is two, and the background dial is up to five: the compare-and-swap,
    the capacity re-check, the dial, the registration, and the deferred
    reset of the flag. *)

Inductive bg_pc :=
| BgStart                      (* before the compare-and-swap *)
| BgCheck                      (* flag acquired, before the capacity re-check *)
| BgDial                       (* re-check passed, inside the factory *)
| BgAdd (conn : ClientConn)    (* dial succeeded, before the registration *)
| BgReturn.                    (* returning, the deferred store still to run *)

Inductive thread :=
| TGet (g : nat)
| TMark (conn : ClientConn) (addr : string) (g : nat)
| TBg (g : nat) (pc : bg_pc)
| TDone.

Record system := mkSystem {
  sys_pool : clientConnPool;
  sys_threads : list thread;
}.

(** The goroutines an operation started. *)
Definition spawned (effs : list effect) : list thread :=
  omap (λ e, match e with EGo g => Some (TBg g BgStart) | _ => None end) effs.

(** The group whose [dialing] flag a goroutine holds: it won the
    compare-and-swap and has not yet stored 0. *)
Definition flagHolder (t : thread) : option nat :=
  match t with
  | TBg g BgStart => None
  | TBg g _ => Some g
  | _ => None
  end.

(** The group a goroutine is dialing for, past the capacity re-check. *)
Definition pastCheck (t : thread) : option nat :=
  match t with
  | TBg g BgDial | TBg g (BgAdd _) => Some g
  | _ => None
  end.

Definition isBg (t : thread) : bool :=
  match t with TBg _ _ => true | _ => false end.

(** One step of a background dial on group [g]. *)
Inductive bg_step (g : nat) : clientConnPool → bg_pc → clientConnPool → thread → Prop :=
| bg_cas_win p cell cell1 :
    heap p !! g = Some cell →
    cas_dialing cell = Some cell1 →
    bg_step g p BgStart (set_heap p (<[g := cell1]> (heap p))) (TBg g BgCheck)
| bg_cas_lose p cell :
    heap p !! g = Some cell →
    cas_dialing cell = None →
    bg_step g p BgStart p TDone
| bg_check_full p cell :
    heap p !! g = Some cell →
    atCapacity (maxConnsPerHost p) cell = true →
    bg_step g p BgCheck p (TBg g BgReturn)
| bg_check_room p cell :
    heap p !! g = Some cell →
    atCapacity (maxConnsPerHost p) cell = false →
    bg_step g p BgCheck p (TBg g BgDial)
| bg_dial_err p :
    bg_step g p BgDial p (TBg g BgReturn)
| bg_dial_ok p conn :
    bg_step g p BgDial p (TBg g (BgAdd conn))
| bg_add p conn :
    bg_step g p (BgAdd conn) (addClientConn_at g conn p) (TBg g BgReturn)
| bg_return p :
    bg_step g p BgReturn (update_cell g reset_dialing p) TDone.

Inductive step : system → system → Prop :=
| step_get_bypass p ts :
    DisableKeepAlives p = true →
    step (mkSystem p ts) (mkSystem p ts)
| step_get_enter p ts addr p1 g :
    DisableKeepAlives p = false →
    lookupGroup addr p = (p1, g) →
    step (mkSystem p ts) (mkSystem p1 (ts ++ [TGet g]))
| step_get_run p ts i g dialed canTake p1 effs r :
    ts !! i = Some (TGet g) →
    getClientConn_at g dialed canTake p = (p1, effs, r) →
    step (mkSystem p ts) (mkSystem p1 (<[i := TDone]> ts ++ spawned effs))
| step_mark_enter p ts conn p1 r :
    MarkDead_lookup conn p = (p1, r) →
    step (mkSystem p ts)
      (mkSystem p1
         (ts ++ [match r with Some (addr, g) => TMark conn addr g | None => TDone end]))
| step_mark_run p ts i conn addr g p1 :
    ts !! i = Some (TMark conn addr g) →
    MarkDead_remove conn addr g p = Some p1 →
    step (mkSystem p ts) (mkSystem p1 (<[i := TDone]> ts))
| step_bg p ts i g pc p1 t1 :
    ts !! i = Some (TBg g pc) →
    bg_step g p pc p1 t1 →
    step (mkSystem p ts) (mkSystem p1 (<[i := t1]> ts)).

(** The states the transport can be in: [Transport.init] builds the pool,
    then goroutines take steps. *)
Inductive reachable : system → Prop :=
| reachable_init disableKeepAlives maxConns :
    reachable (mkSystem (initPool disableKeepAlives maxConns) [])
| reachable_step s s' :
    reachable s → step s s' → reachable s'.

(** ** Schedules

    A schedule names, step by step, which goroutine moves and what the
    collaborators answer; [exec] runs one entry, and is a function, so that
    a concrete interleaving can be computed. *)
Inductive action :=
| AGet (addr : string)
| ARun (i : nat) (dialed : error + ClientConn) (canTake : ClientConn → bool)
| AMark (conn : ClientConn)
| ARemove (i : nat)
| ABg (i : nat) (dialed : error + ClientConn).

Definition bg_exec (g : nat) (pc : bg_pc) (dialed : error + ClientConn)
    (p : clientConnPool) : option (clientConnPool * thread) :=
  match pc with
  | BgStart =>
      cell ← heap p !! g;
      match cas_dialing cell with
      | Some cell1 => Some (set_heap p (<[g := cell1]> (heap p)), TBg g BgCheck)
      | None => Some (p, TDone)
      end
  | BgCheck =>
      cell ← heap p !! g;
      Some (p, TBg g (if atCapacity (maxConnsPerHost p) cell then BgReturn else BgDial))
  | BgDial =>
      Some (p, TBg g (match dialed with inl _ => BgReturn | inr conn => BgAdd conn end))
  | BgAdd conn => Some (addClientConn_at g conn p, TBg g BgReturn)
  | BgReturn => Some (update_cell g reset_dialing p, TDone)
  end.

Definition exec (a : action) (s : system) : option system :=
  let p := sys_pool s in
  let ts := sys_threads s in
  match a with
  | AGet addr =>
      if DisableKeepAlives p then Some s
      else let '(p1, g) := lookupGroup addr p in Some (mkSystem p1 (ts ++ [TGet g]))
  | ARun i dialed canTake =>
      match ts !! i with
      | Some (TGet g) =>
          let '(p1, effs, _) := getClientConn_at g dialed canTake p in
          Some (mkSystem p1 (<[i := TDone]> ts ++ spawned effs))
      | _ => None
      end
  | AMark conn =>
      let '(p1, r) := MarkDead_lookup conn p in
      Some (mkSystem p1
              (ts ++ [match r with Some (addr, g) => TMark conn addr g | None => TDone end]))
  | ARemove i =>
      match ts !! i with
      | Some (TMark conn addr g) =>
          p1 ← MarkDead_remove conn addr g p;
          Some (mkSystem p1 (<[i := TDone]> ts))
      | _ => None
      end
  | ABg i dialed =>
      match ts !! i with
      | Some (TBg g pc) =>
          '(p1, t1) ← bg_exec g pc dialed p;
          Some (mkSystem p1 (<[i := t1]> ts))
      | _ => None
      end
  end.

Fixpoint execs (sched : list action) (s : system) : option system :=
  match sched with
  | [] => Some s
  | a :: sched' => s1 ← exec a s; execs sched' s1
  end.

(** ** What the specification states, as predicates *)

(** The index map of a group mirrors its slice: a connection has an entry
    exactly when it is in [conns], and the entry is its position. *)
Definition keys_mirror_conns (g : clientConnGroup) : Prop :=
  ∀ (conn : ClientConn) (i : Z),
    g_keys g !! conn = Some i ↔ go_index (g_conns g) i = Some conn.

(** The pool's [keys] lists exactly the connections held by the groups of
    the registry. *)
Definition keys_match_groups (p : clientConnPool) : Prop :=
  ∀ conn : ClientConn,
    is_Some (keys p !! conn) ↔
    ∃ addr g cell,
      groups p !! addr = Some g ∧ heap p !! g = Some cell ∧ conn ∈ g_conns cell.

(** How often a run of requests returned [conn]. *)
Definition times_returned (conn : ClientConn) (rs : list (result ClientConn)) : Z :=
  Z.of_nat (length (filter (λ r, r = Ok conn) rs)).

(** Successive calls of [g.getClientConn], nothing else touching the group
    in between; [envs] gives, per call, what the factory and the
    connections answer. *)
Fixpoint serve (self : nat) (maxConns : Z)
    (envs : list ((error + ClientConn) * (ClientConn → bool)))
    (g : clientConnGroup) (pkeys : gmap ClientConn string)
    : list (result ClientConn) :=
  match envs with
  | [] => []
  | (dialed, canTake) :: envs' =>
      let '(g1, pkeys1, _, r) := getClientConn self maxConns dialed canTake g pkeys in
      r :: serve self maxConns envs' g1 pkeys1
  end.

(** The cursor stays clear of the end of [int] for [n] more increments. *)
Definition cursor_ok (g : clientConnGroup) (n : Z) : Prop :=
  0 ≤ g_connIdx g ∧ g_connIdx g + n ≤ max_int.

(** ** Invariants *)

(** The half of [keys_mirror_conns] that only looks at the slice: every
    connection of [conns] is recorded, under its position. *)
Definition group_indexed (g : clientConnGroup) : Prop :=
  ∀ (i : nat) (conn : ClientConn),
    g_conns g !! i = Some conn → g_keys g !! conn = Some (Z.of_nat i).

(** A pool whose registry, group cells and [keys] agree. *)
Record pool_wf (p : clientConnPool) : Prop := mkPoolWf {
  wf_group : ∀ addr g,
    groups p !! addr = Some g → ∃ cell, heap p !! g = Some cell ∧ g_addr cell = addr;
  wf_indexed : ∀ addr g cell,
    groups p !! addr = Some g → heap p !! g = Some cell → group_indexed cell;
  wf_member : ∀ addr g cell conn,
    groups p !! addr = Some g → heap p !! g = Some cell → conn ∈ g_conns cell →
    keys p !! conn = Some addr;
  wf_owner : ∀ conn addr,
    keys p !! conn = Some addr →
    ∃ g cell, groups p !! addr = Some g ∧ heap p !! g = Some cell ∧ conn ∈ g_conns cell;
}.

(** What one step does to the group cells: the cap is not touched, and at
    most the cell at [g0] is replaced, by one related to it by [P]. *)
Definition cell_step (g0 : nat) (P : clientConnGroup → clientConnGroup → Prop)
    (p p1 : clientConnPool) : Prop :=
  maxConnsPerHost p1 = maxConnsPerHost p ∧
  (heap p1 = heap p ∨
   ∃ c0 c1, heap p !! g0 = Some c0 ∧ heap p1 = <[g0 := c1]> (heap p) ∧ P c0 c1).

(** Single flight: at most one goroutine per group holds its [dialing]
    flag, and while one does the flag reads 1. *)
Record flight_inv (s : system) : Prop := mkFlightInv {
  inv_single : ∀ i j ti tj g,
    sys_threads s !! i = Some ti → sys_threads s !! j = Some tj →
    flagHolder ti = Some g → flagHolder tj = Some g → i = j;
  inv_flag : ∀ i t g,
    sys_threads s !! i = Some t → flagHolder t = Some g →
    ∃ cell, heap (sys_pool s) !! g = Some cell ∧ g_dialing cell = 1;
}.

(** The cap: with a positive [maxConnsPerHost], no group exceeds it, a
    group with a dial past the re-check is strictly below it, and
    background dials only exist when the cap is at least 2. *)
Record cap_inv (s : system) : Prop := mkCapInv {
  inv_trigger : ∀ i t,
    sys_threads s !! i = Some t → isBg t = true →
    0 < maxConnsPerHost (sys_pool s) → 2 ≤ maxConnsPerHost (sys_pool s);
  inv_cap : ∀ g cell,
    heap (sys_pool s) !! g = Some cell →
    0 < maxConnsPerHost (sys_pool s) → len cell ≤ maxConnsPerHost (sys_pool s);
  inv_room : ∀ i t g cell,
    sys_threads s !! i = Some t → pastCheck t = Some g →
    heap (sys_pool s) !! g = Some cell →
    0 < maxConnsPerHost (sys_pool s) → len cell < maxConnsPerHost (sys_pool s);
}.

(** The group a goroutine holds a pointer to. *)
Definition threadGroup (t : thread) : option nat :=
  match t with
  | TGet g | TMark _ _ g | TBg g _ => Some g
  | TDone => None
  end.

(** * Properties *)

(** ** Integers and slices *)

Lemma wrap_int_id z : min_int ≤ z ≤ max_int → wrap_int z = z.
Proof.
  unfold wrap_int, min_int, max_int, int_bits. intros H.
  rewrite Z.mod_small; lia.
Qed.

Lemma go_index_lookup {A} (s : list A) (i : nat) :
  go_index s (Z.of_nat i) = s !! i.
Proof. unfold go_index. rewrite Nat2Z.id. by destruct (Z.leb_spec 0 (Z.of_nat i)); [|lia]. Qed.

Lemma go_index_Some {A} (s : list A) (i : Z) (x : A) :
  go_index s i = Some x ↔ 0 ≤ i ∧ s !! Z.to_nat i = Some x.
Proof.
  unfold go_index. destruct (Z.leb_spec 0 i).
  - split; [by intros ?|by intros [_ ?]].
  - split; [done|intros [? _]; lia].
Qed.

(** ** removeClientConn and the index map (C10) *)

(** C10 (the code departs from it). Retiring the connection that is last in
    the slice takes the first branch of [removeClientConn], which cuts the
    slice and returns: the index map is not touched, so the retired
    connection keeps its entry although it is no longer in [conns]. *)
Theorem removeClientConn_last_keeps_entry (g : clientConnGroup) (conn : ClientConn) :
  0 < len g →
  g_keys g !! conn = Some (len g - 1) →
  ∃ g1, removeClientConn g conn = Some g1 ∧
        g_conns g1 = take (length (g_conns g) - 1) (g_conns g) ∧
        g_keys g1 = g_keys g ∧
        g_keys g1 !! conn = Some (len g - 1) ∧
        go_index (g_conns g1) (len g - 1) = None ∧
        ¬ keys_mirror_conns g1.
Proof.
  intros Hlen Hk. unfold removeClientConn. rewrite Hk, Z.eqb_refl.
  unfold go_slice_to. fold (len g).
  destruct (Z.leb_spec 0 (len g - 1)); [|lia].
  destruct (Z.leb_spec (len g - 1) (len g)); [|lia]. simpl.
  eexists; split; [done|]. simpl.
  assert (Hcut : Z.to_nat (len g - 1) = (length (g_conns g) - 1)%nat)
    by (unfold len; lia).
  assert (Hgone : go_index (take (Z.to_nat (len g - 1)) (g_conns g)) (len g - 1) = None).
  { unfold go_index. destruct (0 <=? len g - 1); [|done].
    apply lookup_ge_None. rewrite length_take. lia. }
  split_and!; [by rewrite Hcut|done|done|done|].
  intros Hmirror. apply (Hmirror conn (len g - 1)) in Hk. simpl in Hk. congruence.
Qed.

(** One connection registered in a new group, then retired: the slice is
    empty, the index map still maps the connection to 0, and so the map does
    not mirror the slice. *)
Lemma removeClientConn_last_keeps_entry_witness :
  ∃ g1,
    removeClientConn (addClientConn (newGroup "h:443") ∅ 1%positive).1 1%positive = Some g1 ∧
    g_conns g1 = [] ∧
    g_keys g1 !! 1%positive = Some 0 ∧
    ¬ keys_mirror_conns g1.
Proof.
  destruct (removeClientConn_last_keeps_entry
              (addClientConn (newGroup "h:443") ∅ 1%positive).1 1%positive)
    as (g1 & Hr & Hc & _ & Hl & _ & Hm); [reflexivity|reflexivity|].
  exists g1. split_and!; [exact Hr|exact Hc|exact Hl|exact Hm].
Defined.

(** ** The selection loop *)

Section Scan.
Variable canTake : ClientConn → bool.
Variable conns : list ClientConn.
Hypothesis conns_nonempty : conns ≠ [].

Let n : Z := Z.of_nat (length conns).

Lemma scan_n_pos : 0 < n.
Proof. subst n. destruct conns; [done|simpl; lia]. Qed.

(** The candidate at cursor value [i]. *)
Lemma candidate_exists (i : Z) :
  0 ≤ i → ∃ conn, go_index conns (Z.rem i n) = Some conn ∧ conn ∈ conns.
Proof.
  intros Hi. pose proof scan_n_pos as Hn.
  rewrite Z.rem_mod_nonneg by lia.
  pose proof (Z.mod_pos_bound i n Hn) as Hb.
  destruct (lookup_lt_is_Some_2 conns (Z.to_nat (i mod n))) as [conn Hc].
  { subst n. lia. }
  exists conn. split; [apply go_index_Some; split; [lia|done]|].
  by eapply list_elem_of_lookup_2.
Qed.

(** What the loop returns: either it ran out, having advanced the cursor
    [todo] times past refusing candidates, or it stopped at the first
    candidate that accepts. It does not panic while the cursor stays in
    range. *)
Lemma scan_spec (todo : nat) (connIdx : Z) :
  0 ≤ connIdx → connIdx + Z.of_nat todo ≤ max_int →
  match scan canTake conns todo connIdx with
  | (connIdx1, None) =>
      connIdx1 = connIdx + Z.of_nat todo ∧
      ∀ k conn, 1 ≤ k ≤ Z.of_nat todo →
        go_index conns (Z.rem (connIdx + k) n) = Some conn → canTake conn = false
  | (connIdx1, Some r) =>
      ∃ k conn, 1 ≤ k ≤ Z.of_nat todo ∧ connIdx1 = connIdx + k ∧
        go_index conns (Z.rem (connIdx + k) n) = Some conn ∧
        canTake conn = true ∧ r = Ok conn ∧
        ∀ j conn', 1 ≤ j < k →
          go_index conns (Z.rem (connIdx + j) n) = Some conn' → canTake conn' = false
  end.
Proof.
  revert connIdx. induction todo as [|todo IH]; intros connIdx H0 Hmax.
  { simpl. split; [lia|]. intros; lia. }
  cbn [scan]. fold n.
  rewrite wrap_int_id by (unfold min_int, max_int, int_bits in *; lia).
  destruct (candidate_exists (connIdx + 1)) as (conn & Hc & _); [lia|].
  rewrite Hc. destruct (canTake conn) eqn:Hq.
  { exists 1, conn. split_and!; try done; [lia|]. intros; lia. }
  specialize (IH (connIdx + 1)).
  destruct (scan canTake conns todo (connIdx + 1)) as [ci [r|]].
  - destruct IH as (k & conn' & Hk & -> & Hc' & Hq' & -> & Hbefore); [lia|lia|].
    exists (1 + k), conn'. rewrite Z.add_assoc. split_and!; try done; [lia|lia|].
    intros j c Hj Hcj. destruct (decide (j = 1)) as [->|Hne].
    + rewrite Hc in Hcj. by injection Hcj as <-.
    + apply (Hbefore (j - 1) c); [lia|].
      by replace (connIdx + 1 + (j - 1)) with (connIdx + j) by lia.
  - destruct IH as [-> Hall]; [lia|lia|]. split; [lia|].
    intros k c Hk Hck. destruct (decide (k = 1)) as [->|Hne].
    + rewrite Hc in Hck. by injection Hck as <-.
    + apply (Hall (k - 1) c); [lia|].
      by replace (connIdx + 1 + (k - 1)) with (connIdx + k) by lia.
Qed.

(** A full round of [len(conns)] increments passes every position. *)
Lemma round_covers (connIdx : Z) (conn : ClientConn) :
  0 ≤ connIdx → conn ∈ conns →
  ∃ k, 1 ≤ k ≤ n ∧ go_index conns (Z.rem (connIdx + k) n) = Some conn.
Proof.
  intros H0 Hin. pose proof scan_n_pos as Hn.
  apply list_elem_of_lookup_1 in Hin as [i Hi].
  pose proof (lookup_lt_Some _ _ _ Hi) as Hlt.
  exists ((Z.of_nat i - connIdx - 1) mod n + 1).
  pose proof (Z.mod_pos_bound (Z.of_nat i - connIdx - 1) n Hn) as Hb.
  split; [lia|].
  rewrite Z.rem_mod_nonneg by lia.
  replace (connIdx + ((Z.of_nat i - connIdx - 1) mod n + 1))
    with ((Z.of_nat i - connIdx - 1) mod n + (connIdx + 1)) by lia.
  rewrite Zplus_mod_idemp_l.
  replace (Z.of_nat i - connIdx - 1 + (connIdx + 1)) with (Z.of_nat i) by lia.
  rewrite Z.mod_small by (subst n; lia).
  by rewrite go_index_lookup.
Qed.

End Scan.

(** X22. For a group with at least one connection whose cursor is at least
    [len(conns)] increments below the largest [int], [getClientConn]
    returns an error exactly when every connection of the group refuses a
    new request; the error is [fmt.Errorf] of the format
    "no available connection to %s" with the group's destination; it does
    not panic, the factory is not called, and the connection list (with the
    index map and the pool's [keys]) is left as it was. *)
Theorem getClientConn_exhaustion (self : nat) (maxConns : Z)
    (dialed : error + ClientConn) (canTake : ClientConn → bool)
    (g g1 : clientConnGroup) (pkeys pkeys1 : gmap ClientConn string)
    (effs : list effect) (r : result ClientConn) :
  g_conns g ≠ [] →
  cursor_ok g (len g) →
  getClientConn self maxConns dialed canTake g pkeys = (g1, pkeys1, effs, r) →
  ((∃ e, r = Err e) ↔ ∀ conn, conn ∈ g_conns g → canTake conn = false) ∧
  (∀ e, r = Err e → e = Errorf "no available connection to %s" [g_addr g]) ∧
  r ≠ Panic ∧
  (∀ addr, EDial addr ∉ effs) ∧
  g_conns g1 = g_conns g ∧ g_keys g1 = g_keys g ∧ pkeys1 = pkeys.
Proof.
  intros Hne [H0 Hmax] Hget. unfold getClientConn in Hget.
  assert (Hlen : (len g =? 0) = false).
  { apply Z.eqb_neq. unfold len. destruct (g_conns g); [done|simpl; lia]. }
  rewrite Hlen in Hget.
  pose proof (scan_spec canTake (g_conns g) Hne (length (g_conns g)) (g_connIdx g) H0 Hmax)
    as Hscan.
  assert (Heffs : ∀ addr, EDial addr ∉
            (if wantsMore maxConns g then [EGo self] else [])).
  { intros addr. destruct (wantsMore maxConns g);
      [by intros ?%list_elem_of_singleton|apply not_elem_of_nil]. }
  destruct (scan canTake (g_conns g) (length (g_conns g)) (g_connIdx g)) as [ci [r'|]].
  - destruct Hscan as (k & conn & Hk & -> & Hc & Hq & -> & _).
    injection Hget as <- <- <- <-.
    split_and!; try done.
    split; [by intros [e ?]|].
    intros Hall. apply go_index_Some in Hc as [_ Hc].
    apply list_elem_of_lookup_2 in Hc. rewrite (Hall _ Hc) in Hq. done.
  - destruct Hscan as [-> Hall]. injection Hget as <- <- <- <-.
    split_and!; try done.
    + split; [|by eexists]. intros _ conn Hin.
      destruct (round_covers (g_conns g) Hne (g_connIdx g) conn H0 Hin) as (k & Hk & Hc).
      by apply (Hall k conn).
    + by intros e [= <-].
Qed.

Lemma getClientConn_exhaustion_witness :
  let g := mkGroup "h:443" 7 [1%positive; 2%positive] {[1%positive := 0; 2%positive := 1]} 0 in
  getClientConn 0 0 (inr 3%positive) (λ _, false) g ∅
    = (set_connIdx g 9, ∅, [EGo 0%nat],
       Err (Errorf "no available connection to %s" ["h:443"])) ∧
  ((∃ e, Err (A := ClientConn) (Errorf "no available connection to %s" ["h:443"]) = Err e) ↔
   ∀ conn : ClientConn, conn ∈ [1%positive; 2%positive] → (λ _, false) conn = false).
Proof.
  intros g. split; [reflexivity|].
  refine (proj1 (getClientConn_exhaustion 0 0 (inr 3%positive) (λ _, false) g
                   (set_connIdx g 9) ∅ ∅ [EGo 0%nat] _ _ _ _)).
  - discriminate.
  - split; [done|]. vm_compute. discriminate.
  - reflexivity.
Defined.

(** What [cursor_ok] leaves out: at the largest [int] the increment wraps to
    the smallest, whose remainder by 3 is negative, and indexing panics. *)
Example getClientConn_cursor_wraps :
  (getClientConn 0 0 (inr 9%positive) (λ _, true)
     (mkGroup "h:443" max_int [1%positive; 2%positive; 3%positive]
        {[1%positive := 0; 2%positive := 1; 3%positive := 2]} 0) ∅).2 = Panic.
Proof. reflexivity. Qed.

(** One call on a group whose candidates all accept: the cursor moves by
    one and the connection under it is returned. *)
Lemma getClientConn_next (self : nat) (maxConns : Z) (dialed : error + ClientConn)
    (canTake : ClientConn → bool) (g : clientConnGroup) (pkeys : gmap ClientConn string) :
  g_conns g ≠ [] →
  cursor_ok g 1 →
  (∀ conn, conn ∈ g_conns g → canTake conn = true) →
  ∃ conn effs,
    getClientConn self maxConns dialed canTake g pkeys
      = (set_connIdx g (g_connIdx g + 1), pkeys, effs, Ok conn) ∧
    go_index (g_conns g) (Z.rem (g_connIdx g + 1) (len g)) = Some conn.
Proof.
  intros Hne [H0 Hmax] Hall. unfold getClientConn.
  assert (Hlen : (len g =? 0) = false).
  { apply Z.eqb_neq. unfold len. destruct (g_conns g); [done|simpl; lia]. }
  rewrite Hlen.
  destruct (candidate_exists (g_conns g) Hne (g_connIdx g + 1)) as (conn & Hc & Hin); [lia|].
  exists conn. eexists.
  destruct (length (g_conns g)) as [|m] eqn:Hm.
  { destruct (g_conns g); done. }
  cbn [scan]. rewrite Hm.
  rewrite wrap_int_id by (unfold min_int, max_int, int_bits in *; lia).
  unfold len. rewrite Hm in *. rewrite Hc, (Hall _ Hin). done.
Qed.

(** How many of [m] consecutive cursor values, starting after one that is
    [a] past position [j], land on [j]. *)
Lemma residue_count (n m a : Z) :
  0 < n → 0 ≤ m → 0 ≤ a < n →
  (m + 1 + a) / n = (if decide ((a + 1) mod n = 0) then 1 else 0) + (m + (a + 1) mod n) / n.
Proof.
  intros Hn Hm Ha. destruct (decide (a = n - 1)) as [->|Hne].
  - replace (n - 1 + 1) with n by lia. rewrite Z.mod_same by lia.
    rewrite decide_True by done.
    replace (m + 1 + (n - 1)) with (m + 1 * n) by lia.
    rewrite Z.div_add by lia. rewrite Z.add_0_r. lia.
  - rewrite Z.mod_small by lia. rewrite decide_False by lia.
    rewrite Z.add_0_l. f_equal. lia.
Qed.

Lemma serve_take (self : nat) (maxConns : Z) (k : nat)
    (envs : list ((error + ClientConn) * (ClientConn → bool)))
    (g : clientConnGroup) (pkeys : gmap ClientConn string) :
  take k (serve self maxConns envs g pkeys) = serve self maxConns (take k envs) g pkeys.
Proof.
  revert k g pkeys. induction envs as [|[dialed canTake] envs IH]; intros k g pkeys.
  { by destruct k. }
  destruct k as [|k]; [done|]. simpl.
  destruct (getClientConn self maxConns dialed canTake g pkeys) as [[[g1 pk1] effs] r].
  simpl. by rewrite IH.
Qed.

(** The exact count: with the cursor [a] past position [j] (modulo the
    number of connections), [m] calls return the connection at [j]
    [(m + a) / n] times. *)
Lemma serve_count (self : nat) (maxConns : Z)
    (envs : list ((error + ClientConn) * (ClientConn → bool)))
    (g : clientConnGroup) (pkeys : gmap ClientConn string) (j : nat) (conn : ClientConn) :
  NoDup (g_conns g) →
  cursor_ok g (Z.of_nat (length envs)) →
  (∀ env c, env ∈ envs → c ∈ g_conns g → env.2 c = true) →
  g_conns g !! j = Some conn →
  length (serve self maxConns envs g pkeys) = length envs ∧
  (∀ r, r ∈ serve self maxConns envs g pkeys → ∃ c, r = Ok c ∧ c ∈ g_conns g) ∧
  times_returned conn (serve self maxConns envs g pkeys)
    = (Z.of_nat (length envs) + (g_connIdx g - Z.of_nat j) mod len g) / len g.
Proof.
  intros Hnd Hcur Hall Hj.
  assert (Hne : g_conns g ≠ []) by (intros E; by rewrite E in Hj).
  pose proof (scan_n_pos (g_conns g) Hne) as Hn. fold (len g) in Hn.
  pose proof (lookup_lt_Some _ _ _ Hj) as Hjlt.
  revert g pkeys Hnd Hcur Hall Hj Hne Hn Hjlt.
  induction envs as [|[dialed canTake] envs IH]; intros g pkeys Hnd [H0 Hmax] Hall Hj Hne Hn Hjlt.
  { simpl. split_and!; [done|by intros r ?%not_elem_of_nil|].
    unfold times_returned. simpl. rewrite Z.div_small; [done|].
    apply Z.mod_pos_bound. lia. }
  simpl length in *. cbn [serve].
  destruct (getClientConn_next self maxConns dialed canTake g pkeys Hne) as (c & effs & -> & Hc).
  { split; [done|lia]. }
  { intros c Hin. apply (Hall (dialed, canTake)); [left|done]. }
  destruct (IH (set_connIdx g (g_connIdx g + 1)) pkeys) as (IHlen & IHok & IHcount);
    try done.
  { unfold cursor_ok. simpl. lia. }
  { intros env c' Hin. apply Hall. by right. }
  change (len (set_connIdx g (g_connIdx g + 1))) with (len g) in IHcount.
  cbn [g_connIdx set_connIdx] in IHcount.
  apply go_index_Some in Hc as [Hc0 Hc].
  rewrite Z.rem_mod_nonneg in Hc by lia.
  split_and!.
  - simpl. by rewrite IHlen.
  - intros r [->|Hin]%elem_of_cons; [|by apply IHok].
    exists c. split; [done|]. by eapply list_elem_of_lookup_2.
  - set (a := (g_connIdx g - Z.of_nat j) mod len g).
    assert (Ha : 0 ≤ a < len g) by (apply Z.mod_pos_bound; lia).
    assert (Hnext : (g_connIdx g + 1 - Z.of_nat j) mod len g = (a + 1) mod len g).
    { subst a. rewrite Zplus_mod_idemp_l. f_equal. lia. }
    rewrite Hnext in IHcount.
    replace (Z.of_nat (S (length envs))) with (Z.of_nat (length envs) + 1) by lia.
    rewrite residue_count by lia. rewrite <- IHcount.
    unfold times_returned. rewrite filter_cons.
    assert (Hiff : c = conn ↔ (a + 1) mod len g = 0).
    { rewrite <- Hnext.
      pose proof (Z.mod_pos_bound (g_connIdx g + 1) (len g) Hn) as Hb.
      split.
      - intros ->.
        pose proof (NoDup_lookup _ _ _ _ Hnd Hc Hj) as Hpos.
        apply Z.mod_divide; [lia|].
        replace (g_connIdx g + 1 - Z.of_nat j)
          with (g_connIdx g + 1 - (g_connIdx g + 1) mod len g) by lia.
        exists ((g_connIdx g + 1) / len g).
        pose proof (Z.div_mod (g_connIdx g + 1) (len g)). lia.
      - intros Hz. apply Z.mod_divide in Hz as [q Hq]; [|lia].
        assert (Hpos : (g_connIdx g + 1) mod len g = Z.of_nat j).
        { replace (g_connIdx g + 1) with (Z.of_nat j + q * len g) by lia.
          rewrite Z.mod_add by lia. apply Z.mod_small. unfold len. lia. }
        rewrite Hpos, Nat2Z.id in Hc. congruence. }
    destruct (decide ((a + 1) mod len g = 0)) as [Hz|Hnz].
    + rewrite decide_True by (f_equal; by apply Hiff). simpl length. lia.
    + rewrite decide_False; [lia|]. intros [= E]. by apply Hnz, Hiff.
Qed.

(** X21. A group of N distinct connections that all accept, served M calls
    in a row with nothing else touching the group, the cursor being at
    least M increments below the largest [int]: every call returns a
    connection of the group, every connection is returned at least
    floor(M/N) and at most ceil(M/N) times, and the same holds after each k
    of the M calls, so that no connection is returned ceil(M/N)+1 times at
    any point of the run. *)
Theorem round_robin_balanced (self : nat) (maxConns : Z)
    (envs : list ((error + ClientConn) * (ClientConn → bool)))
    (g : clientConnGroup) (pkeys : gmap ClientConn string) :
  g_conns g ≠ [] →
  NoDup (g_conns g) →
  cursor_ok g (Z.of_nat (length envs)) →
  (∀ env conn, env ∈ envs → conn ∈ g_conns g → env.2 conn = true) →
  length (serve self maxConns envs g pkeys) = length envs ∧
  (∀ r, r ∈ serve self maxConns envs g pkeys → ∃ conn, r = Ok conn ∧ conn ∈ g_conns g) ∧
  (∀ conn, conn ∈ g_conns g →
     Z.of_nat (length envs) / len g
       ≤ times_returned conn (serve self maxConns envs g pkeys)
       ≤ (Z.of_nat (length envs) + len g - 1) / len g) ∧
  (∀ (k : nat) conn, (k ≤ length envs)%nat → conn ∈ g_conns g →
     Z.of_nat k / len g
       ≤ times_returned conn (take k (serve self maxConns envs g pkeys))
       ≤ (Z.of_nat k + len g - 1) / len g
     ∧ (Z.of_nat k + len g - 1) / len g ≤ (Z.of_nat (length envs) + len g - 1) / len g).
Proof.
  intros Hne Hnd Hcur Hall.
  pose proof (scan_n_pos (g_conns g) Hne) as Hn. fold (len g) in Hn.
  assert (Hprefix : ∀ (k : nat) conn, (k ≤ length envs)%nat → conn ∈ g_conns g →
     Z.of_nat k / len g
       ≤ times_returned conn (take k (serve self maxConns envs g pkeys))
       ≤ (Z.of_nat k + len g - 1) / len g).
  { intros k conn Hk [j Hj]%list_elem_of_lookup_1. rewrite serve_take.
    destruct (serve_count self maxConns (take k envs) g pkeys j conn) as (_ & _ & ->);
      try done.
    - destruct Hcur as [H0 Hmax]. split; [done|]. rewrite length_take. lia.
    - intros env c (i & Hi & _)%elem_of_take. apply Hall.
      by eapply list_elem_of_lookup_2.
    - rewrite length_take, Nat.min_l by done.
      pose proof (Z.mod_pos_bound (g_connIdx g - Z.of_nat j) (len g) Hn).
      split; apply Z.div_le_mono; lia. }
  split_and!.
  - destruct (g_conns g) as [|c0 cs] eqn:E; [done|].
    destruct (serve_count self maxConns envs g pkeys 0%nat c0) as (Hl & _ & _);
      try done; by rewrite E.
  - destruct (g_conns g) as [|c0 cs] eqn:E; [done|].
    destruct (serve_count self maxConns envs g pkeys 0%nat c0) as (_ & Hok & _);
      try done; try by rewrite E.
    by rewrite E in Hok.
  - intros conn Hin.
    pose proof (Hprefix (length envs) conn (le_n _) Hin) as Hp.
    rewrite serve_take, firstn_all in Hp. done.
  - intros k conn Hk Hin. split; [by apply Hprefix|].
    apply Z.div_le_mono; lia.
Qed.

Lemma round_robin_balanced_witness :
  let g := mkGroup "h:443" 4 [1%positive; 2%positive; 3%positive]
             {[1%positive := 0; 2%positive := 1; 3%positive := 2]} 0 in
  let envs := replicate 7 (inl (External "unused"), λ _ : ClientConn, true) in
  serve 0 10 envs g ∅
    = [Ok 3%positive; Ok 1%positive; Ok 2%positive; Ok 3%positive;
       Ok 1%positive; Ok 2%positive; Ok 3%positive] ∧
  ∀ conn, conn ∈ [1%positive; 2%positive; 3%positive] →
    2 ≤ times_returned conn (serve 0 10 envs g ∅) ≤ 3.
Proof.
  intros g envs. split; [reflexivity|].
  refine (proj1 (proj2 (proj2 (round_robin_balanced 0 10 envs g ∅ _ _ _ _)))).
  - discriminate.
  - compute_done.
  - split; [done|]. vm_compute. discriminate.
  - intros env conn [-> _]%elem_of_replicate _. reflexivity.
Defined.

(** ** The connection factory (C8) *)

Section FactoryProperties.
Context {NetConn TLSConn Context : Type}.
Variable tls_as_net : TLSConn → NetConn.
Variable SplitHostPort : string → string + (string * string).
Variable DialContext : tlsConfig → Context → string → string → string + TLSConn.
Variable Handshake : TLSConn → option string.
Variable VerifyHostname : TLSConn → string → option string.
Variable NegotiatedProtocol : TLSConn → string.
Variable NewClientConn : NetConn → string + ClientConn.

Local Abbreviation factory :=
  (dialClientConn tls_as_net SplitHostPort DialContext Handshake VerifyHostname
     NegotiatedProtocol NewClientConn).
Local Abbreviation tlsDial := (dialTLSWithContext DialContext Handshake VerifyHostname).

(** C8. The factory returns the ALPN negotiation error exactly when no
    custom dial function is configured and the connection its own TLS dial
    produced negotiated a protocol other than "h2". With a custom dial
    function the result is that function's connection handed to the protocol
    engine, whatever was negotiated on it, and never the negotiation
    error. *)
Theorem dialClientConn_ALPN_error (t : Transport NetConn) (ctx : Context) (addr : string) :
  (∀ got : string,
     factory t ctx addr = inl (errUnexpectedALPN got) ↔
     DialTLS t = None ∧
     ∃ host port tlsConn,
       SplitHostPort addr = inr (host, port) ∧
       tlsDial ctx "tcp" addr (newTLSConfig t host) = inr tlsConn ∧
       NegotiatedProtocol tlsConn = got ∧ got ≠ NextProtoTLS) ∧
  (∀ dial, DialTLS t = Some dial →
     (∀ got, factory t ctx addr ≠ inl (errUnexpectedALPN got)) ∧
     factory t ctx addr =
       match SplitHostPort addr with
       | inl err => inl (External err)
       | inr (host, _) =>
           match dial "tcp" addr (newTLSConfig t host) with
           | inl err => inl (External err)
           | inr conn =>
               match NewClientConn conn with
               | inl err => inl (External err)
               | inr cc => inr cc
               end
           end
       end).
Proof.
  split.
  - intros got. unfold dialClientConn. split.
    + destruct (SplitHostPort addr) as [e|[host port]] eqn:Hs; [discriminate|].
      destruct (DialTLS t) as [dial|] eqn:Hd.
      { destruct (dial _ _ _) as [e|conn]; [discriminate|].
        destruct (NewClientConn conn); discriminate. }
      destruct (dialTLSWithContext _ _ _ _ _ _ _) as [e|tc] eqn:Ht; [discriminate|].
      destruct (String.eqb (NegotiatedProtocol tc) NextProtoTLS) eqn:Hp; simpl.
      { destruct (NewClientConn _); discriminate. }
      intros [= Hgot]. split; [done|].
      exists host, port, tc. split_and!; try done.
      intros ->. apply String.eqb_neq in Hp. congruence.
    + intros (Hd & host & port & tc & Hs & Ht & Hgot & Hne).
      rewrite Hs, Hd, Ht.
      apply String.eqb_neq in Hne. rewrite <- Hgot in Hne. rewrite Hne. simpl.
      by rewrite Hgot.
  - intros dial Hd. unfold dialClientConn. rewrite Hd. split; [|done].
    intros got. destruct (SplitHostPort addr) as [e|[host port]]; [discriminate|].
    destruct (dial _ _ _) as [e|conn]; [discriminate|].
    destruct (NewClientConn conn); discriminate.
Qed.

End FactoryProperties.

(** The factory against a peer that negotiates "http/1.1": its own TLS dial
    fails with the negotiation error, a custom dial function reaching the
    same peer is handed on unchecked. *)
Lemma dialClientConn_ALPN_error_witness :
  let split := λ addr : string, inr (A := string) ("h", "443") in
  let dialContext :=
    λ (_ : tlsConfig) (_ : unit) (_ _ : string), inr (A := string) "http/1.1" in
  let engine := λ _ : string, inr (A := string) 7%positive in
  let own := mkTransport string None None in
  let custom := mkTransport string (Some (λ _ _ _, inr "http/1.1")) None in
  dialClientConn id split dialContext (λ _, None) (λ _ _, None) id engine own tt "h:443"
    = inl (errUnexpectedALPN "http/1.1") ∧
  dialClientConn id split dialContext (λ _, None) (λ _ _, None) id engine custom tt "h:443"
    = inr 7%positive.
Proof.
  intros split dialContext engine own custom. split.
  - apply (proj1 (dialClientConn_ALPN_error id split dialContext (λ _, None) (λ _ _, None)
                    id engine own tt "h:443")).
    split; [reflexivity|]. exists "h", "443", "http/1.1". split_and!; try reflexivity.
    discriminate.
  - reflexivity.
Defined.

(** ** The background dial run on its own (C2) *)

Lemma set_dialing_same g : g_dialing g = 0 → reset_dialing (set_dialing g 1) = g.
Proof. destruct g; simpl; intros ->; done. Qed.

(** C2 (the code departs from it). With no positive cap configured the
    re-check [len(g.conns) >= g.p.maxConnsPerHost] holds for every group, so
    a background dial that won the flag stops there: the factory is not
    called, nothing is registered, and the pool is as it was. *)
Theorem bg_dialClientConn_no_cap_aborts (p : clientConnPool) (g : nat)
    (cell : clientConnGroup) (dialed : error + ClientConn) :
  heap p !! g = Some cell →
  g_conns cell ≠ [] →
  g_dialing cell = 0 →
  maxConnsPerHost p ≤ 0 →
  wantsMore (maxConnsPerHost p) cell = true ∧
  atCapacity (maxConnsPerHost p) cell = true ∧
  bg_dialClientConn g dialed p = (p, []).
Proof.
  intros Hg Hne Hd Hmax.
  assert (Hcap : atCapacity (maxConnsPerHost p) cell = true).
  { unfold atCapacity, len. apply Z.leb_le. lia. }
  split; [|split; [done|]].
  { unfold wantsMore. apply orb_true_iff. left. by apply Z.leb_le. }
  unfold bg_dialClientConn, cas_dialing. rewrite Hg, Hd. simpl.
  change (atCapacity (maxConnsPerHost p) (set_dialing cell 1)) with
    (atCapacity (maxConnsPerHost p) cell). rewrite Hcap.
  unfold update_cell. simpl.
  rewrite list_lookup_insert_eq by (by eapply lookup_lt_Some).
  simpl. rewrite list_insert_insert_eq, set_dialing_same by done.
  rewrite (list_insert_id (heap p) g cell) by done. by destruct p.
Qed.

(** A transport with [MaxConnsPerHost] 0 ("no limit") and one live
    connection: the background dial that a request starts registers nothing,
    although the dial would have succeeded. *)
Lemma bg_dialClientConn_no_cap_aborts_witness :
  let p := (GetClientConn "h:443" (inr 1%positive) (λ _, true) (initPool false 0)).1.1 in
  (GetClientConn "h:443" (inr 1%positive) (λ _, true) p).1.2 = [EGo 0%nat] ∧
  bg_dialClientConn 0 (inr 2%positive) p = (p, []).
Proof.
  split; [reflexivity|].
  eapply (bg_dialClientConn_no_cap_aborts _ 0%nat).
  - vm_compute. reflexivity.
  - discriminate.
  - reflexivity.
  - vm_compute. discriminate.
Defined.

(** ** MarkDead (C4, C5) *)

Lemma MarkDead_remove_keys conn addr g p p1 :
  MarkDead_remove conn addr g p = Some p1 → keys p1 = keys p.
Proof.
  unfold MarkDead_remove. intros H.
  destruct (heap p !! g) as [cell|]; [|done]. simpl in H.
  destruct (removeClientConn cell conn) as [cell1|]; [|done]. simpl in H.
  injection H as <-. by destruct (len cell1 =? 0).
Qed.

Lemma MarkDead_forgets conn p p1 :
  MarkDead conn p = Some p1 → keys p1 !! conn = None.
Proof.
  unfold MarkDead, MarkDead_lookup. destruct (keys p !! conn) as [addr|] eqn:Hk.
  - simpl. destruct (groups p !! addr) as [g|].
    + intros H. apply MarkDead_remove_keys in H. rewrite H. simpl.
      apply lookup_delete_eq.
    + intros [= <-]. simpl. apply lookup_delete_eq.
  - by intros [= <-].
Qed.

(** C4. Once [MarkDead(conn)] has returned, calling it again returns the
    pool it was given: [keys], [groups] and every group are unchanged, and
    the second call cannot panic. *)
Theorem MarkDead_idempotent (conn : ClientConn) (p p1 : clientConnPool) :
  MarkDead conn p = Some p1 →
  MarkDead conn p1 = Some p1.
Proof.
  intros H. apply MarkDead_forgets in H.
  unfold MarkDead, MarkDead_lookup. by rewrite H.
Qed.

Lemma MarkDead_idempotent_witness :
  let p := (GetClientConn "h:443" (inr 1%positive) (λ _, true) (initPool false 2)).1.1 in
  ∃ p1, MarkDead 1%positive p = Some p1 ∧ p1 ≠ p ∧ MarkDead 1%positive p1 = Some p1.
Proof.
  eexists. split; [reflexivity|]. split; [discriminate|].
  apply MarkDead_idempotent
    with (p := (GetClientConn "h:443" (inr 1%positive) (λ _, true) (initPool false 2)).1.1).
  reflexivity.
Defined.

(** C5. When [MarkDead] retires the only connection of a registered group,
    the group leaves the registry. The next [GetClientConn] for that
    destination (keep-alives enabled) allocates a new group cell, registers
    it, and calls the factory once, synchronously: its result is the
    factory's, and on success the new group holds exactly the dialed
    connection, which is also what [keys] gains. *)
Theorem MarkDead_last_then_GetClientConn (p : clientConnPool) (conn : ClientConn)
    (addr : string) (g : nat) (cell : clientConnGroup)
    (dialed : error + ClientConn) (canTake : ClientConn → bool) :
  DisableKeepAlives p = false →
  keys p !! conn = Some addr →
  groups p !! addr = Some g →
  heap p !! g = Some cell →
  g_conns cell = [conn] →
  g_keys cell !! conn = Some 0 →
  ∃ p1,
    MarkDead conn p = Some p1 ∧
    groups p1 !! addr = None ∧
    (g_conns <$> heap p1 !! g) = Some [] ∧
    ∃ p2 g' cell',
      GetClientConn addr dialed canTake p1 = (p2, [EDial addr], of_dial dialed) ∧
      heap p1 !! g' = None ∧
      groups p2 !! addr = Some g' ∧
      heap p2 !! g' = Some cell' ∧
      g_addr cell' = addr ∧
      g_conns cell' = match dialed with inr c => [c] | inl _ => [] end ∧
      keys p2 = match dialed with inr c => <[c := addr]> (keys p1) | inl _ => keys p1 end.
Proof.
  intros Hka Hk Hgr Hh Hcs Hidx.
  assert (Hlt : (g < length (heap p))%nat) by (by eapply lookup_lt_Some).
  assert (Hrm : removeClientConn cell conn = Some (set_conns cell [])).
  { unfold removeClientConn, len. rewrite Hidx, Hcs. reflexivity. }
  eexists. split.
  { unfold MarkDead, MarkDead_lookup. rewrite Hk. simpl. rewrite Hgr.
    unfold MarkDead_remove. simpl. rewrite Hh. simpl. rewrite Hrm. simpl.
    reflexivity. }
  simpl. split; [apply lookup_delete_eq|].
  split; [by rewrite list_lookup_insert_eq|].
  unfold GetClientConn, lookupGroup. simpl. rewrite Hka, lookup_delete_eq.
  unfold getClientConn_at. simpl.
  rewrite lookup_app_r, Nat.sub_diag by done. simpl.
  unfold getClientConn. simpl.
  exists
    (match dialed with
     | inl _ =>
         mkPool false (maxConnsPerHost p)
           (<[addr := length (<[g := set_conns cell []]> (heap p))]> (delete addr (groups p)))
           (delete conn (keys p))
           (<[length (<[g := set_conns cell []]> (heap p)) := newGroup addr]>
              (<[g := set_conns cell []]> (heap p) ++ [newGroup addr]))
     | inr c =>
         mkPool false (maxConnsPerHost p)
           (<[addr := length (<[g := set_conns cell []]> (heap p))]> (delete addr (groups p)))
           (<[c := addr]> (delete conn (keys p)))
           (<[length (<[g := set_conns cell []]> (heap p)) :=
                (addClientConn (newGroup addr) (delete conn (keys p)) c).1]>
              (<[g := set_conns cell []]> (heap p) ++ [newGroup addr]))
     end),
    (length (<[g := set_conns cell []]> (heap p))),
    (match dialed with
     | inl _ => newGroup addr
     | inr c => (addClientConn (newGroup addr) (delete conn (keys p)) c).1
     end).
  assert (Hnew : ∀ x : clientConnGroup,
    <[length (<[g := set_conns cell []]> (heap p)) := x]>
      (<[g := set_conns cell []]> (heap p) ++ [newGroup addr])
      !! length (<[g := set_conns cell []]> (heap p)) = Some x).
  { intros x. apply list_lookup_insert_eq. rewrite length_app. simpl. lia. }
  destruct dialed as [e|c]; simpl.
  - split_and!; try done.
    + unfold set_keys_p, set_heap, set_groups. simpl. by rewrite Hka.
    + apply lookup_ge_None. lia.
    + apply lookup_insert_eq.
  - split_and!; try done.
    + unfold set_keys_p, set_heap, set_groups. simpl. by rewrite Hka.
    + apply lookup_ge_None. lia.
    + apply lookup_insert_eq.
Qed.

Lemma MarkDead_last_then_GetClientConn_witness :
  let p := (GetClientConn "h:443" (inr 1%positive) (λ _, true) (initPool false 2)).1.1 in
  ∃ p1,
    MarkDead 1%positive p = Some p1 ∧
    groups p1 !! "h:443" = None ∧
    ∃ p2,
      GetClientConn "h:443" (inr 2%positive) (λ _, true) p1
        = (p2, [EDial "h:443"], Ok 2%positive) ∧
      groups p2 !! "h:443" = Some 1%nat ∧
      (g_conns <$> heap p2 !! 1%nat) = Some [2%positive].
Proof.
  intros p.
  destruct (MarkDead_last_then_GetClientConn p 1%positive "h:443" 0%nat
              (mkGroup "h:443" 0 [1%positive] {[1%positive := 0]} 0)
              (inr 2%positive) (λ _, true))
    as (p1 & Hm & Hg & _ & p2 & g' & cell' & Hget & Hfresh & Hreg & Hcell & _ & Hcs & _);
    try reflexivity.
  exists p1. split; [exact Hm|]. split; [exact Hg|].
  exists p2. split; [exact Hget|].
  assert (Hp1 : p1 = mkPool false 2 ∅ ∅ [mkGroup "h:443" 0 [] {[1%positive := 0]} 0]).
  { assert (Hc : MarkDead 1%positive p
                 = Some (mkPool false 2 ∅ ∅ [mkGroup "h:443" 0 [] {[1%positive := 0]} 0]))
      by reflexivity.
    rewrite Hc in Hm. by injection Hm. }
  subst p1.
  assert (Hp2 : p2 = (GetClientConn "h:443" (inr 2%positive) (λ _, true)
      (mkPool false 2 ∅ ∅ [mkGroup "h:443" 0 [] {[1%positive := 0]} 0])).1.1)
    by (by rewrite Hget).
  subst p2. split; reflexivity.
Defined.

(** ** The interleaved semantics: what a step changes *)

Lemma cell_step_refl g0 P p : cell_step g0 P p p.
Proof. split; [done|by left]. Qed.

Lemma cell_step_weaken g0 (P Q : clientConnGroup → clientConnGroup → Prop) p p1 :
  (∀ c c1, P c c1 → Q c c1) → cell_step g0 P p p1 → cell_step g0 Q p p1.
Proof.
  intros HPQ [Hm [Hh|(c0 & c1 & ? & ? & ?)]]; (split; [done|]); [by left|].
  right. exists c0, c1. auto.
Qed.

Lemma cell_step_back g0 P p p1 g c1 :
  cell_step g0 P p p1 → heap p1 !! g = Some c1 →
  heap p !! g = Some c1 ∨ (g = g0 ∧ ∃ c0, heap p !! g = Some c0 ∧ P c0 c1).
Proof.
  intros [_ [->|(c0 & c1' & H0 & -> & HP)]] H; [by left|].
  apply list_lookup_insert_Some in H as [(<- & <- & _)|[_ H]]; [|by left].
  right. split; [done|by exists c0].
Qed.

Lemma cell_step_forth g0 P p p1 g c :
  cell_step g0 P p p1 → heap p !! g = Some c →
  heap p1 !! g = Some c ∨ (g = g0 ∧ ∃ c1, heap p1 !! g = Some c1 ∧ P c c1).
Proof.
  intros [_ [->|(c0 & c1 & H0 & -> & HP)]] H; [by left|].
  destruct (decide (g = g0)) as [->|Hne].
  - right. split; [done|]. exists c1. rewrite H in H0. injection H0 as ->.
    split; [|done]. apply list_lookup_insert_eq. by eapply lookup_lt_Some.
  - left. by rewrite list_lookup_insert_ne.
Qed.

Lemma removeClientConn_shrinks g conn g1 :
  removeClientConn g conn = Some g1 →
  g_dialing g1 = g_dialing g ∧ len g1 ≤ len g.
Proof.
  unfold removeClientConn, go_slice_to, go_store, go_index.
  intros H. destruct (g_keys g !! conn) as [idx|]; [|injection H as <-; lia].
  destruct (idx =? len g - 1).
  - destruct ((0 <=? len g - 1) && (len g - 1 <=? Z.of_nat (length (g_conns g))));
      [|done].
    simpl in H. injection H as <-. unfold len. simpl.
    split; [done|]. rewrite length_take. lia.
  - destruct (0 <=? len g - 1); [|done].
    destruct (g_conns g !! Z.to_nat (len g - 1)) as [lastConn|]; [|done]. simpl in H.
    destruct ((0 <=? idx) && (idx <? Z.of_nat (length (g_conns g)))); [|done].
    simpl in H. rewrite length_insert in H.
    destruct ((0 <=? Z.of_nat (length (g_conns g)) - 1) &&
              (Z.of_nat (length (g_conns g)) - 1 <=? Z.of_nat (length (g_conns g))));
      [|done].
    simpl in H. injection H as <-. unfold len. simpl.
    split; [done|]. rewrite length_take, length_insert. lia.
Qed.

Lemma lookupGroup_cells addr p p1 g :
  lookupGroup addr p = (p1, g) →
  maxConnsPerHost p1 = maxConnsPerHost p ∧
  (heap p1 = heap p ∨ heap p1 = heap p ++ [newGroup addr]).
Proof.
  unfold lookupGroup. destruct (groups p !! addr).
  - intros [= <- _]. split; [done|by left].
  - intros [= <- _]. split; [done|by right].
Qed.

Lemma MarkDead_lookup_cells conn p p1 r :
  MarkDead_lookup conn p = (p1, r) →
  maxConnsPerHost p1 = maxConnsPerHost p ∧ heap p1 = heap p.
Proof.
  unfold MarkDead_lookup. destruct (keys p !! conn) as [addr|]; [|by intros [= <- _]].
  simpl. destruct (groups p !! addr); by intros [= <- _].
Qed.

Lemma MarkDead_remove_cells conn addr g p p1 :
  MarkDead_remove conn addr g p = Some p1 →
  cell_step g (λ c c1, g_dialing c1 = g_dialing c ∧ len c1 ≤ len c) p p1.
Proof.
  unfold MarkDead_remove. intros H.
  destruct (heap p !! g) as [cell|] eqn:Hg; [|done]. simpl in H.
  destruct (removeClientConn cell conn) as [cell1|] eqn:Hr; [|done]. simpl in H.
  apply removeClientConn_shrinks in Hr.
  injection H as <-. split; [by destruct (len cell1 =? 0)|].
  right. exists cell, cell1. split; [done|]. split; [by destruct (len cell1 =? 0)|done].
Qed.

Lemma getClientConn_cells self maxConns dialed canTake g pkeys g1 pkeys1 effs r :
  getClientConn self maxConns dialed canTake g pkeys = (g1, pkeys1, effs, r) →
  g_dialing g1 = g_dialing g ∧
  (len g1 = len g ∨ (len g = 0 ∧ len g1 = 1)) ∧
  (∀ t, t ∈ spawned effs →
     t = TBg self BgStart ∧ (0 < maxConns → 2 ≤ maxConns)).
Proof.
  unfold getClientConn. destruct (len g =? 0) eqn:Hlen.
  - apply Z.eqb_eq in Hlen. destruct dialed as [e|c].
    + intros [= <- _ <- _]. split_and!; [done|by left|by intros t ?%not_elem_of_nil].
    + intros [= <- _ <- _]. split_and!; [done| |by intros t ?%not_elem_of_nil].
      right. split; [done|]. unfold len in *. simpl. rewrite length_app. simpl. lia.
  - apply Z.eqb_neq in Hlen.
    assert (Hsp : ∀ t, t ∈ spawned (if wantsMore maxConns g then [EGo self] else []) →
              t = TBg self BgStart ∧ (0 < maxConns → 2 ≤ maxConns)).
    { unfold wantsMore.
      destruct (Z.leb_spec maxConns 0); simpl.
      - intros t ->%list_elem_of_singleton. split; [done|lia].
      - destruct (Z.ltb_spec (len g) maxConns); simpl.
        + intros t ->%list_elem_of_singleton. split; [done|]. unfold len in *. lia.
        + by intros t ?%not_elem_of_nil. }
    destruct (scan canTake (g_conns g) (length (g_conns g)) (g_connIdx g)) as [ci [r'|]];
      intros [= <- _ <- _]; (split_and!; [done|by left|done]).
Qed.

Lemma getClientConn_at_cells g dialed canTake p p1 effs r :
  getClientConn_at g dialed canTake p = (p1, effs, r) →
  cell_step g (λ c c1, g_dialing c1 = g_dialing c ∧
                       (len c1 = len c ∨ (len c = 0 ∧ len c1 = 1))) p p1 ∧
  (∀ t, t ∈ spawned effs →
     t = TBg g BgStart ∧ (0 < maxConnsPerHost p → 2 ≤ maxConnsPerHost p)).
Proof.
  unfold getClientConn_at. destruct (heap p !! g) as [cell|] eqn:Hg.
  - destruct (getClientConn g (maxConnsPerHost p) dialed canTake cell (keys p))
      as [[[cell1 keys1] effs'] r'] eqn:Hget.
    apply getClientConn_cells in Hget as (Hd & Hl & Hsp).
    intros [= <- <- _]. split; [|done]. split; [done|].
    right. by exists cell, cell1.
  - intros [= <- <- _]. split; [apply cell_step_refl|]. by intros t ?%not_elem_of_nil.
Qed.

Lemma addClientConn_at_cells g conn p :
  cell_step g (λ c c1, g_dialing c1 = g_dialing c ∧ len c1 = len c + 1)
    p (addClientConn_at g conn p).
Proof.
  unfold addClientConn_at. destruct (heap p !! g) as [cell|] eqn:Hg;
    [|apply cell_step_refl].
  simpl. split; [done|]. right. eexists cell, _. split; [done|]. split; [done|].
  simpl. split; [done|]. unfold len. simpl. rewrite length_app. simpl. lia.
Qed.

Lemma update_cell_cells g f p :
  cell_step g (λ c c1, c1 = f c) p (update_cell g f p).
Proof.
  unfold update_cell. destruct (heap p !! g) as [cell|] eqn:Hg;
    [|apply cell_step_refl].
  split; [done|]. right. by exists cell, (f cell).
Qed.

(** ** Single flight (C9) *)

Lemma lookup_app_new {A} (l k : list A) (j : nat) (x : A) :
  (l ++ k) !! j = Some x → l !! j = Some x ∨ (l !! j = None ∧ x ∈ k).
Proof.
  intros [H|[Hge H]]%lookup_app_Some; [by left|].
  right. split; [by apply lookup_ge_None|by eapply list_elem_of_lookup_2].
Qed.

Lemma spawned_not_holder effs t : t ∈ spawned effs → flagHolder t = None ∧ pastCheck t = None.
Proof.
  unfold spawned. intros (e & _ & He)%list_elem_of_omap.
  destruct e; simplify_eq. done.
Qed.

Ltac split_lookup H :=
  lazymatch type of H with
  | (_ ++ _) !! _ = Some _ =>
      let Hn := fresh "Hnew" in apply lookup_app_new in H as [H|[Hn H]]
  | <[_ := _]> _ !! _ = Some _ =>
      let Hn := fresh "Hlt" in
      apply list_lookup_insert_Some in H as [(? & ? & Hn)|[? H]]
  end.

Ltac new_thread H :=
  first
    [ apply list_elem_of_singleton in H; subst
    | apply spawned_not_holder in H as [? ?] ].

Lemma flight_inv_init disableKeepAlives maxConns :
  flight_inv (mkSystem (initPool disableKeepAlives maxConns) []).
Proof. split; simpl; intros; by simplify_list_eq. Qed.

Lemma flight_inv_step s s' : flight_inv s → step s s' → flight_inv s'.
Proof.
  intros [Hsingle Hflag] Hstep. simpl in *.
  destruct Hstep as
    [p ts Hka
    |p ts addr p1 g Hka Hlook
    |p ts i g dialed canTake p1 effs r Hi Hget
    |p ts conn p1 r Hlook
    |p ts i conn addr g p1 Hi Hrm
    |p ts i g pc p1 t1 Hi Hbg]; simpl in *.
  - by split.
  - apply lookupGroup_cells in Hlook as [_ Hheap]. split; simpl.
    + intros i j ti tj g' Hi Hj Hfi Hfj.
      split_lookup Hi; [|new_thread Hi; done].
      split_lookup Hj; [|new_thread Hj; done]. eauto.
    + intros i t g' Hi Hf.
      split_lookup Hi; [|new_thread Hi; done].
      destruct (Hflag i t g' Hi Hf) as (cell & Hc & Hd). exists cell. split; [|done].
      destruct Hheap as [->| ->]; [done|]. by apply lookup_app_l_Some.
  - apply getClientConn_at_cells in Hget as [Hcells _]. split; simpl.
    + intros j k tj tk g' Hj Hk Hfj Hfk.
      split_lookup Hj; [|new_thread Hj; congruence].
      split_lookup Hk; [|new_thread Hk; congruence].
      split_lookup Hj; [by subst|]. split_lookup Hk; [by subst|]. eauto.
    + intros j t g' Hj Hf.
      split_lookup Hj; [|new_thread Hj; congruence].
      split_lookup Hj; [by subst|].
      destruct (Hflag j t g' Hj Hf) as (cell & Hc & Hd).
      destruct (cell_step_forth _ _ _ _ _ _ Hcells Hc) as [?|(_ & c1 & ? & Hd1 & _)];
        [by exists cell|].
      exists c1. split; [done|congruence].
  - apply MarkDead_lookup_cells in Hlook as [_ Hheap]. split; simpl; try rewrite Hheap.
    + intros i j ti tj g' Hi Hj Hfi Hfj.
      split_lookup Hi; [|new_thread Hi; by destruct r as [[??]|]].
      split_lookup Hj; [|new_thread Hj; by destruct r as [[??]|]]. eauto.
    + intros i t g' Hi Hf.
      split_lookup Hi; [|new_thread Hi; by destruct r as [[??]|]]. eauto.
  - apply MarkDead_remove_cells in Hrm as Hcells. split; simpl.
    + intros j k tj tk g' Hj Hk Hfj Hfk.
      split_lookup Hj; [by subst|]. split_lookup Hk; [by subst|]. eauto.
    + intros j t g' Hj Hf. split_lookup Hj; [by subst|].
      destruct (Hflag j t g' Hj Hf) as (cell & Hc & Hd).
      destruct (cell_step_forth _ _ _ _ _ _ Hcells Hc) as [?|(_ & c1 & ? & Hd1 & _)];
        [by exists cell|].
      exists c1. split; [done|congruence].
  - (* a background dial takes a step *)
    assert (Hnew : ∀ g', flagHolder t1 = Some g' →
              g' = g ∧
              (flagHolder (TBg g pc) = Some g ∨
               ∃ cell, heap p !! g = Some cell ∧ g_dialing cell = 0 ∧
                       ∃ cell1, heap p1 !! g = Some cell1 ∧ g_dialing cell1 = 1)).
    { intros g'. destruct Hbg; simpl; try done; intros [= <-]; (split; [done|]);
        try (by left).
      right. exists cell. split; [done|].
      unfold cas_dialing in *. destruct (Z.eqb_spec (g_dialing cell) 0); [|done].
      split; [done|]. simplify_eq. exists (set_dialing cell 1). split; [|done]. simpl.
      apply list_lookup_insert_eq. by eapply lookup_lt_Some. }
    assert (Hcells : cell_step g (λ c c1,
              (g_dialing c1 = g_dialing c) ∨
              (g_dialing c = 0 ∧ g_dialing c1 = 1 ∧ flagHolder t1 = Some g) ∨
              (flagHolder (TBg g pc) = Some g ∧ flagHolder t1 = None)) p p1).
    { destruct Hbg; try apply cell_step_refl.
      - split; [done|]. right. exists cell, cell1. split; [done|]. split; [done|].
        right. left. unfold cas_dialing in *.
        destruct (Z.eqb_spec (g_dialing cell) 0); [|done]. by simplify_eq.
      - eapply cell_step_weaken; [|apply addClientConn_at_cells].
        intros c c1 [? _]. by left.
      - eapply cell_step_weaken; [|apply update_cell_cells].
        intros c c1 _. by right; right. }
    assert (Hother : ∀ j t, j ≠ i → ts !! j = Some t → flagHolder t = Some g →
              flagHolder (TBg g pc) = None ∧
              ∃ cell, heap p !! g = Some cell ∧ g_dialing cell = 1).
    { intros j t Hne Hj Hf. split; [|by eapply Hflag].
      destruct (decide (flagHolder (TBg g pc) = None)) as [|Hsome]; [done|].
      assert (Hfi : flagHolder (TBg g pc) = Some g) by (by destruct pc).
      by destruct (Hne (Hsingle j i t _ g Hj Hi Hf Hfi)). }
    split; simpl.
    + intros j k tj tk g' Hj Hk Hfj Hfk.
      split_lookup Hj; split_lookup Hk; simplify_eq; try done.
      * apply Hnew in Hfj as [-> [Hf|(cell & Hc & Hd & _)]].
        -- destruct (Hother k tk) as [Hnone _]; try done. congruence.
        -- destruct (Hother k tk) as [_ (cell' & Hc' & Hd')]; try done.
           rewrite Hc in Hc'. simplify_eq. lia.
      * apply Hnew in Hfk as [-> [Hf|(cell & Hc & Hd & _)]].
        -- destruct (Hother j tj) as [Hnone _]; try done. congruence.
        -- destruct (Hother j tj) as [_ (cell' & Hc' & Hd')]; try done.
           rewrite Hc in Hc'. simplify_eq. lia.
      * eauto.
    + intros j t g' Hj Hf. split_lookup Hj; simplify_eq.
      * apply Hnew in Hf as Hn. destruct Hn as [-> [Hfi|(cell & Hc & Hd & cell1 & ? & ?)]];
          [|by exists cell1].
        destruct (Hflag j _ g Hi Hfi) as (cell & Hc & Hd).
        destruct (cell_step_forth _ _ _ _ _ _ Hcells Hc)
          as [?|(_ & c1 & ? & [Hd1|[(Hd0 & _)|(_ & Hnone)]])];
          [by exists cell|exists c1; split; [done|congruence]|lia|congruence].
      * destruct (Hflag j t g' Hj Hf) as (cell & Hc & Hd).
        destruct (cell_step_forth _ _ _ _ _ _ Hcells Hc)
          as [?|(-> & c1 & ? & [Hd1|[(Hd0 & _)|(Hfi & _)]])];
          [by exists cell|exists c1; split; [done|congruence]|lia|].
        destruct (Hother j t) as [Hnone _]; try done. congruence.
Qed.

Lemma reachable_flight_inv s : reachable s → flight_inv s.
Proof.
  induction 1 as [dk maxc|s s' _ IH Hstep];
    [apply flight_inv_init|by eapply flight_inv_step].
Qed.

Lemma bg_exec_step g pc dialed p p1 t1 :
  bg_exec g pc dialed p = Some (p1, t1) → bg_step g p pc p1 t1.
Proof.
  destruct pc; simpl.
  - destruct (heap p !! g) as [cell|] eqn:Hg; [|done]. simpl.
    destruct (cas_dialing cell) as [cell1|] eqn:Hcas; intros [= <- <-].
    + by eapply bg_cas_win.
    + by eapply bg_cas_lose.
  - destruct (heap p !! g) as [cell|] eqn:Hg; [|done]. simpl. intros [= <- <-].
    destruct (atCapacity (maxConnsPerHost p) cell) eqn:Hcap.
    + by eapply bg_check_full.
    + by eapply bg_check_room.
  - intros [= <- <-]. destruct dialed; constructor.
  - intros [= <- <-]. constructor.
  - intros [= <- <-]. constructor.
Qed.

Lemma exec_step a s s' : exec a s = Some s' → step s s'.
Proof.
  destruct s as [p ts]. destruct a as [addr|i dialed canTake|conn|i|i dialed]; simpl.
  - destruct (DisableKeepAlives p) eqn:Hka.
    + intros [= <-]. by constructor.
    + destruct (lookupGroup addr p) as [p1 g] eqn:Hl. intros [= <-].
      by apply (step_get_enter p ts addr p1 g).
  - destruct (ts !! i) as [[g| | |]|] eqn:Hi; try done.
    destruct (getClientConn_at g dialed canTake p) as [[p1 effs] r] eqn:Hget.
    intros [= <-]. by apply (step_get_run p ts i g dialed canTake p1 effs r).
  - destruct (MarkDead_lookup conn p) as [p1 r] eqn:Hl. intros [= <-]. by constructor.
  - destruct (ts !! i) as [[|conn addr g| |]|] eqn:Hi; try done.
    destruct (MarkDead_remove conn addr g p) as [p1|] eqn:Hr; [|done].
    intros [= <-]. by apply (step_mark_run p ts i conn addr g p1).
  - destruct (ts !! i) as [[| |g pc|]|] eqn:Hi; try done.
    destruct (bg_exec g pc dialed p) as [[p1 t1]|] eqn:Hbg; [|done].
    intros [= <-]. apply (step_bg p ts i g pc p1 t1); [done|].
    by eapply bg_exec_step.
Qed.

Lemma execs_reachable sched s s' :
  reachable s → execs sched s = Some s' → reachable s'.
Proof.
  revert s. induction sched as [|a sched IH]; intros s Hr; simpl.
  { by intros [= <-]. }
  destruct (exec a s) as [s1|] eqn:Ha; [|done]. simpl.
  apply IH. apply (reachable_step s s1 Hr). by apply (exec_step a).
Qed.

(** C9. In every reachable state of the interleaved semantics at most one
    goroutine per group has won the compare-and-swap on [dialing] and not
    yet reset it; while one has, the compare-and-swap of any other
    background dial of that group fails; and a background dial whose
    compare-and-swap fails returns at once, the pool unchanged and no dial
    made. *)
Theorem single_flight (s : system) :
  reachable s →
  (∀ i j ti tj g,
     sys_threads s !! i = Some ti → sys_threads s !! j = Some tj →
     flagHolder ti = Some g → flagHolder tj = Some g → i = j) ∧
  (∀ i t g,
     sys_threads s !! i = Some t → flagHolder t = Some g →
     ∃ cell, heap (sys_pool s) !! g = Some cell ∧ cas_dialing cell = None) ∧
  (∀ g cell p1 t1,
     heap (sys_pool s) !! g = Some cell → cas_dialing cell = None →
     bg_step g (sys_pool s) BgStart p1 t1 →
     p1 = sys_pool s ∧ t1 = TDone).
Proof.
  intros Hr. destruct (reachable_flight_inv s Hr) as [Hsingle Hflag].
  split_and!; [done| |].
  - intros i t g Hi Hf. destruct (Hflag i t g Hi Hf) as (cell & Hc & Hd).
    exists cell. split; [done|]. unfold cas_dialing. by rewrite Hd.
  - intros g cell p1 t1 Hc Hcas Hbg. inversion Hbg; subst; [|done].
    congruence.
Qed.

(** Two requests to one destination with a cap of 2: the second starts a
    background dial (goroutine 2), a third request starts another
    (goroutine 4); goroutine 2 wins the flag and is dialing when goroutine 4
    tries. *)
Lemma single_flight_witness :
  let sched :=
    [AGet "h:443"; ARun 0 (inr 1%positive) (λ _, true);
     AGet "h:443"; ARun 1 (inr 9%positive) (λ _, true);
     AGet "h:443"; ARun 3 (inr 9%positive) (λ _, true);
     ABg 2 (inr 2%positive); ABg 2 (inr 2%positive)] in
  ∃ s,
    execs sched (mkSystem (initPool false 2) []) = Some s ∧
    sys_threads s = [TDone; TDone; TBg 0 BgDial; TDone; TBg 0 BgStart] ∧
    (∀ p1 t1, bg_step 0 (sys_pool s) BgStart p1 t1 → p1 = sys_pool s ∧ t1 = TDone).
Proof.
  intros sched.
  destruct (execs sched (mkSystem (initPool false 2) [])) as [s|] eqn:Hs;
    [|by vm_compute in Hs].
  assert (Hr : reachable s).
  { apply (execs_reachable sched (mkSystem (initPool false 2) []) s);
      [apply reachable_init|exact Hs]. }
  assert (Hts : sys_threads s = [TDone; TDone; TBg 0 BgDial; TDone; TBg 0 BgStart]).
  { vm_compute in Hs. injection Hs as <-. reflexivity. }
  exists s. split; [reflexivity|]. split; [exact Hts|].
  intros p1 t1 Hbg.
  destruct (single_flight s Hr) as (_ & Hlose & Hret).
  destruct (Hlose 2%nat (TBg 0 BgDial) 0%nat) as (cell & Hc & Hcas);
    [by rewrite Hts|reflexivity|].
  exact (Hret 0%nat cell p1 t1 Hc Hcas Hbg).
Defined.

(** ** The per-host cap (C1) *)

Lemma pastCheck_holder t g : pastCheck t = Some g → flagHolder t = Some g ∧ isBg t = true.
Proof. destruct t as [| |g' []|]; simpl; try done; by intros [= <-]. Qed.

Lemma cap_inv_init disableKeepAlives maxConns :
  cap_inv (mkSystem (initPool disableKeepAlives maxConns) []).
Proof. split; simpl; intros; by simplify_list_eq. Qed.

Lemma cap_inv_step s s' : flight_inv s → cap_inv s → step s s' → cap_inv s'.
Proof.
  intros [Hsingle _] [Htrig Hcap Hroom] Hstep. simpl in *.
  destruct Hstep as
    [p ts Hka
    |p ts addr p1 g Hka Hlook
    |p ts i g dialed canTake p1 effs r Hi Hget
    |p ts conn p1 r Hlook
    |p ts i conn addr g p1 Hi Hrm
    |p ts i g pc p1 t1 Hi Hbg]; simpl in *.
  - by split.
  - apply lookupGroup_cells in Hlook as [Hmax Hheap].
    assert (Hcell : ∀ g' cell, heap p1 !! g' = Some cell →
              heap p !! g' = Some cell ∨ len cell = 0).
    { intros g' cell. destruct Hheap as [->| ->]; [by left|].
      intros [?|[_ H]]%lookup_app_Some; [by left|right].
      by apply list_lookup_singleton_Some in H as [_ <-]. }
    split; simpl; rewrite Hmax.
    + intros i t Hi. split_lookup Hi; [by eapply Htrig|new_thread Hi; done].
    + intros g' cell [?|Hz]%Hcell ?; [by eapply Hcap|lia].
    + intros i t g' cell Hi Hp. split_lookup Hi; [|new_thread Hi; done].
      intros [?|Hz]%Hcell ?; [by eapply Hroom|lia].
  - apply getClientConn_at_cells in Hget as [Hcells Hsp].
    pose proof Hcells as [Hmax _].
    split; simpl; rewrite Hmax.
    + intros j t Hj Hbg.
      split_lookup Hj; [|by apply Hsp in Hj as [_ ?]].
      split_lookup Hj; [by subst|]. by eapply Htrig.
    + intros g' cell Hc Hpos.
      destruct (cell_step_back _ _ _ _ _ _ Hcells Hc)
        as [?|(-> & c0 & Hc0 & _ & [Hl|[_ Hl]])]; [by eapply Hcap| |lia].
      rewrite Hl. by eapply Hcap.
    + intros j t g' cell Hj Hp Hc Hpos.
      split_lookup Hj; [|new_thread Hj; congruence].
      split_lookup Hj; [by subst|].
      destruct (cell_step_back _ _ _ _ _ _ Hcells Hc)
        as [?|(-> & c0 & Hc0 & _ & [Hl|[_ Hl]])]; [by eapply Hroom| |].
      * rewrite Hl. by eapply Hroom.
      * apply pastCheck_holder in Hp as [_ Hbg].
        pose proof (Htrig j t Hj Hbg Hpos). lia.
  - apply MarkDead_lookup_cells in Hlook as [Hmax Hheap].
    split; simpl; rewrite Hmax, ?Hheap.
    + intros i t Hi. split_lookup Hi; [by eapply Htrig|].
      new_thread Hi. by destruct r as [[??]|].
    + done.
    + intros i t g' cell Hi Hp. split_lookup Hi; [by eapply Hroom|].
      new_thread Hi. by destruct r as [[??]|].
  - apply MarkDead_remove_cells in Hrm as Hcells.
    pose proof Hcells as [Hmax _].
    split; simpl; rewrite Hmax.
    + intros j t Hj. split_lookup Hj; [by subst|]. by eapply Htrig.
    + intros g' cell Hc Hpos.
      destruct (cell_step_back _ _ _ _ _ _ Hcells Hc) as [?|(-> & c0 & Hc0 & _ & Hl)];
        [by eapply Hcap|].
      pose proof (Hcap g c0 Hc0 Hpos). lia.
    + intros j t g' cell Hj Hp Hc Hpos. split_lookup Hj; [by subst|].
      destruct (cell_step_back _ _ _ _ _ _ Hcells Hc) as [?|(-> & c0 & Hc0 & _ & Hl)];
        [by eapply Hroom|].
      pose proof (Hroom j t g c0 Hj Hp Hc0 Hpos). lia.
  - (* a background dial takes a step *)
    assert (Hcells : cell_step g (λ c c1,
              len c1 = len c ∨
              (len c1 = len c + 1 ∧ pastCheck (TBg g pc) = Some g)) p p1).
    { destruct Hbg; try apply cell_step_refl.
      - split; [done|]. right. exists cell, cell1. split_and!; try done.
        left. unfold cas_dialing in *. destruct (g_dialing cell =? 0); by simplify_eq.
      - eapply cell_step_weaken; [|apply addClientConn_at_cells].
        intros c c1 [_ ?]. by right.
      - eapply cell_step_weaken; [|apply update_cell_cells].
        intros c c1 ->. by left. }
    assert (Hpast : ∀ g' cell1, pastCheck t1 = Some g' → heap p1 !! g' = Some cell1 →
              0 < maxConnsPerHost p → len cell1 < maxConnsPerHost p).
    { intros g' cell1. destruct Hbg; simpl; try done; intros [= <-] Hc Hpos.
      - unfold atCapacity in *. simplify_eq. lia.
      - by eapply (Hroom i (TBg g BgDial) g). }
    pose proof Hcells as [Hmax _].
    split; simpl; rewrite Hmax.
    + intros j t Hj Hb. split_lookup Hj; [|by eapply Htrig].
      by eapply (Htrig i (TBg g pc)).
    + intros g' cell Hc Hpos.
      destruct (cell_step_back _ _ _ _ _ _ Hcells Hc)
        as [?|(-> & c0 & Hc0 & [Hl|[Hl Hp]])]; [by eapply Hcap| |].
      * rewrite Hl. by eapply Hcap.
      * pose proof (Hroom i _ g c0 Hi Hp Hc0 Hpos). lia.
    + intros j t g' cell Hj Hp Hc Hpos.
      split_lookup Hj; [subst; by eapply Hpast|].
      destruct (cell_step_back _ _ _ _ _ _ Hcells Hc)
        as [?|(-> & c0 & Hc0 & [Hl|[Hl Hpi]])]; [by eapply Hroom| |].
      * rewrite Hl. by eapply Hroom.
      * apply pastCheck_holder in Hp as [Hfj _].
        apply pastCheck_holder in Hpi as [Hfi _].
        pose proof (Hsingle i j _ _ g Hi Hj Hfi Hfj). congruence.
Qed.

Lemma reachable_cap_inv s : reachable s → cap_inv s.
Proof.
  induction 1 as [dk maxc|s s' Hr IH Hstep]; [apply cap_inv_init|].
  eapply cap_inv_step; [by apply reachable_flight_inv|done|done].
Qed.

(** C1. With a positive [maxConnsPerHost], in every reachable state of the
    interleaved semantics every group (registered or not) holds at most
    [maxConnsPerHost] connections: the synchronous dial, the background
    dial and [MarkDead] all keep it so. *)
Theorem conns_within_cap (s : system) (g : nat) (cell : clientConnGroup) :
  reachable s →
  0 < maxConnsPerHost (sys_pool s) →
  heap (sys_pool s) !! g = Some cell →
  len cell ≤ maxConnsPerHost (sys_pool s).
Proof.
  intros Hr Hpos Hc. destruct (reachable_cap_inv s Hr) as [_ Hcap _]. by eapply Hcap.
Qed.

(** A cap of 2, two requests, and the background dial of the second run to
    its end: the group holds two connections. *)
Lemma conns_within_cap_witness :
  let sched :=
    [AGet "h:443"; ARun 0 (inr 1%positive) (λ _, true);
     AGet "h:443"; ARun 1 (inr 9%positive) (λ _, true);
     ABg 2 (inr 2%positive); ABg 2 (inr 2%positive); ABg 2 (inr 2%positive);
     ABg 2 (inr 2%positive); ABg 2 (inr 2%positive)] in
  ∃ s cell,
    execs sched (mkSystem (initPool false 2) []) = Some s ∧
    heap (sys_pool s) !! 0%nat = Some cell ∧
    g_conns cell = [1%positive; 2%positive] ∧
    len cell ≤ maxConnsPerHost (sys_pool s).
Proof.
  intros sched.
  destruct (execs sched (mkSystem (initPool false 2) [])) as [s|] eqn:Hs;
    [|by vm_compute in Hs].
  assert (Hr : reachable s).
  { apply (execs_reachable sched (mkSystem (initPool false 2) []) s);
      [apply reachable_init|exact Hs]. }
  assert (Hcell : ∃ cell, heap (sys_pool s) !! 0%nat = Some cell ∧
                          g_conns cell = [1%positive; 2%positive] ∧
                          0 < maxConnsPerHost (sys_pool s)).
  { vm_compute in Hs. injection Hs as <-. eexists. split; [reflexivity|].
    split; reflexivity. }
  destruct Hcell as (cell & Hc & Hcs & Hpos).
  exists s, cell. split; [reflexivity|]. split; [exact Hc|]. split; [exact Hcs|].
  exact (conns_within_cap s 0%nat cell Hr Hpos Hc).
Defined.

(** ** The pool's [keys] against the registry (C6) *)

(** C6 (the code departs from it). A background dial registers its
    connection in the group it was started for, whether or not that group is
    still in the registry. Cap 2, destination "h:443": the first request
    dials connection 1; the second starts a background dial, which wins the
    flag and passes the re-check; [MarkDead] then retires connection 1,
    which empties the group and deletes it from the registry; the
    background dial succeeds and registers connection 2. Every goroutine
    has returned, [keys] maps connection 2 to "h:443", and the registry is
    empty: no group of the registry holds connection 2. *)
Theorem background_dial_registers_in_deleted_group :
  let sched :=
    [AGet "h:443"; ARun 0 (inr 1%positive) (λ _, true);
     AGet "h:443"; ARun 1 (inr 9%positive) (λ _, true);
     ABg 2 (inr 2%positive); ABg 2 (inr 2%positive);
     AMark 1%positive; ARemove 3;
     ABg 2 (inr 2%positive); ABg 2 (inr 2%positive); ABg 2 (inr 2%positive)] in
  ∃ s,
    execs sched (mkSystem (initPool false 2) []) = Some s ∧
    reachable s ∧
    sys_threads s = [TDone; TDone; TDone; TDone] ∧
    keys (sys_pool s) !! 2%positive = Some "h:443" ∧
    groups (sys_pool s) = ∅ ∧
    (g_conns <$> heap (sys_pool s)) = [[2%positive]] ∧
    ¬ keys_match_groups (sys_pool s).
Proof.
  intros sched.
  destruct (execs sched (mkSystem (initPool false 2) [])) as [s|] eqn:Hs;
    [|by vm_compute in Hs].
  assert (Hr : reachable s).
  { apply (execs_reachable sched (mkSystem (initPool false 2) []) s);
      [apply reachable_init|exact Hs]. }
  assert (Hfinal :
    sys_threads s = [TDone; TDone; TDone; TDone] ∧
    keys (sys_pool s) !! 2%positive = Some "h:443" ∧
    groups (sys_pool s) = ∅ ∧
    (g_conns <$> heap (sys_pool s)) = [[2%positive]]).
  { vm_compute in Hs. injection Hs as <-. split_and!; reflexivity. }
  destruct Hfinal as (Hts & Hk & Hgs & Hcs).
  exists s. split_and!; try done.
  intros Hmatch. destruct (proj1 (Hmatch 2%positive)) as (addr & g & cell & Hg & _).
  - by eexists.
  - by rewrite Hgs, lookup_empty in Hg.
Qed.

(** ** Where the correspondence does hold

    On a pool whose registry, cells and [keys] agree, [MarkDead] and a
    registration into a group of the registry keep them in agreement; what
    breaks it is only a registration into a group that has left the
    registry. *)

Lemma group_indexed_NoDup g : group_indexed g → NoDup (g_conns g).
Proof.
  intros Hidx. apply NoDup_alt. intros i j conn Hi Hj.
  apply Hidx in Hi, Hj. rewrite Hi in Hj. injection Hj. lia.
Qed.

Lemma pool_wf_keys_match p : pool_wf p → keys_match_groups p.
Proof.
  intros [_ _ Hmem Hown] conn. split.
  - intros [addr Hk]. destruct (Hown conn addr Hk) as (g & cell & ? & ? & ?).
    by exists addr, g, cell.
  - intros (addr & g & cell & Hg & Hc & Hin). exists addr. by eapply Hmem.
Qed.

Lemma pool_wf_init disableKeepAlives maxConns : pool_wf (initPool disableKeepAlives maxConns).
Proof. split; simpl; intros; by simplify_map_eq. Qed.

(** Retiring a member of an indexed group: no panic, exactly that
    connection leaves the slice, and the rest stays indexed. *)
Lemma removeClientConn_member (g : clientConnGroup) (conn : ClientConn) :
  group_indexed g →
  conn ∈ g_conns g →
  ∃ g1,
    removeClientConn g conn = Some g1 ∧
    g_addr g1 = g_addr g ∧
    group_indexed g1 ∧
    (∀ c, c ∈ g_conns g1 ↔ c ∈ g_conns g ∧ c ≠ conn) ∧
    len g1 = len g - 1.
Proof.
  intros Hidx [i Hi]%list_elem_of_lookup_1.
  pose proof (group_indexed_NoDup g Hidx) as Hnd.
  pose proof (lookup_lt_Some _ _ _ Hi) as Hlt.
  pose proof (Hidx i conn Hi) as Hk.
  set (n := length (g_conns g)) in *.
  unfold removeClientConn. rewrite Hk. unfold len. fold n.
  assert (Hmem_take : ∀ (l : list ClientConn) c,
    c ∈ take (n - 1)%nat l ↔ ∃ k, (k < n - 1)%nat ∧ l !! k = Some c).
  { intros l c. rewrite elem_of_take.
    split; intros (k & ? & ?); exists k; done. }
  destruct (Z.eqb_spec (Z.of_nat i) (Z.of_nat n - 1)) as [Hlast|Hnot].
  - (* the last element: cut the slice *)
    assert (i = (n - 1)%nat) as -> by lia.
    unfold go_slice_to. fold n.
    destruct (Z.leb_spec 0 (Z.of_nat n - 1)); [|lia].
    destruct (Z.leb_spec (Z.of_nat n - 1) (Z.of_nat n)); [|lia]. simpl.
    replace (Z.to_nat (Z.of_nat n - 1)) with (n - 1)%nat by lia.
    eexists. split; [done|]. simpl. split_and!; [done| | |].
    + intros k c Hc. simpl in *. apply lookup_take_Some in Hc as [Hc _]. by apply Hidx.
    + intros c. rewrite Hmem_take. split.
      * intros (k & Hkn & Hc). split; [by eapply list_elem_of_lookup_2|].
        intros ->. pose proof (NoDup_lookup _ _ _ _ Hnd Hc Hi). lia.
      * intros [[k Hc]%list_elem_of_lookup_1 Hne]. exists k. split; [|done].
        pose proof (lookup_lt_Some _ _ _ Hc) as Hkn. fold n in Hkn.
        destruct (decide (k = (n - 1)%nat)) as [->|]; [congruence|lia].
    + rewrite length_take. fold n. lia.
  - (* elsewhere: move the last element into its place, then cut *)
    assert (Hin1 : (i < n - 1)%nat) by lia.
    destruct (lookup_lt_is_Some_2 (g_conns g) (n - 1)%nat) as [lastConn Hl]; [lia|].
    unfold go_index, go_store, go_slice_to. fold n.
    destruct (Z.leb_spec 0 (Z.of_nat n - 1)); [|lia].
    replace (Z.to_nat (Z.of_nat n - 1)) with (n - 1)%nat by lia.
    rewrite Hl. simpl.
    destruct (Z.leb_spec 0 (Z.of_nat i)); [|lia].
    destruct (Z.ltb_spec (Z.of_nat i) (Z.of_nat n)); [|lia]. simpl.
    rewrite length_insert. fold n.
    destruct (Z.leb_spec 0 (Z.of_nat n - 1)); [|lia].
    destruct (Z.leb_spec (Z.of_nat n - 1) (Z.of_nat n)); [|lia]. simpl.
    replace (Z.to_nat (Z.of_nat n - 1)) with (n - 1)%nat by lia.
    rewrite Nat2Z.id.
    assert (Hne_last : lastConn ≠ conn).
    { intros ->. pose proof (NoDup_lookup _ _ _ _ Hnd Hl Hi). lia. }
    eexists. split; [done|]. simpl. split_and!; [done| | |].
    + intros k c Hc. simpl in *. apply lookup_take_Some in Hc as [Hc Hkn].
      apply list_lookup_insert_Some in Hc as [(<- & <- & _)|[Hki Hc]].
      * rewrite lookup_delete_ne by done. apply lookup_insert_eq.
      * assert (c ≠ conn).
        { intros ->. pose proof (NoDup_lookup _ _ _ _ Hnd Hc Hi). lia. }
        assert (c ≠ lastConn).
        { intros ->. pose proof (NoDup_lookup _ _ _ _ Hnd Hc Hl). lia. }
        rewrite lookup_delete_ne, lookup_insert_ne by done. by apply Hidx.
    + intros c. rewrite Hmem_take. split.
      * intros (k & Hkn & Hc).
        apply list_lookup_insert_Some in Hc as [(<- & <- & _)|[Hki Hc]].
        -- split; [by eapply list_elem_of_lookup_2|done].
        -- split; [by eapply list_elem_of_lookup_2|].
           intros ->. pose proof (NoDup_lookup _ _ _ _ Hnd Hc Hi). lia.
      * intros [[k Hc]%list_elem_of_lookup_1 Hne].
        pose proof (lookup_lt_Some _ _ _ Hc) as Hkn. fold n in Hkn.
        destruct (decide (k = (n - 1)%nat)) as [->|Hkl].
        -- exists i. split; [done|]. assert (c = lastConn) as -> by congruence.
           apply list_lookup_insert_eq. fold n. lia.
        -- exists k. split; [lia|].
           rewrite list_lookup_insert_ne; [done|]. intros <-. congruence.
    + rewrite length_take, length_insert. fold n. lia.
Qed.

(** X2. [MarkDead] on a pool whose registry, group cells and [keys] agree:
    it returns, and in the pool it leaves they agree again; in particular a
    connection is in [keys] exactly when a group of the registry holds it. *)
Theorem MarkDead_keeps_agreement (conn : ClientConn) (p : clientConnPool) :
  pool_wf p →
  ∃ p1, MarkDead conn p = Some p1 ∧ pool_wf p1 ∧ keys_match_groups p1.
Proof.
  intros Hwf. cut (∃ p1, MarkDead conn p = Some p1 ∧ pool_wf p1).
  { intros (p1 & ? & ?). exists p1. split_and!; [done|done|by apply pool_wf_keys_match]. }
  destruct Hwf as [Hgrp Hidx Hmem Hown].
  unfold MarkDead, MarkDead_lookup.
  destruct (keys p !! conn) as [addr|] eqn:Hk; [|by exists p].
  destruct (Hown conn addr Hk) as (g & cell & Hg & Hc & Hin). simpl. rewrite Hg.
  unfold MarkDead_remove. simpl. rewrite Hc. simpl.
  destruct (removeClientConn_member cell conn (Hidx _ _ _ Hg Hc) Hin)
    as (cell1 & -> & Haddr & Hidx1 & Hmem1 & Hlen1). simpl.
  eexists. split; [done|].
  pose proof (lookup_lt_Some _ _ _ Hc) as Hlt.
  assert (Hinj : ∀ addr', groups p !! addr' = Some g → addr' = addr).
  { intros addr' Hg'. destruct (Hgrp _ _ Hg') as (c' & Hc' & <-).
    destruct (Hgrp _ _ Hg) as (c'' & Hc'' & <-). congruence. }
  assert (Hcell : ∀ g' cell', <[g := cell1]> (heap p) !! g' = Some cell' →
            (g' = g ∧ cell' = cell1) ∨ (g' ≠ g ∧ heap p !! g' = Some cell')).
  { intros g' cell' [(<- & <- & _)|[? ?]]%list_lookup_insert_Some; [by left|by right]. }
  assert (Hkeep : ∀ g' cell', g' ≠ g → heap p !! g' = Some cell' →
            <[g := cell1]> (heap p) !! g' = Some cell').
  { intros g' cell' Hne Hc'. by rewrite list_lookup_insert_ne. }
  assert (Hnew : <[g := cell1]> (heap p) !! g = Some cell1)
    by (by apply list_lookup_insert_eq).
  assert (Hother : ∀ addr' g' cell' conn',
            groups p !! addr' = Some g' → g' ≠ g → heap p !! g' = Some cell' →
            conn' ∈ g_conns cell' → conn' ≠ conn).
  { intros addr' g' cell' conn' Hg' Hne Hc' Hin' ->.
    pose proof (Hmem _ _ _ _ Hg' Hc' Hin') as Hk'. rewrite Hk in Hk'.
    injection Hk' as <-. congruence. }
  destruct (Z.eqb_spec (len cell1) 0) as [Hz|Hnz]; split; simpl.
  - intros addr' g' [Hne Hg']%lookup_delete_Some.
    destruct (Hgrp _ _ Hg') as (cell' & Hc' & Ha). exists cell'. split; [|done].
    apply Hkeep; [|done]. intros ->. by apply Hne, eq_sym, Hinj.
  - intros addr' g' cell' [Hne Hg']%lookup_delete_Some [[-> _]|[_ Hc']]%Hcell.
    + by destruct Hne; apply eq_sym, Hinj.
    + by eapply Hidx.
  - intros addr' g' cell' conn' [Hne Hg']%lookup_delete_Some [[-> _]|[Hng Hc']]%Hcell Hin'.
    + by destruct Hne; apply eq_sym, Hinj.
    + rewrite lookup_delete_ne; [by eapply Hmem|].
      intros <-. by eapply (Hother addr' g' cell' conn).
  - intros conn' addr' [Hne Hk']%lookup_delete_Some.
    destruct (Hown _ _ Hk') as (g' & cell' & Hg' & Hc' & Hin').
    destruct (decide (g' = g)) as [->|Hng].
    + assert (cell' = cell) as -> by congruence.
      assert (Hin1 : conn' ∈ g_conns cell1) by (apply Hmem1; split; [done|congruence]).
      unfold len in Hz. destruct (g_conns cell1); [by apply not_elem_of_nil in Hin1|].
      simpl in Hz. lia.
    + exists g', cell'. split_and!; [|by apply Hkeep|done].
      rewrite lookup_delete_ne; [done|]. intros <-. congruence.
  - intros addr' g' Hg'. destruct (decide (g' = g)) as [->|Hng].
    + exists cell1. split; [done|]. rewrite Haddr.
      destruct (Hgrp _ _ Hg') as (c' & Hc' & <-). congruence.
    + destruct (Hgrp _ _ Hg') as (cell' & Hc' & Ha). exists cell'.
      split; [by apply Hkeep|done].
  - intros addr' g' cell' Hg' [[-> ->]|[_ Hc']]%Hcell; [done|by eapply Hidx].
  - intros addr' g' cell' conn' Hg' [[-> ->]|[Hng Hc']]%Hcell Hin'.
    + apply Hmem1 in Hin' as [Hin' Hne].
      rewrite lookup_delete_ne by done. by eapply Hmem.
    + rewrite lookup_delete_ne; [by eapply Hmem|].
      intros <-. by eapply (Hother addr' g' cell' conn).
  - intros conn' addr' [Hne Hk']%lookup_delete_Some.
    destruct (Hown _ _ Hk') as (g' & cell' & Hg' & Hc' & Hin').
    destruct (decide (g' = g)) as [->|Hng].
    + assert (cell' = cell) as -> by congruence.
      exists g, cell1. split_and!; [done|done|]. apply Hmem1. split; [done|congruence].
    + exists g', cell'. split_and!; [done|by apply Hkeep|done].
Qed.

(** Replacing a cell by one with the same destination, slice and index map
    (a moved cursor, a changed flag) changes nothing of the agreement. *)
Lemma pool_wf_same_cell (g : nat) (cell cell1 : clientConnGroup) (p : clientConnPool) :
  heap p !! g = Some cell →
  g_addr cell1 = g_addr cell → g_conns cell1 = g_conns cell → g_keys cell1 = g_keys cell →
  pool_wf p → pool_wf (set_heap p (<[g := cell1]> (heap p))).
Proof.
  intros Hc Ha Hcs Hks [Hgrp Hidx Hmem Hown].
  pose proof (lookup_lt_Some _ _ _ Hc) as Hlt.
  assert (Hcell : ∀ g' cell', <[g := cell1]> (heap p) !! g' = Some cell' →
            ∃ cell0, heap p !! g' = Some cell0 ∧ g_addr cell' = g_addr cell0 ∧
                     g_conns cell' = g_conns cell0 ∧ g_keys cell' = g_keys cell0).
  { intros g' cell' [(<- & <- & _)|[? ?]]%list_lookup_insert_Some;
      [by exists cell|by exists cell']. }
  assert (Hfwd : ∀ g' cell0, heap p !! g' = Some cell0 →
            ∃ cell', <[g := cell1]> (heap p) !! g' = Some cell' ∧
                     g_addr cell' = g_addr cell0 ∧ g_conns cell' = g_conns cell0).
  { intros g' cell0 Hc0. destruct (decide (g' = g)) as [->|Hne].
    - exists cell1. rewrite list_lookup_insert_eq by done.
      assert (cell0 = cell) as -> by congruence. done.
    - exists cell0. by rewrite list_lookup_insert_ne. }
  split; simpl.
  - intros addr' g' Hg'. destruct (Hgrp _ _ Hg') as (cell0 & Hc0 & <-).
    destruct (Hfwd _ _ Hc0) as (cell' & ? & ? & _). by exists cell'.
  - intros addr' g' cell' Hg' (cell0 & Hc0 & _ & Hcs0 & Hks0)%Hcell i conn.
    rewrite Hcs0, Hks0. by eapply Hidx.
  - intros addr' g' cell' conn Hg' (cell0 & Hc0 & _ & Hcs0 & _)%Hcell.
    rewrite Hcs0. by eapply Hmem.
  - intros conn addr' Hk. destruct (Hown _ _ Hk) as (g' & cell0 & Hg' & Hc0 & Hin).
    destruct (Hfwd _ _ Hc0) as (cell' & ? & _ & Hcs'). exists g', cell'.
    split_and!; [done|done|by rewrite Hcs'].
Qed.

(** Registering a connection the pool does not know yet into a group of the
    registry. *)
Lemma addClientConn_at_keeps_wf (g : nat) (conn : ClientConn) (addr : string)
    (p : clientConnPool) :
  pool_wf p → groups p !! addr = Some g → keys p !! conn = None →
  pool_wf (addClientConn_at g conn p).
Proof.
  intros [Hgrp Hidx Hmem Hown] Hg Hfresh.
  destruct (Hgrp _ _ Hg) as (cell & Hc & Ha).
  unfold addClientConn_at. rewrite Hc. simpl.
  pose proof (lookup_lt_Some _ _ _ Hc) as Hlt.
  set (cell1 := set_conns (set_keys cell (<[conn := len cell]> (g_keys cell)))
                  (g_conns cell ++ [conn])).
  assert (Hnotin : ∀ addr' g' cell', groups p !! addr' = Some g' →
            heap p !! g' = Some cell' → conn ∉ g_conns cell').
  { intros addr' g' cell' Hg' Hc' Hin. pose proof (Hmem _ _ _ _ Hg' Hc' Hin). congruence. }
  assert (Hinj : ∀ addr', groups p !! addr' = Some g → addr' = addr).
  { intros addr' Hg'. destruct (Hgrp _ _ Hg') as (c' & Hc' & <-). congruence. }
  assert (Hcell : ∀ g' cell', <[g := cell1]> (heap p) !! g' = Some cell' →
            (g' = g ∧ cell' = cell1) ∨ (g' ≠ g ∧ heap p !! g' = Some cell')).
  { intros g' cell' [(<- & <- & _)|[? ?]]%list_lookup_insert_Some; [by left|by right]. }
  assert (Hnew : <[g := cell1]> (heap p) !! g = Some cell1)
    by (by apply list_lookup_insert_eq).
  split; simpl.
  - intros addr' g' Hg'. destruct (decide (g' = g)) as [->|Hne].
    + exists cell1. split; [done|]. simpl. rewrite Ha. by apply eq_sym, Hinj.
    + destruct (Hgrp _ _ Hg') as (cell' & Hc' & ?). exists cell'.
      by rewrite list_lookup_insert_ne.
  - intros addr' g' cell' Hg' [[-> ->]|[_ Hc']]%Hcell; [|by eapply Hidx].
    intros i c. simpl. intros [Hi|[Hi Hlast]]%lookup_app_Some.
    + rewrite lookup_insert_ne; [by eapply Hidx|].
      intros <-. eapply (Hnotin addr g cell); [done|done|by eapply list_elem_of_lookup_2].
    + apply list_lookup_singleton_Some in Hlast as [Hi0 <-].
      rewrite lookup_insert_eq. f_equal. unfold len. lia.
  - intros addr' g' cell' c Hg' [[-> ->]|[_ Hc']]%Hcell.
    + simpl. rewrite (Hinj _ Hg'), Ha.
      intros [Hin|Hin%list_elem_of_singleton]%elem_of_app;
        [|subst c; apply lookup_insert_eq].
      rewrite lookup_insert_ne; [by eapply (Hmem addr g cell)|].
      intros <-. by eapply (Hnotin addr g cell).
    + intros Hin. rewrite lookup_insert_ne; [by eapply Hmem|].
      intros <-. by eapply (Hnotin addr' g' cell').
  - intros c addr' [[<- <-]|[Hne Hk]]%lookup_insert_Some.
    + exists g, cell1. rewrite Ha. split_and!; [done|done|].
      simpl. apply elem_of_app. right. by apply list_elem_of_singleton.
    + destruct (Hown _ _ Hk) as (g' & cell' & Hg' & Hc' & Hin).
      destruct (decide (g' = g)) as [->|Hng].
      * assert (cell' = cell) as -> by congruence.
        exists g, cell1. split_and!; [done|done|]. simpl. apply elem_of_app. by left.
      * exists g', cell'. by rewrite list_lookup_insert_ne.
Qed.

Lemma lookupGroup_keeps_wf (addr : string) (p p1 : clientConnPool) (g : nat) :
  pool_wf p → lookupGroup addr p = (p1, g) →
  pool_wf p1 ∧ groups p1 !! addr = Some g ∧ keys p1 = keys p.
Proof.
  intros Hwf. unfold lookupGroup. destruct (groups p !! addr) as [g0|] eqn:Hg.
  { by intros [= <- <-]. }
  intros [= <- <-]. split; [|split; [apply lookup_insert_eq|done]].
  destruct Hwf as [Hgrp Hidx Hmem Hown].
  assert (Hold : ∀ addr' g', <[addr := length (heap p)]> (groups p) !! addr' = Some g' →
            (addr' = addr ∧ g' = length (heap p)) ∨
            (addr' ≠ addr ∧ groups p !! addr' = Some g' ∧ (g' < length (heap p))%nat)).
  { intros addr' g' [[<- <-]|[Hne Hg']]%lookup_insert_Some; [by left|right].
    split_and!; [done|done|]. destruct (Hgrp _ _ Hg') as (c & Hc & _).
    by eapply lookup_lt_Some. }
  split; simpl.
  - intros addr' g' [[-> ->]|(_ & Hg' & Hlt)]%Hold.
    + exists (newGroup addr). split; [|done].
      rewrite lookup_app_r, Nat.sub_diag; done.
    + destruct (Hgrp _ _ Hg') as (c & Hc & ?). exists c. by rewrite lookup_app_l.
  - intros addr' g' cell' [[-> ->]|(_ & Hg' & Hlt)]%Hold.
    + rewrite lookup_app_r, Nat.sub_diag by done. intros [= <-] i c. simpl.
      by rewrite lookup_nil.
    + rewrite lookup_app_l by done. by eapply Hidx.
  - intros addr' g' cell' c [[-> ->]|(_ & Hg' & Hlt)]%Hold.
    + rewrite lookup_app_r, Nat.sub_diag by done. intros [= <-]. simpl.
      by intros ?%not_elem_of_nil.
    + rewrite lookup_app_l by done. by eapply Hmem.
  - intros c addr' Hk. destruct (Hown _ _ Hk) as (g' & cell' & Hg' & Hc' & Hin).
    exists g', cell'. split_and!; [|by apply lookup_app_l_Some|done].
    rewrite lookup_insert_ne; [done|]. intros <-. congruence.
Qed.

(** The pool after the first request to a destination. *)
Lemma pool_wf_first_request :
  pool_wf (GetClientConn "h:443" (inr 1%positive) (λ _, true) (initPool false 2)).1.1.
Proof.
  destruct (lookupGroup_keeps_wf "h:443" (initPool false 2)
              (lookupGroup "h:443" (initPool false 2)).1 0%nat
              (pool_wf_init false 2) eq_refl) as (Hwf & Hg & _).
  exact (addClientConn_at_keeps_wf 0 1%positive "h:443" _ Hwf Hg eq_refl).
Qed.

(** X3. [GetClientConn] on such a pool, when the factory fails or hands out
    a connection that [keys] does not know yet: the agreement is kept,
    through the creation of the group and the synchronous registration. *)
Theorem GetClientConn_keeps_agreement (addr : string) (dialed : error + ClientConn)
    (canTake : ClientConn → bool) (p : clientConnPool) :
  pool_wf p →
  (∀ conn, dialed = inr conn → keys p !! conn = None) →
  pool_wf (GetClientConn addr dialed canTake p).1.1 ∧
  keys_match_groups (GetClientConn addr dialed canTake p).1.1.
Proof.
  intros Hwf Hfresh.
  cut (pool_wf (GetClientConn addr dialed canTake p).1.1).
  { intros ?. split; [done|by apply pool_wf_keys_match]. }
  unfold GetClientConn. destruct (DisableKeepAlives p); [done|].
  destruct (lookupGroup addr p) as [p1 g] eqn:Hl.
  destruct (lookupGroup_keeps_wf addr p p1 g Hwf Hl) as (Hwf1 & Hg & Hkeys).
  destruct (wf_group p1 Hwf1 _ _ Hg) as (cell & Hc & Ha).
  unfold getClientConn_at. rewrite Hc. unfold getClientConn.
  destruct (len cell =? 0).
  - destruct dialed as [e|conn]; simpl.
    + rewrite list_insert_id by done. by destruct p1.
    + pose proof (addClientConn_at_keeps_wf g conn addr p1 Hwf1 Hg) as Hadd.
      unfold addClientConn_at in Hadd. rewrite Hc in Hadd. simpl in Hadd.
      apply Hadd. rewrite Hkeys. by apply Hfresh.
  - destruct (scan canTake (g_conns cell) (length (g_conns cell)) (g_connIdx cell))
      as [ci [r|]]; simpl;
      (replace (set_keys_p (set_heap p1 (<[g := set_connIdx cell ci]> (heap p1))) (keys p1))
         with (set_heap p1 (<[g := set_connIdx cell ci]> (heap p1))) by (by destruct p1));
      by eapply pool_wf_same_cell.
Qed.

(** X4. The background dial of a group that is in the registry, run from
    its compare-and-swap to its return with no other goroutine in between,
    the factory failing or handing out a connection that [keys] does not
    know yet: the agreement is kept. *)
Theorem bg_dialClientConn_keeps_agreement (g : nat) (addr : string)
    (dialed : error + ClientConn) (p : clientConnPool) :
  pool_wf p → groups p !! addr = Some g →
  (∀ conn, dialed = inr conn → keys p !! conn = None) →
  pool_wf (bg_dialClientConn g dialed p).1 ∧
  keys_match_groups (bg_dialClientConn g dialed p).1.
Proof.
  intros Hwf Hg Hfresh.
  cut (pool_wf (bg_dialClientConn g dialed p).1).
  { intros ?. split; [done|by apply pool_wf_keys_match]. }
  assert (Hreset : ∀ q, pool_wf q → groups q !! addr = Some g →
            pool_wf (update_cell g reset_dialing q)).
  { intros q Hq Hgq. unfold update_cell.
    destruct (heap q !! g) as [c|] eqn:Hc; [|done]. by eapply pool_wf_same_cell. }
  unfold bg_dialClientConn.
  destruct (heap p !! g) as [cell|] eqn:Hc; [|done].
  unfold cas_dialing. destruct (g_dialing cell =? 0); [|done].
  assert (Hwf1 : pool_wf (set_heap p (<[g := set_dialing cell 1]> (heap p))))
    by (by eapply pool_wf_same_cell).
  destruct (atCapacity _ _); [by apply Hreset|].
  destruct dialed as [e|conn]; simpl; [by apply Hreset|].
  apply Hreset.
  - eapply addClientConn_at_keeps_wf; [done|done|]. simpl. by apply Hfresh.
  - unfold addClientConn_at. simpl.
    rewrite list_lookup_insert_eq by (by eapply lookup_lt_Some). done.
Qed.

(** X1. [removeClientConn] applied to a connection of a group whose
    connections are all recorded under their positions: it does not panic,
    exactly that connection leaves [conns] (by the cut or by the
    swap-with-last), the length drops by one, and the connections that stay
    are again recorded under their (possibly new) positions. *)
Theorem removeClientConn_removes_member (g : clientConnGroup) (conn : ClientConn) :
  group_indexed g →
  conn ∈ g_conns g →
  ∃ g1,
    removeClientConn g conn = Some g1 ∧
    group_indexed g1 ∧
    (∀ c, c ∈ g_conns g1 ↔ c ∈ g_conns g ∧ c ≠ conn) ∧
    len g1 = len g - 1.
Proof.
  intros Hidx Hin.
  destruct (removeClientConn_member g conn Hidx Hin) as (g1 & ? & _ & ? & ? & ?).
  by exists g1.
Qed.

Lemma removeClientConn_removes_member_witness :
  let g := mkGroup "h:443" 0 [1%positive; 2%positive; 3%positive]
             {[1%positive := 0; 2%positive := 1; 3%positive := 2]} 0 in
  ∃ g1,
    removeClientConn g 1%positive = Some g1 ∧
    g_conns g1 = [3%positive; 2%positive] ∧
    group_indexed g1.
Proof.
  intros g.
  destruct (removeClientConn_removes_member g 1%positive) as (g1 & Hr & Hidx & _ & _).
  - intros [|[|[|i]]] conn; simpl; intros [= <-]; reflexivity.
  - apply list_elem_of_here.
  - exists g1. split; [exact Hr|]. split; [|exact Hidx].
    assert (Hc : removeClientConn g 1%positive
                 = Some (mkGroup "h:443" 0 [3%positive; 2%positive]
                           (delete 1%positive
                              (<[3%positive := 0]>
                                 {[1%positive := 0; 2%positive := 1; 3%positive := 2]})) 0))
      by reflexivity.
    rewrite Hc in Hr. by injection Hr as <-.
Defined.

Lemma MarkDead_keeps_agreement_witness :
  let p := (GetClientConn "h:443" (inr 1%positive) (λ _, true) (initPool false 2)).1.1 in
  ∃ p1, MarkDead 1%positive p = Some p1 ∧ keys p1 = ∅ ∧ keys_match_groups p1.
Proof.
  intros p.
  destruct (MarkDead_keeps_agreement 1%positive p pool_wf_first_request)
    as (p1 & Hm & _ & Hmatch).
  exists p1. split; [exact Hm|]. split; [|exact Hmatch].
  assert (Hc : MarkDead 1%positive p
               = Some (mkPool false 2 ∅ ∅ [mkGroup "h:443" 0 [] {[1%positive := 0]} 0]))
    by reflexivity.
  rewrite Hc in Hm. by injection Hm as <-.
Defined.

Lemma GetClientConn_keeps_agreement_witness :
  let p := (GetClientConn "h:443" (inr 1%positive) (λ _, true) (initPool false 2)).1.1 in
  let registering := GetClientConn "k:443" (inr 2%positive) (λ _, true) p in
  let selecting := GetClientConn "h:443" (inr 3%positive) (λ _, true) p in
  (registering.2 = Ok 2%positive ∧
   keys registering.1.1 !! 1%positive = Some "h:443" ∧
   keys registering.1.1 !! 2%positive = Some "k:443" ∧
   (g_conns <$> heap registering.1.1) = [[1%positive]; [2%positive]] ∧
   keys_match_groups registering.1.1) ∧
  (selecting.2 = Ok 1%positive ∧
   keys selecting.1.1 !! 1%positive = Some "h:443" ∧
   keys selecting.1.1 !! 3%positive = None ∧
   (g_conns <$> heap selecting.1.1) = [[1%positive]] ∧
   keys_match_groups selecting.1.1).
Proof.
  intros p registering selecting. split.
  - split_and!; [reflexivity|reflexivity|reflexivity|reflexivity|].
    refine (proj2 (GetClientConn_keeps_agreement "k:443" (inr 2%positive) (λ _, true) p
                     pool_wf_first_request _)).
    intros conn [= <-]. reflexivity.
  - split_and!; [reflexivity|reflexivity|reflexivity|reflexivity|].
    refine (proj2 (GetClientConn_keeps_agreement "h:443" (inr 3%positive) (λ _, true) p
                     pool_wf_first_request _)).
    intros conn [= <-]. reflexivity.
Defined.

Lemma bg_dialClientConn_keeps_agreement_witness :
  let p := (GetClientConn "h:443" (inr 1%positive) (λ _, true) (initPool false 2)).1.1 in
  (g_conns <$> heap (bg_dialClientConn 0 (inr 2%positive) p).1)
    = [[1%positive; 2%positive]] ∧
  keys_match_groups (bg_dialClientConn 0 (inr 2%positive) p).1.
Proof.
  intros p. split; [reflexivity|].
  refine (proj2 (bg_dialClientConn_keeps_agreement 0 "h:443" (inr 2%positive) p
                   pool_wf_first_request _ _)).
  - reflexivity.
  - intros conn [= <-]. reflexivity.
Defined.

(** * Further properties of the code *)

(** ** Registration and retirement as a round trip *)

(** X5. Registering a connection in a group and retiring it at once gives
    back the slice as it was: the connection was appended, so the retirement
    is the cut of the last element. The cursor, the destination and the flag
    are untouched; the index map keeps the entry the registration wrote. No
    condition on the group or the connection is needed. *)
Theorem addClientConn_then_removeClientConn (g : clientConnGroup)
    (pkeys : gmap ClientConn string) (conn : ClientConn) :
  removeClientConn (addClientConn g pkeys conn).1 conn
    = Some (set_keys g (<[conn := len g]> (g_keys g))) ∧
  (addClientConn g pkeys conn).2 = <[conn := g_addr g]> pkeys.
Proof.
  split; [|done].
  unfold addClientConn, removeClientConn. simpl.
  rewrite lookup_insert_eq. unfold len. simpl. rewrite length_app. simpl.
  replace (Z.of_nat (length (g_conns g) + 1) - 1) with (Z.of_nat (length (g_conns g)))
    by lia.
  rewrite Z.eqb_refl. unfold go_slice_to. rewrite length_app. simpl.
  destruct (Z.leb_spec 0 (Z.of_nat (length (g_conns g)))); [|lia].
  destruct (Z.leb_spec (Z.of_nat (length (g_conns g)))
              (Z.of_nat (length (g_conns g) + 1))); [|lia].
  simpl. rewrite Nat2Z.id, take_app_length. done.
Qed.

Lemma lookupGroup_new (addr : string) (p : clientConnPool) :
  groups p !! addr = None →
  lookupGroup addr p =
    (set_groups (set_heap p (heap p ++ [newGroup addr]))
       (<[addr := length (heap p)]> (groups p)), length (heap p)).
Proof. unfold lookupGroup. by intros ->. Qed.

(** X6. The same round trip through the pool. For a destination with no
    group and a connection [keys] does not know: the request creates the
    group and registers the dialed connection, [MarkDead] of that connection
    then empties the group and deletes it, and the registry and [keys] are
    exactly what they were before the request. What stays behind is the
    group cell, which nothing points to any more. *)
Theorem first_dial_then_MarkDead (addr : string) (conn : ClientConn)
    (canTake : ClientConn → bool) (p : clientConnPool) :
  DisableKeepAlives p = false →
  groups p !! addr = None →
  keys p !! conn = None →
  ∃ p1 p2,
    GetClientConn addr (inr conn) canTake p = (p1, [EDial addr], Ok conn) ∧
    groups p1 !! addr = Some (length (heap p)) ∧
    keys p1 !! conn = Some addr ∧
    MarkDead conn p1 = Some p2 ∧
    groups p2 = groups p ∧
    keys p2 = keys p ∧
    maxConnsPerHost p2 = maxConnsPerHost p ∧
    heap p2 = heap p ++ [set_keys (newGroup addr) {[conn := 0]}].
Proof.
  intros Hka Hg Hk.
  unfold GetClientConn. rewrite Hka, (lookupGroup_new addr p Hg).
  unfold getClientConn_at. simpl.
  rewrite lookup_app_r, Nat.sub_diag by done. simpl.
  unfold getClientConn. simpl.
  eexists _, _. split; [reflexivity|]. simpl.
  split; [apply lookup_insert_eq|]. split; [apply lookup_insert_eq|].
  unfold MarkDead, MarkDead_lookup. simpl. rewrite !lookup_insert_eq.
  unfold MarkDead_remove. simpl.
  rewrite list_lookup_insert_eq by (rewrite length_app; simpl; lia). simpl.
  assert (Hrm : removeClientConn
            (set_conns (set_keys (newGroup addr) (<[conn := len (newGroup addr)]> ∅))
               [conn]) conn
            = Some (set_keys (newGroup addr) {[conn := 0]})).
  { unfold removeClientConn. simpl. rewrite lookup_insert_eq. reflexivity. }
  rewrite Hrm. simpl.
  split; [reflexivity|]. simpl.
  rewrite delete_insert_id by done. rewrite delete_insert_id by done.
  split_and!; try done.
  rewrite list_insert_insert_eq.
  rewrite (insert_app_r_alt (heap p) [_] (length (heap p))) by done.
  by rewrite Nat.sub_diag.
Qed.

Lemma first_dial_then_MarkDead_witness :
  ∃ p1 p2,
    GetClientConn "h:443" (inr 1%positive) (λ _, true) (initPool false 0)
      = (p1, [EDial "h:443"], Ok 1%positive) ∧
    MarkDead 1%positive p1 = Some p2 ∧
    groups p2 = ∅ ∧ keys p2 = ∅.
Proof.
  destruct (first_dial_then_MarkDead "h:443" 1%positive (λ _, true) (initPool false 0))
    as (p1 & p2 & Hget & _ & _ & Hm & Hgs & Hks & _); try reflexivity.
  exists p1, p2. split_and!; [exact Hget|exact Hm|exact Hgs|exact Hks].
Defined.

(** ** Which connection a request gets *)

(** X7. Selection on a group with at least one connection (cursor not about
    to overflow). When a connection is returned, it belongs to the group, it
    answered that it can take the request, it is the first to do so in
    rotation order after the cursor, and the cursor is left on it; every
    candidate passed over had refused. When the error is returned, the
    cursor has moved by one full round, so it points at the same position as
    before. *)
Theorem getClientConn_selects_first_accepting (self : nat) (maxConns : Z)
    (dialed : error + ClientConn) (canTake : ClientConn → bool)
    (g g1 : clientConnGroup) (pkeys pkeys1 : gmap ClientConn string)
    (effs : list effect) (r : result ClientConn) :
  g_conns g ≠ [] →
  cursor_ok g (len g) →
  getClientConn self maxConns dialed canTake g pkeys = (g1, pkeys1, effs, r) →
  (∀ conn, r = Ok conn →
     conn ∈ g_conns g ∧ canTake conn = true ∧
     ∃ k, 1 ≤ k ≤ len g ∧
          g_connIdx g1 = g_connIdx g + k ∧
          go_index (g_conns g) (Z.rem (g_connIdx g1) (len g)) = Some conn ∧
          ∀ j conn', 1 ≤ j < k →
            go_index (g_conns g) (Z.rem (g_connIdx g + j) (len g)) = Some conn' →
            canTake conn' = false) ∧
  (∀ e, r = Err e →
     g_connIdx g1 = g_connIdx g + len g ∧
     Z.rem (g_connIdx g1) (len g) = Z.rem (g_connIdx g) (len g)).
Proof.
  intros Hne [H0 Hmax] Hget. unfold getClientConn in Hget.
  assert (Hpos : 0 < len g).
  { unfold len. destruct (g_conns g); [done|simpl; lia]. }
  assert (Hlen : (len g =? 0) = false) by (apply Z.eqb_neq; lia).
  rewrite Hlen in Hget.
  pose proof (scan_spec canTake (g_conns g) Hne (length (g_conns g)) (g_connIdx g) H0 Hmax)
    as Hscan.
  destruct (scan canTake (g_conns g) (length (g_conns g)) (g_connIdx g)) as [ci [r'|]].
  - destruct Hscan as (k & conn & Hk & -> & Hc & Hq & -> & Hbefore).
    injection Hget as <- <- <- <-. split; [|done].
    intros conn' [= <-]. split_and!; [|done|].
    + apply go_index_Some in Hc as [_ Hc]. by eapply list_elem_of_lookup_2.
    + exists k. unfold len. simpl. split_and!; [lia|lia|done|done|done].
  - destruct Hscan as [-> _]. injection Hget as <- <- <- <-. split; [done|].
    intros e _. simpl. split; [done|].
    fold (len g). rewrite !Z.rem_mod_nonneg by lia.
    replace (g_connIdx g + len g) with (g_connIdx g + 1 * len g) by lia.
    by rewrite Z.mod_add by lia.
Qed.

Lemma getClientConn_selects_first_accepting_witness :
  let g := mkGroup "h:443" 3 [1%positive; 2%positive; 3%positive]
             {[1%positive := 0; 2%positive := 1; 3%positive := 2]} 0 in
  let canTake := λ c : ClientConn, bool_decide (c = 1%positive) in
  getClientConn 0 3 (inr 9%positive) canTake g ∅
    = (set_connIdx g 6, ∅, [], Ok 1%positive) ∧
  canTake 1%positive = true ∧ canTake 2%positive = false ∧ canTake 3%positive = false.
Proof.
  intros g canTake.
  assert (Hget : getClientConn 0 3 (inr 9%positive) canTake g ∅
                 = (set_connIdx g 6, ∅, [], Ok 1%positive)) by reflexivity.
  split; [exact Hget|].
  destruct (getClientConn_selects_first_accepting 0 3 (inr 9%positive) canTake g
              (set_connIdx g 6) ∅ ∅ [] (Ok 1%positive)) as [Hok _].
  - discriminate.
  - split; [done|]. vm_compute. discriminate.
  - exact Hget.
  - destruct (Hok 1%positive eq_refl) as (_ & Hq & _).
    split; [exact Hq|]. split; reflexivity.
Defined.

(** ** A first dial that fails *)

(** X8. The first request to a destination whose dial fails: the factory's
    error is returned as it is, the connection map is untouched, and the
    group that was created for the request stays in the registry, empty.
    The next request to the destination therefore allocates nothing: it
    finds that group and dials synchronously again, whatever the outcome. *)
Theorem failed_first_dial (addr : string) (e : error) (canTake : ClientConn → bool)
    (p : clientConnPool) :
  DisableKeepAlives p = false →
  groups p !! addr = None →
  ∃ p1,
    GetClientConn addr (inl e) canTake p = (p1, [EDial addr], Err e) ∧
    keys p1 = keys p ∧
    groups p1 = <[addr := length (heap p)]> (groups p) ∧
    heap p1 = heap p ++ [newGroup addr] ∧
    ∀ dialed' canTake',
      (GetClientConn addr dialed' canTake' p1).1.2 = [EDial addr] ∧
      (GetClientConn addr dialed' canTake' p1).2 = of_dial dialed' ∧
      groups (GetClientConn addr dialed' canTake' p1).1.1 = groups p1 ∧
      length (heap (GetClientConn addr dialed' canTake' p1).1.1) = length (heap p1).
Proof.
  intros Hka Hg.
  assert (Hcell : ∀ h : list clientConnGroup, (h ++ [newGroup addr]) !! length h
                    = Some (newGroup addr)).
  { intros h. by rewrite lookup_app_r, Nat.sub_diag. }
  unfold GetClientConn. rewrite Hka, (lookupGroup_new addr p Hg).
  unfold getClientConn_at. simpl. rewrite Hcell. simpl.
  unfold getClientConn. simpl.
  eexists. split; [reflexivity|]. simpl.
  rewrite list_insert_id by apply Hcell.
  split_and!; try done.
  intros dialed' canTake'. unfold lookupGroup. simpl.
  rewrite Hka, lookup_insert_eq. simpl. rewrite Hcell.
  destruct dialed' as [e'|conn']; simpl; rewrite ?length_insert; done.
Qed.

Lemma failed_first_dial_witness :
  ∃ p1,
    GetClientConn "h:443" (inl (External "connection refused")) (λ _, true)
      (initPool false 2)
      = (p1, [EDial "h:443"], Err (External "connection refused")) ∧
    groups p1 !! "h:443" = Some 0%nat ∧
    GetClientConn "h:443" (inr 1%positive) (λ _, true) p1
      = ((GetClientConn "h:443" (inr 1%positive) (λ _, true) p1).1.1,
         [EDial "h:443"], Ok 1%positive).
Proof.
  destruct (failed_first_dial "h:443" (External "connection refused") (λ _, true)
              (initPool false 2)) as (p1 & Hget & _ & Hgs & _ & Hnext);
    [reflexivity|reflexivity|].
  exists p1. split; [exact Hget|]. split; [by rewrite Hgs|].
  destruct (Hnext (inr 1%positive) (λ _, true)) as (Heffs & Hres & _).
  destruct (GetClientConn "h:443" (inr 1%positive) (λ _, true) p1) as [[p2 effs] r].
  simpl in *. by rewrite Heffs, Hres.
Defined.

(** ** What MarkDead leaves alone *)

(** X9. Whatever the pool, a [MarkDead] that returns has removed exactly the
    entry of its connection from [keys]; the configuration and the number
    of group cells are unchanged; the registry can only lose the entry of
    that connection's destination; and the only group cell that can differ
    is the one the registry held for that destination. *)
Theorem MarkDead_frame (conn : ClientConn) (p p1 : clientConnPool) :
  MarkDead conn p = Some p1 →
  keys p1 = delete conn (keys p) ∧
  maxConnsPerHost p1 = maxConnsPerHost p ∧
  DisableKeepAlives p1 = DisableKeepAlives p ∧
  length (heap p1) = length (heap p) ∧
  (∀ addr, keys p !! conn ≠ Some addr → groups p1 !! addr = groups p !! addr) ∧
  (∀ addr g, groups p1 !! addr = Some g → groups p !! addr = Some g) ∧
  (∀ g cell, heap p !! g = Some cell →
     (∀ addr, keys p !! conn = Some addr → groups p !! addr ≠ Some g) →
     heap p1 !! g = Some cell).
Proof.
  unfold MarkDead, MarkDead_lookup.
  destruct (keys p !! conn) as [addr|] eqn:Hk.
  2:{ intros [= <-]. rewrite delete_id by done. by split_and!. }
  simpl. destruct (groups p !! addr) as [g|] eqn:Hg.
  2:{ intros [= <-]. simpl. by split_and!. }
  unfold MarkDead_remove. simpl.
  destruct (heap p !! g) as [cell|] eqn:Hc; [|done]. simpl.
  destruct (removeClientConn cell conn) as [cell1|]; [|done]. simpl.
  intros [= <-].
  assert (Hheap : ∀ g' cell', heap p !! g' = Some cell' →
            (∀ addr', Some addr = Some addr' → groups p !! addr' ≠ Some g') →
            <[g := cell1]> (heap p) !! g' = Some cell').
  { intros g' cell' Hc' Hother. rewrite list_lookup_insert_ne; [done|].
    intros <-. by apply (Hother addr). }
  destruct (len cell1 =? 0); simpl; rewrite length_insert; split_and!; try done.
  - intros addr' Hne. rewrite lookup_delete_ne; [done|]. congruence.
  - by intros addr' g' [_ ?]%lookup_delete_Some.
Qed.

(** Two destinations with one connection each; the first is marked dead. *)
Lemma MarkDead_frame_witness :
  let p1 := (GetClientConn "a:443" (inr 1%positive) (λ _, true) (initPool false 2)).1.1 in
  let p2 := (GetClientConn "b:443" (inr 2%positive) (λ _, true) p1).1.1 in
  ∃ p3,
    MarkDead 1%positive p2 = Some p3 ∧
    keys p3 = delete 1%positive (keys p2) ∧
    groups p3 !! "b:443" = groups p2 !! "b:443" ∧
    heap p3 !! 1%nat = heap p2 !! 1%nat.
Proof.
  intros p1 p2.
  destruct (MarkDead 1%positive p2) as [p3|] eqn:Hm; [|by vm_compute in Hm].
  destruct (MarkDead_frame 1%positive p2 p3 Hm) as (Hk & _ & _ & _ & Hg & _ & Hh).
  exists p3. split; [reflexivity|]. split; [exact Hk|]. split.
  - apply Hg. vm_compute. discriminate.
  - destruct (heap p2 !! 1%nat) as [cell|] eqn:Hc; [|by vm_compute in Hc].
    apply Hh; [exact Hc|].
    intros addr Haddr. assert (addr = "a:443") as ->.
    { assert (Hk1 : keys p2 !! 1%positive = Some "a:443") by reflexivity. congruence. }
    vm_compute. discriminate.
Defined.

(** ** The background dial, from its first line to its return *)

Lemma update_cell_insert (g : nat) (cell : clientConnGroup)
    (f : clientConnGroup → clientConnGroup) (p : clientConnPool) :
  (g < length (heap p))%nat →
  update_cell g f (set_heap p (<[g := cell]> (heap p)))
    = set_heap p (<[g := f cell]> (heap p)).
Proof.
  intros Hlt. unfold update_cell. simpl.
  rewrite list_lookup_insert_eq by done. simpl. by rewrite list_insert_insert_eq.
Qed.

(** X10. The net effect of a background dial run without interruption on an
    allocated group. If the flag was free, the group is below a positive
    cap and the factory succeeds, the pool afterwards is the one
    [addClientConn] gives, the flag free again. In every other case (flag
    taken, group at or above the cap, cap not positive, dial failed) the
    pool afterwards is the pool before: a failed background dial leaves no
    trace but the printed error. *)
Theorem bg_dialClientConn_net_effect (g : nat) (cell : clientConnGroup)
    (dialed : error + ClientConn) (p : clientConnPool) :
  heap p !! g = Some cell →
  bg_dialClientConn g dialed p =
    if (g_dialing cell =? 0) && (len cell <? maxConnsPerHost p) then
      match dialed with
      | inl e => (p, [EDial (g_addr cell); EPrint (g_addr cell) e])
      | inr conn => (addClientConn_at g conn p, [EDial (g_addr cell)])
      end
    else (p, []).
Proof.
  intros Hc. pose proof (lookup_lt_Some _ _ _ Hc) as Hlt.
  unfold bg_dialClientConn, cas_dialing. rewrite Hc.
  destruct (Z.eqb_spec (g_dialing cell) 0) as [Hd|Hd]; [|done]. simpl.
  assert (Hsame : set_heap p (<[g := reset_dialing (set_dialing cell 1)]> (heap p)) = p).
  { rewrite set_dialing_same by done. rewrite list_insert_id by done. by destruct p. }
  unfold atCapacity. change (len (set_dialing cell 1)) with (len cell).
  rewrite Z.leb_antisym.
  destruct (len cell <? maxConnsPerHost p); simpl.
  2:{ by rewrite update_cell_insert, Hsame. }
  destruct dialed as [e|conn].
  { by rewrite update_cell_insert, Hsame. }
  f_equal. unfold addClientConn_at. simpl.
  rewrite list_lookup_insert_eq, Hc by done. simpl.
  rewrite list_insert_insert_eq.
  unfold update_cell. simpl. rewrite list_lookup_insert_eq by done. simpl.
  rewrite list_insert_insert_eq. unfold reset_dialing, set_dialing, set_conns, set_keys.
  simpl. rewrite Hd. unfold set_keys_p, set_heap. simpl. by destruct cell.
Qed.

Lemma bg_dialClientConn_net_effect_witness :
  let p := (GetClientConn "h:443" (inr 1%positive) (λ _, true) (initPool false 2)).1.1 in
  bg_dialClientConn 0 (inl (External "timeout")) p
    = (p, [EDial "h:443"; EPrint "h:443" (External "timeout")]) ∧
  bg_dialClientConn 0 (inr 2%positive) p
    = (addClientConn_at 0 2%positive p, [EDial "h:443"]).
Proof.
  intros p. split.
  - exact (bg_dialClientConn_net_effect 0 (mkGroup "h:443" 0 [1%positive] {[1%positive := 0]} 0)
             (inl (External "timeout")) p eq_refl).
  - reflexivity.
Defined.

(** ** The interleaved semantics: configuration and keep-alives *)

Lemma lookupGroup_config addr p p1 g :
  lookupGroup addr p = (p1, g) → DisableKeepAlives p1 = DisableKeepAlives p.
Proof. unfold lookupGroup. destruct (groups p !! addr); by intros [= <- _]. Qed.

Lemma getClientConn_at_config g dialed canTake p p1 effs r :
  getClientConn_at g dialed canTake p = (p1, effs, r) →
  DisableKeepAlives p1 = DisableKeepAlives p.
Proof.
  unfold getClientConn_at. destruct (heap p !! g) as [cell|]; [|by intros [= <- _ _]].
  destruct (getClientConn _ _ _ _ _ _) as [[[? ?] ?] ?]. by intros [= <- _ _].
Qed.

Lemma MarkDead_lookup_config conn p p1 r :
  MarkDead_lookup conn p = (p1, r) → DisableKeepAlives p1 = DisableKeepAlives p.
Proof.
  unfold MarkDead_lookup. destruct (keys p !! conn) as [addr|]; [|by intros [= <- _]].
  simpl. destruct (groups p !! addr); by intros [= <- _].
Qed.

Lemma MarkDead_remove_config conn addr g p p1 :
  MarkDead_remove conn addr g p = Some p1 → DisableKeepAlives p1 = DisableKeepAlives p.
Proof.
  unfold MarkDead_remove. destruct (heap p !! g) as [cell|]; [|done]. simpl.
  destruct (removeClientConn cell conn) as [cell1|]; [|done]. simpl.
  intros [= <-]. by destruct (len cell1 =? 0).
Qed.

Lemma bg_step_config g p pc p1 t1 :
  bg_step g p pc p1 t1 → DisableKeepAlives p1 = DisableKeepAlives p.
Proof.
  destruct 1; try done.
  - unfold addClientConn_at. by destruct (heap p !! g).
  - unfold update_cell. by destruct (heap p !! g).
Qed.

Lemma step_config s s' :
  step s s' →
  DisableKeepAlives (sys_pool s') = DisableKeepAlives (sys_pool s) ∧
  maxConnsPerHost (sys_pool s') = maxConnsPerHost (sys_pool s).
Proof.
  destruct 1 as
    [p ts Hka
    |p ts addr p1 g Hka Hlook
    |p ts i g dialed canTake p1 effs r Hi Hget
    |p ts conn p1 r Hlook
    |p ts i conn addr g p1 Hi Hrm
    |p ts i g pc p1 t1 Hi Hbg]; simpl.
  - done.
  - split; [by eapply lookupGroup_config|by eapply lookupGroup_cells].
  - split; [by eapply getClientConn_at_config|].
    by apply getClientConn_at_cells in Hget as [[? _] _].
  - split; [by eapply MarkDead_lookup_config|by eapply MarkDead_lookup_cells].
  - split; [by eapply MarkDead_remove_config|].
    by apply MarkDead_remove_cells in Hrm as [? _].
  - split; [by eapply bg_step_config|].
    destruct Hbg; try done.
    + by destruct (addClientConn_at_cells g conn p).
    + by destruct (update_cell_cells g reset_dialing p).
Qed.

(** X11. With keep-alives disabled the pool is never written: in every
    reachable state of the interleaved semantics the registry and [keys] are
    empty, no group cell was ever allocated, and no goroutine is inside a
    pool operation, whatever requests and [MarkDead] calls arrived. Every
    request is the factory's dial and nothing else. *)
Theorem keepalives_disabled_never_pools (s : system) :
  reachable s →
  DisableKeepAlives (sys_pool s) = true →
  groups (sys_pool s) = ∅ ∧ keys (sys_pool s) = ∅ ∧ heap (sys_pool s) = [] ∧
  (∀ i t, sys_threads s !! i = Some t → t = TDone) ∧
  (∀ addr dialed canTake,
     GetClientConn addr dialed canTake (sys_pool s)
       = (sys_pool s, [EDial addr], of_dial dialed)).
Proof.
  intros Hr Hka.
  cut (groups (sys_pool s) = ∅ ∧ keys (sys_pool s) = ∅ ∧ heap (sys_pool s) = [] ∧
       (∀ i t, sys_threads s !! i = Some t → t = TDone)).
  { intros (? & ? & ? & ?). split_and!; try done.
    intros addr dialed canTake. unfold GetClientConn. by rewrite Hka. }
  induction Hr as [dk maxc|s s' Hr IH Hstep]; [split_and!; try done; by intros [|?] ?|].
  pose proof (step_config s s' Hstep) as [Hcfg _]. rewrite Hka in Hcfg.
  destruct (IH (eq_sym Hcfg)) as (Hg & Hk & Hh & Hts). clear IH.
  destruct Hstep as
    [p ts Hdis
    |p ts addr p1 g Hdis Hlook
    |p ts i g dialed canTake p1 effs r Hi Hget
    |p ts conn p1 r Hlook
    |p ts i conn addr g p1 Hi Hrm
    |p ts i g pc p1 t1 Hi Hbg]; simpl in *.
  - done.
  - congruence.
  - by apply Hts in Hi.
  - unfold MarkDead_lookup in Hlook. rewrite Hk, lookup_empty in Hlook.
    injection Hlook as <- <-. split_and!; try done.
    intros i t [?|[_ ->%list_elem_of_singleton]]%lookup_app_new; [by eapply Hts|done].
  - by apply Hts in Hi.
  - by apply Hts in Hi.
Qed.

(** Five requests and a stray [MarkDead] with keep-alives disabled. *)
Lemma keepalives_disabled_never_pools_witness :
  let sched :=
    [AGet "h:443"; AGet "h:443"; AMark 7%positive; AGet "h:443"; AGet "h:443";
     AGet "h:443"] in
  ∃ s,
    execs sched (mkSystem (initPool true 2) []) = Some s ∧
    groups (sys_pool s) = ∅ ∧ keys (sys_pool s) = ∅ ∧ heap (sys_pool s) = [].
Proof.
  intros sched.
  destruct (execs sched (mkSystem (initPool true 2) [])) as [s|] eqn:Hs;
    [|by vm_compute in Hs].
  assert (Hr : reachable s).
  { apply (execs_reachable sched (mkSystem (initPool true 2) []) s);
      [apply reachable_init|exact Hs]. }
  assert (Hka : DisableKeepAlives (sys_pool s) = true).
  { vm_compute in Hs. injection Hs as <-. reflexivity. }
  destruct (keepalives_disabled_never_pools s Hr Hka) as (Hg & Hk & Hh & _).
  exists s. split; [reflexivity|]. split_and!; [exact Hg|exact Hk|exact Hh].
Defined.

(** ** The flag is always given back *)

Lemma flag_held_or_free_step s s' :
  (∀ g cell, heap (sys_pool s) !! g = Some cell →
     g_dialing cell = 0 ∨
     (g_dialing cell = 1 ∧
      ∃ i t, sys_threads s !! i = Some t ∧ flagHolder t = Some g)) →
  step s s' →
  (∀ g cell, heap (sys_pool s') !! g = Some cell →
     g_dialing cell = 0 ∨
     (g_dialing cell = 1 ∧
      ∃ i t, sys_threads s' !! i = Some t ∧ flagHolder t = Some g)).
Proof.
  intros Hinv Hstep.
  assert (Hkeep_app : ∀ (ts l : list thread) g,
    (∃ i t, ts !! i = Some t ∧ flagHolder t = Some g) →
    ∃ i t, (ts ++ l) !! i = Some t ∧ flagHolder t = Some g).
  { intros ts l g (i & t & Hi & Hf). exists i, t. split; [by apply lookup_app_l_Some|done]. }
  assert (Hkeep_upd : ∀ (ts : list thread) i0 t0 t1 g,
    ts !! i0 = Some t0 → flagHolder t0 ≠ Some g →
    (∃ i t, ts !! i = Some t ∧ flagHolder t = Some g) →
    ∃ i t, <[i0 := t1]> ts !! i = Some t ∧ flagHolder t = Some g).
  { intros ts i0 t0 t1 g Hi0 Hnot (i & t & Hi & Hf). exists i, t. split; [|done].
    rewrite list_lookup_insert_ne; [done|]. intros <-. congruence. }
  destruct Hstep as
    [p ts Hka
    |p ts addr p1 g0 Hka Hlook
    |p ts i0 g0 dialed canTake p1 effs r Hi Hget
    |p ts conn p1 r Hlook
    |p ts i0 conn addr g0 p1 Hi Hrm
    |p ts i0 g0 pc p1 t1 Hi Hbg]; simpl in *.
  - done.
  - apply lookupGroup_cells in Hlook as [_ [->| ->]]; intros g cell Hc.
    + destruct (Hinv g cell Hc) as [?|[? ?]]; [by left|right]. split; [done|]. auto.
    + apply lookup_app_Some in Hc as [Hc|[_ Hc]].
      * destruct (Hinv g cell Hc) as [?|[? ?]]; [by left|right]. split; [done|]. auto.
      * apply list_lookup_singleton_Some in Hc as [_ <-]. by left.
  - apply getClientConn_at_cells in Hget as [Hcells _]. intros g cell Hc.
    assert (Hd : ∃ c0, heap p !! g = Some c0 ∧ g_dialing cell = g_dialing c0).
    { destruct (cell_step_back _ _ _ _ _ _ Hcells Hc) as [?|(_ & c0 & ? & ? & _)];
        [by exists cell|by exists c0]. }
    destruct Hd as (c0 & Hc0 & ->).
    destruct (Hinv g c0 Hc0) as [?|[? Hh]]; [by left|right]. split; [done|].
    apply Hkeep_app. by eapply Hkeep_upd.
  - apply MarkDead_lookup_cells in Hlook as [_ ->]. intros g cell Hc.
    destruct (Hinv g cell Hc) as [?|[? ?]]; [by left|right]. split; [done|]. auto.
  - apply MarkDead_remove_cells in Hrm as Hcells. intros g cell Hc.
    assert (Hd : ∃ c0, heap p !! g = Some c0 ∧ g_dialing cell = g_dialing c0).
    { destruct (cell_step_back _ _ _ _ _ _ Hcells Hc) as [?|(_ & c0 & ? & ? & _)];
        [by exists cell|by exists c0]. }
    destruct Hd as (c0 & Hc0 & ->).
    destruct (Hinv g c0 Hc0) as [?|[? Hh]]; [by left|right]. split; [done|].
    by eapply Hkeep_upd.
  - pose proof (lookup_lt_Some _ _ _ Hi) as Hlt.
    assert (Hself : ∀ t, ∃ i t', <[i0 := t]> ts !! i = Some t' ∧ t' = t).
    { intros t. exists i0, t. split; [by apply list_lookup_insert_eq|done]. }
    assert (Hrest : ∀ g cell, g ≠ g0 → heap p !! g = Some cell →
              g_dialing cell = 0 ∨
              (g_dialing cell = 1 ∧
               ∃ i t, <[i0 := t1]> ts !! i = Some t ∧ flagHolder t = Some g)).
    { intros g cell Hne Hc. destruct (Hinv g cell Hc) as [?|[? Hh]]; [by left|right].
      split; [done|]. eapply Hkeep_upd; [done| |done]. destruct pc; simpl; congruence. }
    assert (Hstay : ∀ cell pc', pc' ≠ BgStart → pc ≠ BgStart → t1 = TBg g0 pc' →
              heap p !! g0 = Some cell →
              g_dialing cell = 0 ∨
              (g_dialing cell = 1 ∧
               ∃ i t, <[i0 := t1]> ts !! i = Some t ∧ flagHolder t = Some g0)).
    { intros cell pc' Hpc' Hpc -> Hc. destruct (Hinv g0 cell Hc) as [?|[? _]]; [by left|right].
      split; [done|]. exists i0, (TBg g0 pc'). split; [by apply list_lookup_insert_eq|].
      by destruct pc'. }
    intros g cell Hc. destruct Hbg; simpl in *.
    + apply list_lookup_insert_Some in Hc as [(<- & <- & _)|[Hne Hc]];
        [|by apply Hrest].
      right. unfold cas_dialing in *. destruct (g_dialing cell0 =? 0); simplify_eq.
      split; [done|]. exists i0, (TBg g0 BgCheck). split; [|done].
      by apply list_lookup_insert_eq.
    + destruct (decide (g = g0)) as [->|Hne]; [|by apply Hrest].
      assert (cell = cell0) as -> by congruence.
      unfold cas_dialing in *. destruct (Z.eqb_spec (g_dialing cell0) 0); [done|].
      destruct (Hinv g0 cell0 Hc) as [?|[? Hh]]; [by left|right]. split; [done|].
      by eapply Hkeep_upd.
    + destruct (decide (g = g0)) as [->|Hne]; [|by apply Hrest].
      by eapply (Hstay cell BgReturn).
    + destruct (decide (g = g0)) as [->|Hne]; [|by apply Hrest].
      by eapply (Hstay cell BgDial).
    + destruct (decide (g = g0)) as [->|Hne]; [|by apply Hrest].
      by eapply (Hstay cell BgReturn).
    + destruct (decide (g = g0)) as [->|Hne]; [|by apply Hrest].
      by eapply (Hstay cell (BgAdd conn)).
    + destruct (cell_step_back _ _ _ _ _ _ (addClientConn_at_cells g0 conn p) Hc)
        as [?|(-> & c0 & Hc0 & Hd & _)].
      * destruct (decide (g = g0)) as [->|Hne]; [|by apply Hrest].
        by eapply (Hstay cell BgReturn).
      * rewrite Hd. by eapply (Hstay c0 BgReturn).
    + destruct (cell_step_back _ _ _ _ _ _ (update_cell_cells g0 reset_dialing p) Hc)
        as [Hc'|(-> & c0 & Hc0 & ->)]; [|by left].
      destruct (decide (g = g0)) as [->|Hne]; [|by apply Hrest].
      unfold update_cell in Hc. rewrite Hc' in Hc. simpl in Hc.
      rewrite list_lookup_insert_eq in Hc by (by eapply lookup_lt_Some).
      injection Hc as <-. by left.
Qed.

(** X12. In every reachable state the [dialing] flag of every group is 0 or
    1, and it is 1 exactly while a background dial of that group is between
    its compare-and-swap and its deferred store: whichever way a background
    dial ends (at the re-check, on a dial error, after registering), the
    flag is free again, so a later request can start the next one. *)
Theorem dialing_flag_tracks_holder (s : system) (g : nat) (cell : clientConnGroup) :
  reachable s →
  heap (sys_pool s) !! g = Some cell →
  (g_dialing cell = 0 ∨ g_dialing cell = 1) ∧
  (g_dialing cell = 1 ↔
   ∃ i t, sys_threads s !! i = Some t ∧ flagHolder t = Some g).
Proof.
  intros Hr Hc.
  assert (Hinv : ∀ g cell, heap (sys_pool s) !! g = Some cell →
     g_dialing cell = 0 ∨
     (g_dialing cell = 1 ∧
      ∃ i t, sys_threads s !! i = Some t ∧ flagHolder t = Some g)).
  { clear g cell Hc. induction Hr as [dk maxc|s s' Hr IH Hstep].
    - by intros [|?] ?.
    - by eapply flag_held_or_free_step. }
  destruct (Hinv g cell Hc) as [Hz|[Hone Hh]].
  - split; [by left|]. split; [lia|].
    intros (i & t & Hi & Hf).
    destruct (inv_flag s (reachable_flight_inv s Hr) i t g Hi Hf) as (c' & Hc' & Hd).
    congruence.
  - split; [by right|]. by split.
Qed.

(** A background dial in the factory, then returned after a failed dial. *)
Lemma dialing_flag_tracks_holder_witness :
  let start :=
    [AGet "h:443"; ARun 0 (inr 1%positive) (λ _, true);
     AGet "h:443"; ARun 1 (inr 9%positive) (λ _, true);
     ABg 2 (inr 2%positive); ABg 2 (inr 2%positive)] in
  let finish := [ABg 2 (inl (External "timeout")); ABg 2 (inl (External "timeout"))] in
  ∃ s1 s2 cell1 cell2,
    execs start (mkSystem (initPool false 2) []) = Some s1 ∧
    execs finish s1 = Some s2 ∧
    heap (sys_pool s1) !! 0%nat = Some cell1 ∧ g_dialing cell1 = 1 ∧
    heap (sys_pool s2) !! 0%nat = Some cell2 ∧ g_dialing cell2 = 0 ∧
    (g_dialing cell1 = 1 ↔
     ∃ i t, sys_threads s1 !! i = Some t ∧ flagHolder t = Some 0%nat).
Proof.
  intros start finish.
  destruct (execs start (mkSystem (initPool false 2) [])) as [s1|] eqn:Hs1;
    [|by vm_compute in Hs1].
  destruct (execs finish s1) as [s2|] eqn:Hs2.
  2:{ vm_compute in Hs1. injection Hs1 as <-. by vm_compute in Hs2. }
  assert (Hr : reachable s1).
  { apply (execs_reachable start (mkSystem (initPool false 2) []) s1);
      [apply reachable_init|exact Hs1]. }
  assert (H1 : ∃ cell1, heap (sys_pool s1) !! 0%nat = Some cell1 ∧ g_dialing cell1 = 1).
  { vm_compute in Hs1. injection Hs1 as <-. eexists. split; reflexivity. }
  assert (H2 : ∃ cell2, heap (sys_pool s2) !! 0%nat = Some cell2 ∧ g_dialing cell2 = 0).
  { vm_compute in Hs1. injection Hs1 as <-. vm_compute in Hs2. injection Hs2 as <-.
    eexists. split; reflexivity. }
  destruct H1 as (cell1 & Hc1 & Hd1). destruct H2 as (cell2 & Hc2 & Hd2).
  exists s1, s2, cell1, cell2. split_and!; try done.
  exact (proj2 (dialing_flag_tracks_holder s1 0%nat cell1 Hr Hc1)).
Defined.

(** ** The registry and the group pointers *)

Lemma removeClientConn_addr g conn g1 :
  removeClientConn g conn = Some g1 → g_addr g1 = g_addr g.
Proof.
  unfold removeClientConn. intros H.
  destruct (g_keys g !! conn) as [idx|]; [|by injection H as <-].
  destruct (idx =? len g - 1).
  - destruct (go_slice_to _ _); [|done]. simpl in H. by injection H as <-.
  - destruct (go_index _ _); [|done]. simpl in H.
    destruct (go_store _ _ _) as [conns1|]; [|done]. simpl in H.
    destruct (go_slice_to _ _); [|done]. simpl in H. by injection H as <-.
Qed.

Lemma getClientConn_addr self maxConns dialed canTake g pkeys g1 pkeys1 effs r :
  getClientConn self maxConns dialed canTake g pkeys = (g1, pkeys1, effs, r) →
  g_addr g1 = g_addr g.
Proof.
  unfold getClientConn. destruct (len g =? 0).
  - destruct dialed; by intros [= <- _ _ _].
  - destruct (scan _ _ _ _) as [ci [r'|]]; by intros [= <- _ _ _].
Qed.

(** A step never frees a group cell and never changes its destination. *)
Lemma insert_keeps_cells (h : list clientConnGroup) (g0 : nat) (c0 c1 : clientConnGroup) :
  h !! g0 = Some c0 → g_addr c1 = g_addr c0 →
  ∀ g cell, h !! g = Some cell →
    ∃ cell', <[g0 := c1]> h !! g = Some cell' ∧ g_addr cell' = g_addr cell.
Proof.
  intros H0 Ha g cell Hc. destruct (decide (g = g0)) as [->|Hne].
  - exists c1. split; [apply list_lookup_insert_eq; by eapply lookup_lt_Some|congruence].
  - exists cell. by rewrite list_lookup_insert_ne.
Qed.

Lemma getClientConn_at_keeps_cells g0 dialed canTake p p1 effs r :
  getClientConn_at g0 dialed canTake p = (p1, effs, r) →
  groups p1 = groups p ∧
  ∀ g cell, heap p !! g = Some cell →
    ∃ cell', heap p1 !! g = Some cell' ∧ g_addr cell' = g_addr cell.
Proof.
  unfold getClientConn_at. destruct (heap p !! g0) as [c0|] eqn:H0.
  - destruct (getClientConn _ _ _ _ _ _) as [[[c1 k1] effs'] r'] eqn:Hget.
    apply getClientConn_addr in Hget. intros [= <- _ _]. split; [done|].
    simpl. by apply insert_keeps_cells with c0.
  - intros [= <- _ _]. split; [done|]. intros g cell ?. by exists cell.
Qed.

Lemma MarkDead_remove_keeps_cells conn addr g0 p p1 :
  MarkDead_remove conn addr g0 p = Some p1 →
  (∀ addr' g, groups p1 !! addr' = Some g → groups p !! addr' = Some g) ∧
  ∀ g cell, heap p !! g = Some cell →
    ∃ cell', heap p1 !! g = Some cell' ∧ g_addr cell' = g_addr cell.
Proof.
  unfold MarkDead_remove. destruct (heap p !! g0) as [c0|] eqn:H0; [|done]. simpl.
  destruct (removeClientConn c0 conn) as [c1|] eqn:Hr; [|done]. simpl.
  apply removeClientConn_addr in Hr. intros [= <-].
  destruct (len c1 =? 0); simpl; (split; [|by apply insert_keeps_cells with c0]).
  - by intros addr' g [_ ?]%lookup_delete_Some.
  - done.
Qed.

Lemma bg_step_keeps_cells g0 p pc p1 t1 :
  bg_step g0 p pc p1 t1 →
  groups p1 = groups p ∧
  ∀ g cell, heap p !! g = Some cell →
    ∃ cell', heap p1 !! g = Some cell' ∧ g_addr cell' = g_addr cell.
Proof.
  assert (Hid : ∀ q : clientConnPool, ∀ g cell, heap q !! g = Some cell →
            ∃ cell', heap q !! g = Some cell' ∧ g_addr cell' = g_addr cell).
  { intros q g cell ?. by exists cell. }
  destruct 1; try (split; [done|apply Hid]).
  - split; [done|]. simpl. apply insert_keeps_cells with cell; [done|].
    unfold cas_dialing in *. destruct (g_dialing cell =? 0); by simplify_eq.
  - unfold addClientConn_at. destruct (heap p !! g0) as [c0|] eqn:H0;
      [|split; [done|apply Hid]].
    simpl. split; [done|]. by apply insert_keeps_cells with c0.
  - unfold update_cell. destruct (heap p !! g0) as [c0|] eqn:H0;
      [|split; [done|apply Hid]].
    simpl. split; [done|]. by apply insert_keeps_cells with c0.
Qed.

Lemma registry_pointers_step s s' :
  ((∀ addr g, groups (sys_pool s) !! addr = Some g →
      ∃ cell, heap (sys_pool s) !! g = Some cell ∧ g_addr cell = addr) ∧
   (∀ i t g, sys_threads s !! i = Some t → threadGroup t = Some g →
      is_Some (heap (sys_pool s) !! g))) →
  step s s' →
  ((∀ addr g, groups (sys_pool s') !! addr = Some g →
      ∃ cell, heap (sys_pool s') !! g = Some cell ∧ g_addr cell = addr) ∧
   (∀ i t g, sys_threads s' !! i = Some t → threadGroup t = Some g →
      is_Some (heap (sys_pool s') !! g))).
Proof.
  intros [Hreg Hptr] Hstep.
  assert (Hlift : ∀ p p1 : clientConnPool,
    (∀ g cell, heap p !! g = Some cell →
       ∃ cell', heap p1 !! g = Some cell' ∧ g_addr cell' = g_addr cell) →
    (∀ addr g, groups p1 !! addr = Some g → groups p !! addr = Some g) →
    (∀ addr g, groups p !! addr = Some g →
       ∃ cell, heap p !! g = Some cell ∧ g_addr cell = addr) →
    (∀ addr g, groups p1 !! addr = Some g →
       ∃ cell, heap p1 !! g = Some cell ∧ g_addr cell = addr) ∧
    (∀ g, is_Some (heap p !! g) → is_Some (heap p1 !! g))).
  { intros p p1 Hcells Hgs Hr. split.
    - intros addr g Hg%Hgs. destruct (Hr _ _ Hg) as (cell & Hc & <-).
      destruct (Hcells _ _ Hc) as (cell' & ? & ?). by exists cell'.
    - intros g [cell Hc]. destruct (Hcells _ _ Hc) as (cell' & ? & _). by exists cell'. }
  destruct Hstep as
    [p ts Hka
    |p ts addr p1 g0 Hka Hlook
    |p ts i0 g0 dialed canTake p1 effs r Hi Hget
    |p ts conn p1 r Hlook
    |p ts i0 conn addr g0 p1 Hi Hrm
    |p ts i0 g0 pc p1 t1 Hi Hbg]; simpl in *.
  - done.
  - unfold lookupGroup in Hlook. destruct (groups p !! addr) as [g1|] eqn:Hg.
    + injection Hlook as <- <-. split; [done|].
      intros i t g [Hi|[_ ->%list_elem_of_singleton]]%lookup_app_new; [by eapply Hptr|].
      intros [= <-]. destruct (Hreg _ _ Hg) as (cell & ? & _). by exists cell.
    + injection Hlook as <- <-. simpl.
      assert (Hnew : (heap p ++ [newGroup addr]) !! length (heap p) = Some (newGroup addr))
        by (by rewrite lookup_app_r, Nat.sub_diag).
      split.
      * intros addr' g [[<- <-]|[_ Hg']]%lookup_insert_Some; [by exists (newGroup addr)|].
        destruct (Hreg _ _ Hg') as (cell & ? & ?). exists cell.
        split; [by apply lookup_app_l_Some|done].
      * intros i t g [Hi|[_ ->%list_elem_of_singleton]]%lookup_app_new.
        -- intros [cell ?]%(Hptr i t g Hi). exists cell. by apply lookup_app_l_Some.
        -- intros [= <-]. by exists (newGroup addr).
  - apply getClientConn_at_cells in Hget as Hsp. destruct Hsp as [_ Hsp].
    apply getClientConn_at_keeps_cells in Hget as [Hgs Hcells].
    destruct (Hlift p p1 Hcells) as [Hreg1 Hptr1]; [by rewrite Hgs|done|].
    split; [done|].
    intros i t g [Hi'|[_ Hnew]]%lookup_app_new Ht.
    + apply list_lookup_insert_Some in Hi' as [(_ & <- & _)|[_ Hi']]; [done|].
      apply Hptr1. by eapply Hptr.
    + apply Hsp in Hnew as [-> _]. injection Ht as <-. apply Hptr1. by eapply Hptr.
  - unfold MarkDead_lookup in Hlook. destruct (keys p !! conn) as [addr|].
    + simpl in Hlook. destruct (groups p !! addr) as [g1|] eqn:Hg;
        injection Hlook as <- <-; simpl; (split; [done|]).
      * intros i t g [Hi|[_ ->%list_elem_of_singleton]]%lookup_app_new; [by eapply Hptr|].
        intros [= <-]. destruct (Hreg _ _ Hg) as (cell & ? & _). by exists cell.
      * intros i t g [Hi|[_ ->%list_elem_of_singleton]]%lookup_app_new; [by eapply Hptr|done].
    + injection Hlook as <- <-. split; [done|].
      intros i t g [Hi|[_ ->%list_elem_of_singleton]]%lookup_app_new; [by eapply Hptr|done].
  - apply MarkDead_remove_keeps_cells in Hrm as [Hgs Hcells].
    destruct (Hlift p p1 Hcells Hgs Hreg) as [Hreg1 Hptr1]. split; [done|].
    intros i t g [(_ & <- & _)|[_ Hi']]%list_lookup_insert_Some Ht; [done|].
    apply Hptr1. by eapply Hptr.
  - assert (Ht1 : ∀ g, threadGroup t1 = Some g → g = g0).
    { intros g. destruct Hbg; simpl; congruence. }
    apply bg_step_keeps_cells in Hbg as [Hgs Hcells].
    destruct (Hlift p p1 Hcells) as [Hreg1 Hptr1]; [by rewrite Hgs|done|].
    split; [done|].
    intros i t g [(_ & <- & _)|[_ Hi']]%list_lookup_insert_Some Ht.
    + apply Ht1 in Ht as ->. apply Hptr1. by eapply (Hptr i0 (TBg g0 pc)).
    + apply Hptr1. by eapply Hptr.
Qed.

(** X13. In every reachable state the registry is sound: the group
    registered for a destination is allocated and carries that destination
    as its [addr], so no group is registered under two destinations; and the
    group pointer every goroutine holds (a request past the lookup, a
    [MarkDead] between its critical sections, a background dial) leads to an
    allocated cell, also after the group has left the registry. *)
Theorem registry_sound (s : system) :
  reachable s →
  (∀ addr g, groups (sys_pool s) !! addr = Some g →
     ∃ cell, heap (sys_pool s) !! g = Some cell ∧ g_addr cell = addr) ∧
  (∀ addr1 addr2 g,
     groups (sys_pool s) !! addr1 = Some g → groups (sys_pool s) !! addr2 = Some g →
     addr1 = addr2) ∧
  (∀ i t g, sys_threads s !! i = Some t → threadGroup t = Some g →
     is_Some (heap (sys_pool s) !! g)).
Proof.
  intros Hr.
  assert (Hinv :
    (∀ addr g, groups (sys_pool s) !! addr = Some g →
       ∃ cell, heap (sys_pool s) !! g = Some cell ∧ g_addr cell = addr) ∧
    (∀ i t g, sys_threads s !! i = Some t → threadGroup t = Some g →
       is_Some (heap (sys_pool s) !! g))).
  { induction Hr as [dk maxc|s s' Hr IH Hstep].
    - split; simpl; [by intros ?? ?%lookup_empty_Some|by intros [|?] ???].
    - by eapply registry_pointers_step. }
  destruct Hinv as [Hreg Hptr]. split_and!; [done| |done].
  intros addr1 addr2 g H1 H2.
  destruct (Hreg _ _ H1) as (c1 & Hc1 & <-). destruct (Hreg _ _ H2) as (c2 & Hc2 & <-).
  congruence.
Qed.

(** The state of C6's schedule just before the background dial registers:
    its group has left the registry, and its pointer still leads to the
    cell. *)
Lemma registry_sound_witness :
  let sched :=
    [AGet "h:443"; ARun 0 (inr 1%positive) (λ _, true);
     AGet "h:443"; ARun 1 (inr 9%positive) (λ _, true);
     ABg 2 (inr 2%positive); ABg 2 (inr 2%positive);
     AMark 1%positive; ARemove 3; ABg 2 (inr 2%positive)] in
  ∃ s,
    execs sched (mkSystem (initPool false 2) []) = Some s ∧
    sys_threads s !! 2%nat = Some (TBg 0 (BgAdd 2%positive)) ∧
    groups (sys_pool s) = ∅ ∧
    is_Some (heap (sys_pool s) !! 0%nat).
Proof.
  intros sched.
  destruct (execs sched (mkSystem (initPool false 2) [])) as [s|] eqn:Hs;
    [|by vm_compute in Hs].
  assert (Hr : reachable s).
  { apply (execs_reachable sched (mkSystem (initPool false 2) []) s);
      [apply reachable_init|exact Hs]. }
  assert (Hfacts : sys_threads s !! 2%nat = Some (TBg 0 (BgAdd 2%positive)) ∧
                   groups (sys_pool s) = ∅).
  { vm_compute in Hs. injection Hs as <-. split; reflexivity. }
  destruct Hfacts as [Hts Hgs].
  destruct (registry_sound s Hr) as (_ & _ & Hptr).
  exists s. split; [reflexivity|]. split; [exact Hts|]. split; [exact Hgs|].
  exact (Hptr 2%nat _ 0%nat Hts eq_refl).
Defined.

(** ** Groups that never grow *)

Lemma single_conn_step s s' :
  cap_inv s →
  maxConnsPerHost (sys_pool s) ≤ 1 →
  ((∀ i t, sys_threads s !! i = Some t → pastCheck t = None) ∧
   (∀ g cell, heap (sys_pool s) !! g = Some cell → len cell ≤ 1)) →
  step s s' →
  ((∀ i t, sys_threads s' !! i = Some t → pastCheck t = None) ∧
   (∀ g cell, heap (sys_pool s') !! g = Some cell → len cell ≤ 1)).
Proof.
  intros [Htrig _ _] Hmax [Hpast Hone] Hstep.
  destruct Hstep as
    [p ts Hka
    |p ts addr p1 g0 Hka Hlook
    |p ts i0 g0 dialed canTake p1 effs r Hi Hget
    |p ts conn p1 r Hlook
    |p ts i0 conn addr g0 p1 Hi Hrm
    |p ts i0 g0 pc p1 t1 Hi Hbg]; simpl in *.
  - done.
  - apply lookupGroup_cells in Hlook as [_ Hheap]. split.
    + intros i t Hi. split_lookup Hi; [by eapply Hpast|new_thread Hi; done].
    + intros g cell Hc. destruct Hheap as [Hh|Hh]; rewrite Hh in Hc; [by eapply Hone|].
      apply lookup_app_Some in Hc as [?|[_ Hc]]; [by eapply Hone|].
      apply list_lookup_singleton_Some in Hc as [_ <-]. done.
  - apply getClientConn_at_cells in Hget as [Hcells _]. split.
    + intros i t Hi'. split_lookup Hi'; [|by new_thread Hi'].
      split_lookup Hi'; [by subst|by eapply Hpast].
    + intros g cell Hc.
      destruct (cell_step_back _ _ _ _ _ _ Hcells Hc)
        as [?|(-> & c0 & Hc0 & _ & [Hl|[_ Hl]])]; [by eapply Hone| |lia].
      rewrite Hl. by eapply Hone.
  - apply MarkDead_lookup_cells in Hlook as [_ Hheap]. rewrite Hheap. split; [|done].
    intros i t Hi. split_lookup Hi; [by eapply Hpast|].
    new_thread Hi. by destruct r as [[??]|].
  - apply MarkDead_remove_cells in Hrm as Hcells. split.
    + intros i t Hi'. split_lookup Hi'; [by subst|by eapply Hpast].
    + intros g cell Hc.
      destruct (cell_step_back _ _ _ _ _ _ Hcells Hc) as [?|(-> & c0 & Hc0 & _ & Hl)];
        [by eapply Hone|].
      pose proof (Hone g0 c0 Hc0). lia.
  - pose proof (Hpast i0 _ Hi) as Hnot.
    assert (Hbgmax : maxConnsPerHost p ≤ 0).
    { destruct (Z.le_gt_cases (maxConnsPerHost p) 0) as [?|Hpos]; [done|].
      pose proof (Htrig i0 (TBg g0 pc) Hi eq_refl Hpos). lia. }
    destruct Hbg; simpl in *; try done.
    + split.
      * intros i t Hi'. split_lookup Hi'; [by subst|by eapply Hpast].
      * intros g cell' Hc.
        apply list_lookup_insert_Some in Hc as [(<- & <- & _)|[_ Hc]]; [|by eapply Hone].
        unfold cas_dialing in *. destruct (g_dialing cell =? 0); simplify_eq.
        by eapply (Hone g0 cell).
    + split; [|done].
      intros i t Hi'. split_lookup Hi'; [by subst|by eapply Hpast].
    + split; [|done].
      intros i t Hi'. split_lookup Hi'; [by subst|by eapply Hpast].
    + match goal with
      | Hroom : atCapacity _ _ = false |- _ =>
          unfold atCapacity, len in Hroom; apply Z.leb_gt in Hroom; lia
      end.
    + split.
      * intros i t Hi'. split_lookup Hi'; [by subst|by eapply Hpast].
      * intros g cell Hc.
        destruct (cell_step_back _ _ _ _ _ _ (update_cell_cells g0 reset_dialing p) Hc)
          as [?|(-> & c0 & Hc0 & ->)]; [by eapply Hone|].
        by eapply (Hone g0 c0).
Qed.

(** X14. With [maxConnsPerHost] at most 1 (a cap of one, or no positive cap
    at all) no group ever holds more than one connection, and no background
    dial ever gets past the capacity re-check: in every reachable state each
    group has at most one connection and no goroutine is in the factory on
    behalf of a background dial. In particular a transport left at the
    default [MaxConnsPerHost] of 0 keeps one connection per destination. *)
Theorem at_most_one_conn_without_cap (s : system) :
  reachable s →
  maxConnsPerHost (sys_pool s) ≤ 1 →
  (∀ g cell, heap (sys_pool s) !! g = Some cell → len cell ≤ 1) ∧
  (∀ i t, sys_threads s !! i = Some t → pastCheck t = None).
Proof.
  intros Hr Hmax.
  cut ((∀ i t, sys_threads s !! i = Some t → pastCheck t = None) ∧
       (∀ g cell, heap (sys_pool s) !! g = Some cell → len cell ≤ 1)).
  { by intros [? ?]. }
  induction Hr as [dk maxc|s s' Hr IH Hstep].
  - split; simpl; [by intros [|?] ??|by intros [|?] ??].
  - pose proof (step_config s s' Hstep) as [_ Hcfg]. rewrite Hcfg in Hmax.
    eapply single_conn_step; [by apply reachable_cap_inv|done|by apply IH|done].
Qed.

(** No cap configured, three requests, and the background dials they start
    run to their end with a factory that would succeed: one connection. *)
Lemma at_most_one_conn_without_cap_witness :
  let sched :=
    [AGet "h:443"; ARun 0 (inr 1%positive) (λ _, true);
     AGet "h:443"; ARun 1 (inr 9%positive) (λ _, true);
     ABg 2 (inr 2%positive); ABg 2 (inr 2%positive); ABg 2 (inr 2%positive);
     AGet "h:443"; ARun 3 (inr 9%positive) (λ _, true);
     ABg 4 (inr 3%positive); ABg 4 (inr 3%positive); ABg 4 (inr 3%positive)] in
  ∃ s cell,
    execs sched (mkSystem (initPool false 0) []) = Some s ∧
    sys_threads s = [TDone; TDone; TDone; TDone; TDone] ∧
    heap (sys_pool s) !! 0%nat = Some cell ∧
    g_conns cell = [1%positive] ∧ len cell ≤ 1.
Proof.
  intros sched.
  destruct (execs sched (mkSystem (initPool false 0) [])) as [s|] eqn:Hs;
    [|by vm_compute in Hs].
  assert (Hr : reachable s).
  { apply (execs_reachable sched (mkSystem (initPool false 0) []) s);
      [apply reachable_init|exact Hs]. }
  assert (Hfacts : sys_threads s = [TDone; TDone; TDone; TDone; TDone] ∧
                   maxConnsPerHost (sys_pool s) ≤ 1 ∧
                   ∃ cell, heap (sys_pool s) !! 0%nat = Some cell ∧
                           g_conns cell = [1%positive]).
  { vm_compute in Hs. injection Hs as <-. split; [reflexivity|].
    split; [by vm_compute|]. eexists. split; reflexivity. }
  destruct Hfacts as (Hts & Hmax & cell & Hc & Hcs).
  exists s, cell. split_and!; try done.
  exact (proj1 (at_most_one_conn_without_cap s Hr Hmax) 0%nat cell Hc).
Defined.

(** ** The TLS configuration the factory dials with *)

Lemma strSliceContains_elem_of (ss : list string) (s : string) :
  strSliceContains ss s = true ↔ s ∈ ss.
Proof.
  induction ss as [|v ss IH]; simpl.
  - split; [done|by intros ?%not_elem_of_nil].
  - destruct (String.eqb_spec v s) as [->|Hne].
    + split; [intros _; apply list_elem_of_here|done].
    + rewrite IH. split; [by apply list_elem_of_further|].
      by intros [?|?]%elem_of_cons.
Qed.

(** X15. The configuration [newTLSConfig] builds from the transport's (or
    from the zero configuration when there is none): "h2" is among its
    protocols; the caller's protocols are all there, in their order, at the
    end of the list, and nothing but "h2" was added, and only if it was
    missing, so a list without repetitions stays one; a server name the
    caller set is kept, an empty one becomes the host; the verification
    switch is the caller's. Building again from the result changes
    nothing. *)
Theorem newTLSConfig_spec {NetConn : Type} (t : Transport NetConn) (host : string) :
  let base := default (mkTLSConfig [] "" false) (TLSClientConfig t) in
  let cfg := newTLSConfig t host in
  NextProtoTLS ∈ NextProtos cfg ∧
  NextProtos base `suffix_of` NextProtos cfg ∧
  (∀ proto, proto ∈ NextProtos cfg ↔ proto = NextProtoTLS ∨ proto ∈ NextProtos base) ∧
  (NextProtoTLS ∈ NextProtos base → NextProtos cfg = NextProtos base) ∧
  (NoDup (NextProtos base) → NoDup (NextProtos cfg)) ∧
  ServerName cfg = (if decide (ServerName base = "") then host else ServerName base) ∧
  InsecureSkipVerify cfg = InsecureSkipVerify base ∧
  newTLSConfig (mkTransport NetConn (DialTLS t) (Some cfg)) host = cfg.
Proof.
  intros base cfg. subst cfg. unfold newTLSConfig.
  change (match TLSClientConfig t with Some c => c | None => mkTLSConfig [] "" false end)
    with base.
  cbn [TLSClientConfig].
  destruct (strSliceContains (NextProtos base) NextProtoTLS) eqn:Hin.
  - apply strSliceContains_elem_of in Hin as Hel.
    assert (Hn : ∀ h, NextProtos
              (if String.eqb (ServerName base) "" then
                 mkTLSConfig (NextProtos base) h (InsecureSkipVerify base)
               else base) = NextProtos base)
      by (intros h; by destruct (String.eqb _ _)).
    rewrite !Hn. split_and!; try done.
    + intros proto. split; [by right|]. by intros [->|?].
    + destruct (String.eqb_spec (ServerName base) "");
        [by rewrite decide_True|by rewrite decide_False].
    + by destruct (String.eqb _ _).
    + destruct (String.eqb_spec (ServerName base) "") as [He|Hne]; simpl.
      * rewrite Hin. simpl. destruct (String.eqb_spec host ""); [by subst|done].
      * rewrite Hin. destruct (String.eqb_spec (ServerName base) ""); [done|].
        by destruct base.
  - assert (Hnot : NextProtoTLS ∉ NextProtos base).
    { intros Hel%strSliceContains_elem_of. congruence. }
    cbn [NextProtos ServerName InsecureSkipVerify].
    assert (Hn : ∀ h, NextProtos
              (if String.eqb (ServerName base) "" then
                 mkTLSConfig (NextProtoTLS :: NextProtos base) h (InsecureSkipVerify base)
               else mkTLSConfig (NextProtoTLS :: NextProtos base) (ServerName base)
                      (InsecureSkipVerify base)) = NextProtoTLS :: NextProtos base)
      by (intros h; by destruct (String.eqb _ _)).
    rewrite !Hn. split_and!.
    + apply list_elem_of_here.
    + by apply suffix_cons_r.
    + intros proto. apply elem_of_cons.
    + done.
    + intros Hnd. by apply NoDup_cons.
    + destruct (String.eqb_spec (ServerName base) "");
        [by rewrite decide_True|by rewrite decide_False].
    + by destruct (String.eqb _ _).
    + destruct (String.eqb_spec (ServerName base) "") as [He|Hne]; simpl.
      * destruct (String.eqb_spec host ""); [by subst|done].
      * by destruct (String.eqb_spec (ServerName base) "").
Qed.

(** ** What the factory does before it hands out a connection *)

Lemma newTLSConfig_names_server {NetConn : Type} (t : Transport NetConn) (host : string) :
  host ≠ "" → ServerName (newTLSConfig t host) ≠ "".
Proof.
  intros Hhost. unfold newTLSConfig.
  set (base := match TLSClientConfig t with
               | Some c => c
               | None => mkTLSConfig [] "" false
               end).
  destruct (strSliceContains (NextProtos base) NextProtoTLS); simpl;
    destruct (String.eqb_spec (ServerName base) ""); simpl; done.
Qed.

Lemma newTLSConfig_has_h2 {NetConn : Type} (t : Transport NetConn) (host : string) :
  NextProtoTLS ∈ NextProtos (newTLSConfig t host).
Proof.
  unfold newTLSConfig.
  set (base := match TLSClientConfig t with
               | Some c => c
               | None => mkTLSConfig [] "" false
               end).
  destruct (strSliceContains (NextProtos base) NextProtoTLS) eqn:Hin.
  - apply strSliceContains_elem_of in Hin. by destruct (String.eqb _ _).
  - simpl. destruct (String.eqb _ _); apply list_elem_of_here.
Qed.

Section FactoryDial.
Context {NetConn TLSConn Context : Type}.
Variable tls_as_net : TLSConn → NetConn.
Variable SplitHostPort : string → string + (string * string).
Variable DialContext : tlsConfig → Context → string → string → string + TLSConn.
Variable Handshake : TLSConn → option string.
Variable VerifyHostname : TLSConn → string → option string.
Variable NegotiatedProtocol : TLSConn → string.
Variable NewClientConn : NetConn → string + ClientConn.

Local Abbreviation factory' :=
  (dialClientConn tls_as_net SplitHostPort DialContext Handshake VerifyHostname
     NegotiatedProtocol NewClientConn).

(** X16. The factory's own TLS dial returns a connection only when the
    handshake on it completed and, unless the configuration says
    [InsecureSkipVerify], its certificate was verified for the
    configuration's server name; the connection returned is the one dialed.
    Its errors are the collaborators', in the order dial, handshake,
    verification. With [InsecureSkipVerify] set the verification is not
    consulted at all: the outcome is the same whatever it would answer. *)
Theorem dialTLSWithContext_verified (ctx : Context) (network addr : string)
    (cfg : tlsConfig) :
  (∀ tlsConn,
     dialTLSWithContext DialContext Handshake VerifyHostname ctx network addr cfg
       = inr tlsConn ↔
     DialContext cfg ctx network addr = inr tlsConn ∧
     Handshake tlsConn = None ∧
     (InsecureSkipVerify cfg = true ∨ VerifyHostname tlsConn (ServerName cfg) = None)) ∧
  (∀ err,
     dialTLSWithContext DialContext Handshake VerifyHostname ctx network addr cfg
       = inl err ↔
     DialContext cfg ctx network addr = inl err ∨
     ∃ tlsConn,
       DialContext cfg ctx network addr = inr tlsConn ∧
       (Handshake tlsConn = Some err ∨
        (Handshake tlsConn = None ∧ InsecureSkipVerify cfg = false ∧
         VerifyHostname tlsConn (ServerName cfg) = Some err))) ∧
  (InsecureSkipVerify cfg = true →
   ∀ VerifyHostname' : TLSConn → string → option string,
     dialTLSWithContext DialContext Handshake VerifyHostname' ctx network addr cfg
       = dialTLSWithContext DialContext Handshake VerifyHostname ctx network addr cfg).
Proof.
  unfold dialTLSWithContext. split_and!.
  - intros tc. destruct (DialContext cfg ctx network addr) as [e|tc'].
    { split; [done|by intros [? _]]. }
    destruct (Handshake tc') as [e|] eqn:Hh.
    { split; [done|]. intros ([= <-] & ? & _). congruence. }
    destruct (InsecureSkipVerify cfg).
    { split; [intros [= <-]; auto|by intros [? _]]. }
    destruct (VerifyHostname tc' (ServerName cfg)) as [e|] eqn:Hv.
    + split; [done|]. intros ([= <-] & _ & [?|?]); congruence.
    + split; [intros [= <-]; auto|by intros [? _]].
  - intros err. destruct (DialContext cfg ctx network addr) as [e|tc'].
    { split; [intros [= <-]; by left|]. by intros [?|(tc & ? & _)]. }
    destruct (Handshake tc') as [e|] eqn:Hh.
    { split.
      - intros [= <-]. right. exists tc'. split; [done|by left].
      - intros [?|(tc & [= <-] & [?|(? & _)])]; congruence. }
    destruct (InsecureSkipVerify cfg).
    { split; [done|]. intros [?|(tc & [= <-] & [?|(_ & ? & _)])]; congruence. }
    destruct (VerifyHostname tc' (ServerName cfg)) as [e|] eqn:Hv.
    + split.
      * intros [= <-]. right. exists tc'. split; [done|]. right. by split_and!.
      * intros [?|(tc & [= <-] & [?|(_ & _ & ?)])]; congruence.
    + split; [done|]. intros [?|(tc & [= <-] & [?|(_ & _ & ?)])]; congruence.
  - intros Hskip V'. rewrite Hskip.
    destruct (DialContext cfg ctx network addr) as [e|tc']; [done|].
    by destruct (Handshake tc').
Qed.

(** X17. End to end, without a custom dial function: the factory returns a
    protocol session only if the address parsed, its own TLS dial was made
    with a configuration that advertises "h2" and names the server (the
    caller's server name, or the host of the address), the handshake
    completed, the certificate was verified for that name unless
    verification is switched off, the peer negotiated "h2", and the engine
    accepted the connection; and then it returns what the engine built. A
    malformed address is answered with the resolver's error whatever the
    other collaborators would do, custom dial function included. *)
Theorem dialClientConn_returns_verified_h2 (t : Transport NetConn) (ctx : Context)
    (addr : string) :
  (DialTLS t = None →
   ∀ cc, factory' t ctx addr = inr cc →
     ∃ host port tlsConn,
       SplitHostPort addr = inr (host, port) ∧
       DialContext (newTLSConfig t host) ctx "tcp" addr = inr tlsConn ∧
       NextProtoTLS ∈ NextProtos (newTLSConfig t host) ∧
       (host ≠ "" → ServerName (newTLSConfig t host) ≠ "") ∧
       Handshake tlsConn = None ∧
       (InsecureSkipVerify (newTLSConfig t host) = true ∨
        VerifyHostname tlsConn (ServerName (newTLSConfig t host)) = None) ∧
       NegotiatedProtocol tlsConn = NextProtoTLS ∧
       NewClientConn (tls_as_net tlsConn) = inr cc) ∧
  (∀ err, SplitHostPort addr = inl err →
     ∀ (dial : option (string → string → tlsConfig → string + NetConn))
       (cfg : option tlsConfig),
       factory' (mkTransport NetConn dial cfg) ctx addr = inl (External err)).
Proof.
  split.
  - intros Hd cc. unfold dialClientConn. rewrite Hd.
    destruct (SplitHostPort addr) as [e|[host port]]; [done|].
    destruct (dialTLSWithContext _ _ _ _ _ _ _) as [e|tc] eqn:Ht; [done|].
    destruct (String.eqb_spec (NegotiatedProtocol tc) NextProtoTLS) as [Hp|Hp];
      simpl; [|done].
    destruct (NewClientConn (tls_as_net tc)) as [e|cc'] eqn:Hn; [done|].
    intros [= <-]. exists host, port, tc.
    unfold dialTLSWithContext in Ht.
    destruct (DialContext (newTLSConfig t host) ctx "tcp" addr) as [e|tc'] eqn:Hdc;
      [done|].
    destruct (Handshake tc') as [e|] eqn:Hh; [done|].
    pose proof (newTLSConfig_names_server t host) as Hname.
    pose proof (newTLSConfig_has_h2 t host) as Hh2.
    destruct (InsecureSkipVerify (newTLSConfig t host)) eqn:Hskip.
    + injection Ht as <-. split_and!; try done. by left.
    + destruct (VerifyHostname tc' (ServerName (newTLSConfig t host))) as [e|] eqn:Hv;
        [done|].
      injection Ht as <-. split_and!; try done. by right.
  - intros err Hs dial cfg. unfold dialClientConn. by rewrite Hs.
Qed.

End FactoryDial.

(** A peer that completes the handshake and negotiates "h2" but whose
    certificate does not verify: no session, unless the configuration
    switches verification off. *)
Lemma dialTLSWithContext_verified_witness :
  let dialContext :=
    λ (_ : tlsConfig) (_ : unit) (_ _ : string), inr (A := string) "peer" in
  let verify := λ (_ _ : string), Some "x509: certificate is not valid for h" in
  dialTLSWithContext dialContext (λ _, None) verify tt "tcp" "h:443"
    (mkTLSConfig ["h2"] "h" false) = inl "x509: certificate is not valid for h" ∧
  dialTLSWithContext dialContext (λ _, None) verify tt "tcp" "h:443"
    (mkTLSConfig ["h2"] "h" true) = inr "peer".
Proof.
  intros dialContext verify. split; [reflexivity|].
  apply (proj1 (dialTLSWithContext_verified dialContext (λ _, None) verify tt "tcp" "h:443"
                  (mkTLSConfig ["h2"] "h" true))).
  split; [reflexivity|]. split; [reflexivity|]. by left.
Defined.

Lemma dialClientConn_returns_verified_h2_witness :
  let split := λ addr : string, inr (A := string) ("h", "443") in
  let dialContext :=
    λ (_ : tlsConfig) (_ : unit) (_ _ : string), inr (A := string) "h2" in
  let engine := λ _ : string, inr (A := string) 7%positive in
  dialClientConn id split dialContext (λ _, None) (λ _ _, None) id engine
    (mkTransport string None None) tt "h:443" = inr 7%positive ∧
  ∃ host port tlsConn,
    split "h:443" = inr (host, port) ∧
    dialContext (newTLSConfig (mkTransport string None None) host) tt "tcp" "h:443"
      = inr tlsConn ∧
    ServerName (newTLSConfig (mkTransport string None None) host) = "h".
Proof.
  intros split dialContext engine.
  assert (Hdial : dialClientConn id split dialContext (λ _, None) (λ _ _, None) id engine
                    (mkTransport string None None) tt "h:443" = inr 7%positive)
    by reflexivity.
  split; [exact Hdial|].
  destruct (proj1 (dialClientConn_returns_verified_h2 id split dialContext (λ _, None)
                     (λ _ _, None) id engine (mkTransport string None None) tt "h:443")
              eq_refl 7%positive Hdial)
    as (host & port & tc & Hs & Hdc & _).
  exists host, port, tc. split; [exact Hs|]. split; [exact Hdc|].
  injection Hs as <- <-. reflexivity.
Defined.

(** ** Reuse, concurrent retirement, and a stale index *)

(** X18. Connection reuse. After the first request to a destination has
    dialed and registered a connection, a second request to it, with that
    connection answering that it can take a request, is served by the same
    connection and makes no dial of its own, whatever the factory would
    return. The registry, [keys] and the group's connection list are left as
    they were; a background dial is started exactly when there is no
    positive cap or the cap is above one. *)
Theorem second_request_reuses (addr : string) (conn : ClientConn)
    (canTake canTake' : ClientConn → bool) (dialed' : error + ClientConn)
    (p : clientConnPool) :
  DisableKeepAlives p = false →
  groups p !! addr = None →
  canTake' conn = true →
  ∃ p1 p2 cell1 cell2,
    GetClientConn addr (inr conn) canTake p = (p1, [EDial addr], Ok conn) ∧
    GetClientConn addr dialed' canTake' p1
      = (p2,
         if (maxConnsPerHost p <=? 0) || (1 <? maxConnsPerHost p)
         then [EGo (length (heap p))] else [],
         Ok conn) ∧
    groups p2 = groups p1 ∧ keys p2 = keys p1 ∧
    heap p1 !! length (heap p) = Some cell1 ∧
    heap p2 !! length (heap p) = Some cell2 ∧
    g_conns cell1 = [conn] ∧ g_conns cell2 = [conn] ∧ g_keys cell2 = g_keys cell1.
Proof.
  intros Hka Hg Hq.
  assert (Hcell : ∀ (h : list clientConnGroup) c, (h ++ [c]) !! length h = Some c).
  { intros h c. by rewrite lookup_app_r, Nat.sub_diag. }
  assert (Hins : ∀ (h : list clientConnGroup) c c',
            <[length h := c']> (h ++ [c]) !! length h = Some c').
  { intros h c c'. apply list_lookup_insert_eq. rewrite length_app. simpl. lia. }
  set (cell1 := set_conns (set_keys (newGroup addr) (<[conn := 0]> ∅)) [conn]).
  assert (Hsecond : ∀ pk,
    getClientConn (length (heap p)) (maxConnsPerHost p) dialed' canTake' cell1 pk
      = (set_connIdx cell1 1, pk,
         if (maxConnsPerHost p <=? 0) || (1 <? maxConnsPerHost p)
         then [EGo (length (heap p))] else [],
         Ok conn)).
  { intros pk. unfold getClientConn, cell1, wantsMore, len. cbn -[Z.ltb Z.leb].
    change (Z.of_nat 1) with 1. change (1 =? 0) with false.
    change (wrap_int (0 + 1)) with 1.
    change (go_index [conn] (Z.rem 1 1)) with (Some conn).
    cbv iota. by rewrite Hq. }
  set (p1 := set_keys_p
               (set_heap
                  (set_groups (set_heap p (heap p ++ [newGroup addr]))
                     (<[addr := length (heap p)]> (groups p)))
                  (<[length (heap p) := cell1]> (heap p ++ [newGroup addr])))
               (<[conn := addr]> (keys p))).
  assert (Hfirst : GetClientConn addr (inr conn) canTake p = (p1, [EDial addr], Ok conn)).
  { unfold GetClientConn. rewrite Hka, (lookupGroup_new addr p Hg).
    unfold getClientConn_at. simpl. by rewrite Hcell. }
  assert (Hnext : GetClientConn addr dialed' canTake' p1
            = (set_keys_p (set_heap p1 (<[length (heap p) := set_connIdx cell1 1]> (heap p1)))
                 (keys p1),
               if (maxConnsPerHost p <=? 0) || (1 <? maxConnsPerHost p)
               then [EGo (length (heap p))] else [],
               Ok conn)).
  { unfold GetClientConn, lookupGroup, getClientConn_at.
    cbn -[getClientConn Z.ltb Z.leb]. rewrite Hka, lookup_insert_eq.
    cbn -[getClientConn Z.ltb Z.leb]. rewrite Hins.
    cbn -[getClientConn Z.ltb Z.leb]. by rewrite Hsecond. }
  eexists p1, _, cell1, (set_connIdx cell1 1).
  split; [exact Hfirst|]. split; [exact Hnext|]. simpl.
  rewrite list_insert_insert_eq, !Hins. by split_and!.
Qed.

Lemma second_request_reuses_witness :
  ∃ p1 p2,
    GetClientConn "h:443" (inr 1%positive) (λ _, true) (initPool false 1)
      = (p1, [EDial "h:443"], Ok 1%positive) ∧
    GetClientConn "h:443" (inl (External "unreachable")) (λ _, true) p1
      = (p2, [], Ok 1%positive).
Proof.
  destruct (second_request_reuses "h:443" 1%positive (λ _, true) (λ _, true)
              (inl (External "unreachable")) (initPool false 1))
    as (p1 & p2 & _ & _ & H1 & H2 & _); try reflexivity.
  exists p1, p2. split; [exact H1|exact H2].
Defined.

(** X19. Of several [MarkDead] calls for one connection that run at the same
    time, at most one goes on to the group. The first critical section, if
    it finds the connection in [keys], removes it there before the pool's
    lock is released; run again on the pool it leaves, it finds nothing,
    hands back no group, and changes nothing. What it hands on is the
    destination [keys] held and the group the registry held for it. *)
Theorem MarkDead_lookup_once (conn : ClientConn) (p p1 : clientConnPool)
    (r : option (string * nat)) :
  MarkDead_lookup conn p = (p1, r) →
  keys p1 = delete conn (keys p) ∧
  MarkDead_lookup conn p1 = (p1, None) ∧
  (∀ addr g, r = Some (addr, g) →
     keys p !! conn = Some addr ∧ groups p !! addr = Some g) ∧
  (keys p !! conn = None → p1 = p ∧ r = None).
Proof.
  unfold MarkDead_lookup. destruct (keys p !! conn) as [addr|] eqn:Hk.
  - simpl. destruct (groups p !! addr) as [g|] eqn:Hg; intros [= <- <-]; simpl;
      rewrite lookup_delete_eq; split_and!; try done.
    by intros addr' g' [= <- <-].
  - intros [= <- <-]. rewrite Hk, delete_id by done. by split_and!.
Qed.

Lemma MarkDead_lookup_once_witness :
  let p := (GetClientConn "h:443" (inr 1%positive) (λ _, true) (initPool false 2)).1.1 in
  ∃ p1,
    MarkDead_lookup 1%positive p = (p1, Some ("h:443", 0%nat)) ∧
    MarkDead_lookup 1%positive p1 = (p1, None).
Proof.
  intros p.
  destruct (MarkDead_lookup 1%positive p) as [p1 r] eqn:Hl.
  destruct (MarkDead_lookup_once 1%positive p p1 r Hl) as (_ & Hagain & _).
  exists p1. split; [|exact Hagain].
  assert (Hr : (MarkDead_lookup 1%positive p).2 = Some ("h:443", 0%nat)) by reflexivity.
  rewrite Hl in Hr. simpl in Hr. by rewrite Hr.
Defined.

(** X20. An index-map entry that points outside the slice makes
    [removeClientConn] panic: whether the entry equals [len(g.conns)-1]
    (only possible for an empty slice, where the cut [g.conns[:-1]] is out
    of range) or not (the read of the last element or the store at the
    entry's index is out of range). The entry that retiring a last element
    leaves behind is such an entry once the slice is shorter, so a second
    [removeClientConn] of that connection on the group would panic; the
    pool only reaches [removeClientConn] through [MarkDead], which has
    already dropped the connection from [keys] by then. *)
Theorem removeClientConn_stale_entry_panics (g : clientConnGroup) (conn : ClientConn)
    (idx : Z) :
  g_keys g !! conn = Some idx →
  ¬ (0 ≤ idx < len g) →
  removeClientConn g conn = None.
Proof.
  intros Hk Hout. unfold removeClientConn. rewrite Hk.
  unfold go_slice_to, go_index, go_store. fold (len g).
  destruct (Z.eqb_spec idx (len g - 1)) as [->|Hne].
  - destruct (Z.leb_spec 0 (len g - 1)); [lia|done].
  - destruct (Z.leb_spec 0 (len g - 1)); [|done].
    destruct (g_conns g !! Z.to_nat (len g - 1)) as [lastConn|]; [|done]. simpl.
    destruct (Z.leb_spec 0 idx); [|done].
    destruct (Z.ltb_spec idx (len g)); [lia|done].
Qed.

Lemma removeClientConn_stale_entry_panics_witness :
  ∃ g1,
    removeClientConn (addClientConn (newGroup "h:443") ∅ 1%positive).1 1%positive = Some g1 ∧
    removeClientConn g1 1%positive = None.
Proof.
  destruct (removeClientConn (addClientConn (newGroup "h:443") ∅ 1%positive).1 1%positive)
    as [g1|] eqn:Hr; [|by vm_compute in Hr].
  exists g1. split; [reflexivity|].
  apply (removeClientConn_stale_entry_panics g1 1%positive 0).
  - vm_compute in Hr. injection Hr as <-. reflexivity.
  - vm_compute in Hr. injection Hr as <-. vm_compute. intros [_ H]. discriminate H.
Defined.

(** ** The cursor at the end of [int] (C3, C7) *)

Lemma wrap_int_max : wrap_int (max_int + 1) = min_int.
Proof. reflexivity. Qed.

Lemma go_index_neg {A} (s : list A) (i : Z) : i < 0 → go_index s i = None.
Proof. intros Hi. unfold go_index. by destruct (Z.leb_spec 0 i); [lia|]. Qed.

(** Go's [%] truncates: once the cursor is negative the remainder is
    negative unless the divisor divides it, and no [n >= 2] divides both the
    smallest [int] and its successor. *)
Lemma rem_after_wrap (n : Z) :
  2 ≤ n →
  Z.rem min_int n < 0 ∨ (Z.rem min_int n = 0 ∧ Z.rem (min_int + 1) n < 0).
Proof.
  intros Hn.
  pose proof (Z.rem_nonpos min_int n ltac:(lia) ltac:(by vm_compute)) as H0.
  pose proof (Z.rem_nonpos (min_int + 1) n ltac:(lia) ltac:(by vm_compute)) as H1.
  destruct (decide (Z.rem min_int n = 0)) as [Hz|Hnz]; [right|left; lia].
  split; [done|].
  destruct (decide (Z.rem (min_int + 1) n = 0)) as [Hz1|Hnz1]; [|lia].
  apply Z.rem_divide in Hz as [q Hq]; [|lia].
  apply Z.rem_divide in Hz1 as [q1 Hq1]; [|lia].
  assert (Hd : (n | 1)) by (exists (q1 - q); lia).
  apply Z.divide_1_r_nonneg in Hd; lia.
Qed.

(** The loop over refusing candidates, started close enough to the largest
    [int] that two increments happen after the wrap-around: it indexes
    [conns] with a negative remainder. *)
Lemma scan_refusing_overflow (canTake : ClientConn → bool) (conns : list ClientConn)
    (todo : nat) (connIdx : Z) :
  2 ≤ Z.of_nat (length conns) →
  (∀ conn, conn ∈ conns → canTake conn = false) →
  0 ≤ connIdx ≤ max_int →
  max_int + 2 ≤ connIdx + Z.of_nat todo →
  (scan canTake conns todo connIdx).2 = Some Panic.
Proof.
  intros Hn Hall. assert (Hne : conns ≠ []) by (intros ->; simpl in Hn; lia).
  revert connIdx. induction todo as [|todo IH]; intros connIdx Hc Htodo; [lia|].
  cbn [scan]. destruct (decide (connIdx = max_int)) as [->|Hlt].
  - rewrite wrap_int_max.
    destruct (rem_after_wrap _ Hn) as [Hneg|[Hz Hneg]].
    { by rewrite go_index_neg. }
    rewrite Hz. destruct (go_index conns 0) as [conn|] eqn:Hconn; [|done].
    apply go_index_Some in Hconn as [_ Hconn].
    rewrite (Hall conn) by (by eapply list_elem_of_lookup_2).
    destruct todo as [|todo]; [lia|]. cbn [scan].
    rewrite wrap_int_id by (by vm_compute).
    by rewrite go_index_neg.
  - rewrite wrap_int_id by (unfold min_int, max_int, int_bits in *; lia).
    destruct (candidate_exists conns Hne (connIdx + 1)) as (conn & -> & Hin); [lia|].
    rewrite (Hall conn Hin). apply IH; lia.
Qed.

(** C7 (the code departs from it). A group of at least two connections that
    all refuse, with the cursor so close to the largest [int] that the round
    of [len(conns)] increments passes it by two: the increment wraps to the
    smallest [int], [connIdx % len(conns)] is negative there or one step
    later, and [g.conns[...]] panics. No error is returned although every
    candidate refuses. *)
Theorem getClientConn_exhaustion_cursor_overflow (self : nat) (maxConns : Z)
    (dialed : error + ClientConn) (canTake : ClientConn → bool)
    (g : clientConnGroup) (pkeys : gmap ClientConn string) :
  2 ≤ len g →
  0 ≤ g_connIdx g ≤ max_int →
  max_int + 2 ≤ g_connIdx g + len g →
  (∀ conn, conn ∈ g_conns g → canTake conn = false) →
  (getClientConn self maxConns dialed canTake g pkeys).2 = Panic ∧
  ¬ ∃ e, (getClientConn self maxConns dialed canTake g pkeys).2 = Err e.
Proof.
  intros Hn Hc Hover Hall.
  cut ((getClientConn self maxConns dialed canTake g pkeys).2 = Panic).
  { intros Hp. split; [done|]. rewrite Hp. by intros [e ?]. }
  unfold getClientConn.
  destruct (Z.eqb_spec (len g) 0) as [?|_]; [lia|].
  pose proof (scan_refusing_overflow canTake (g_conns g) (length (g_conns g))
                (g_connIdx g) Hn Hall Hc Hover) as Hscan.
  destruct (scan canTake (g_conns g) (length (g_conns g)) (g_connIdx g)) as [ci [r|]];
    simpl in Hscan; [|done].
  by injection Hscan as ->.
Qed.

Lemma getClientConn_exhaustion_cursor_overflow_witness :
  let g := mkGroup "h:443" max_int [1%positive; 2%positive]
             {[1%positive := 0; 2%positive := 1]} 0 in
  getClientConn 0 2 (inr 3%positive) (λ _, false) g ∅
    = (set_connIdx g (min_int + 1), ∅, [], Panic) ∧
  (getClientConn 0 2 (inr 3%positive) (λ _, false) g ∅).2 = Panic.
Proof.
  intros g. split; [reflexivity|].
  refine (proj1 (getClientConn_exhaustion_cursor_overflow 0 2 (inr 3%positive)
                   (λ _, false) g ∅ _ _ _ _)).
  - by vm_compute.
  - by vm_compute.
  - by vm_compute.
  - done.
Defined.

Lemma elem_of_take_list {A} (x : A) (k : nat) (l : list A) : x ∈ take k l → x ∈ l.
Proof. intros (i & Hi & _)%elem_of_take. by eapply list_elem_of_lookup_2. Qed.

(** A run of accepted calls moves the cursor up by one per call; started
    anywhere in the non-negative range it reaches the largest [int], and one
    of the next two calls panics. *)
Lemma serve_reaches_overflow (self : nat) (maxConns : Z)
    (envs : list ((error + ClientConn) * (ClientConn → bool)))
    (g : clientConnGroup) (pkeys : gmap ClientConn string) :
  2 ≤ len g →
  0 ≤ g_connIdx g ≤ max_int →
  (∀ env conn, env ∈ envs → conn ∈ g_conns g → env.2 conn = true) →
  max_int - g_connIdx g + 2 ≤ Z.of_nat (length envs) →
  Panic ∈ serve self maxConns envs g pkeys.
Proof.
  intros Hn. assert (Hne : g_conns g ≠ []).
  { intros E. unfold len in Hn. rewrite E in Hn. simpl in Hn. lia. }
  revert g pkeys Hn Hne.
  induction envs as [|[dialed canTake] envs IH]; intros g pkeys Hn Hne Hc Hall Hlen.
  { simpl in Hlen. lia. }
  cbn [serve]. destruct (decide (g_connIdx g = max_int)) as [Hmax|Hlt].
  - unfold getClientConn at 1.
    destruct (Z.eqb_spec (len g) 0) as [?|_]; [lia|].
    destruct (length (g_conns g)) as [|m] eqn:Hm; [by destruct (g_conns g)|].
    cbn [scan]. rewrite Hmax, wrap_int_max, Hm.
    assert (Hn' : 2 ≤ Z.of_nat (S m)) by (unfold len in Hn; by rewrite Hm in Hn).
    destruct (rem_after_wrap _ Hn') as [Hneg|[Hz Hneg]].
    { rewrite go_index_neg by done. apply list_elem_of_here. }
    rewrite Hz. destruct (go_index (g_conns g) 0) as [conn|] eqn:Hconn;
      [|apply list_elem_of_here].
    apply go_index_Some in Hconn as [_ Hconn].
    assert (Hq : canTake conn = true).
    { apply (Hall (dialed, canTake) conn);
        [apply list_elem_of_here|by eapply list_elem_of_lookup_2]. }
    rewrite Hq.
    apply list_elem_of_further.
    destruct envs as [|[dialed' canTake'] envs].
    { simpl in Hlen. lia. }
    cbn [serve]. unfold getClientConn at 1.
    change (len (set_connIdx g min_int)) with (len g).
    destruct (Z.eqb_spec (len g) 0) as [?|_]; [lia|].
    cbn [g_conns set_connIdx g_connIdx]. rewrite Hm. cbn [scan].
    rewrite wrap_int_id by (by vm_compute). rewrite Hm.
    rewrite go_index_neg by done. apply list_elem_of_here.
  - destruct (getClientConn_next self maxConns dialed canTake g pkeys Hne)
      as (conn & effs & -> & _).
    { split; lia. }
    { intros c Hin. apply (Hall (dialed, canTake)); [apply list_elem_of_here|done]. }
    apply list_elem_of_further. apply IH; try done.
    + simpl. lia.
    + intros env c Hin. apply Hall. by apply list_elem_of_further.
    + simpl in *. lia.
Qed.

(** C3 (the code departs from it). A group of at least two connections
    that all accept, served in a row: the cursor is an [int] that is only
    ever incremented, so from any non-negative cursor [c] the run reaches
    the largest [int] after [MaxInt - c] calls, the next increment wraps to
    the smallest [int], and that call or the one after it indexes [conns]
    with a negative remainder and panics. Among the first [MaxInt - c + 2]
    calls one does not return a connection. *)
Theorem round_robin_cursor_overflow (self : nat) (maxConns : Z)
    (envs : list ((error + ClientConn) * (ClientConn → bool)))
    (g : clientConnGroup) (pkeys : gmap ClientConn string) :
  2 ≤ len g →
  0 ≤ g_connIdx g ≤ max_int →
  (∀ env conn, env ∈ envs → conn ∈ g_conns g → env.2 conn = true) →
  max_int - g_connIdx g + 2 ≤ Z.of_nat (length envs) →
  Panic ∈ take (Z.to_nat (max_int - g_connIdx g + 2)) (serve self maxConns envs g pkeys) ∧
  ¬ ∀ r, r ∈ serve self maxConns envs g pkeys → ∃ conn, r = Ok conn.
Proof.
  intros Hn Hc Hall Hlen.
  assert (Hp : Panic ∈ take (Z.to_nat (max_int - g_connIdx g + 2))
                         (serve self maxConns envs g pkeys)).
  { rewrite serve_take. apply serve_reaches_overflow; try done.
    - intros env conn Hin. apply Hall. by eapply elem_of_take_list.
    - rewrite length_take. lia. }
  split; [done|]. intros Hok.
  apply elem_of_take_list in Hp. by destruct (Hok _ Hp) as [conn ?].
Qed.

Lemma round_robin_cursor_overflow_witness :
  let g := mkGroup "h:443" max_int [1%positive; 2%positive; 3%positive]
             {[1%positive := 0; 2%positive := 1; 3%positive := 2]} 0 in
  let env : (error + ClientConn) * (ClientConn → bool) := (inr 9%positive, λ _, true) in
  serve 0 3 [env; env; env] g ∅ = [Panic; Panic; Ok 1%positive] ∧
  Panic ∈ take 2 (serve 0 3 [env; env; env] g ∅).
Proof.
  intros g env. split; [reflexivity|].
  refine (proj1 (round_robin_cursor_overflow 0 3 [env; env; env] g ∅ _ _ _ _)).
  - by vm_compute.
  - by vm_compute.
  - intros e c Hin _.
    repeat (apply elem_of_cons in Hin as [->|Hin]; [reflexivity|]).
    by apply elem_of_nil in Hin.
  - by vm_compute.
Defined.
